(** * json-mason: the operation engine of [src/index.ts] over a model of the
    JavaScript heap.

    The library edits JSON-like documents: [JsonMasonUtils.get] and
    [JsonMasonUtils.set] navigate a path of keys, [JsonMason.executeOperation]
    interprets one operation and [JsonMason.apply] replays a batch.  Documents
    are JavaScript values, so containers have identity and are mutated in
    place; the development therefore keeps an explicit store of objects and
    threads it through every function, which is what makes statements such as
    "returns the source itself" or "the original is left untouched"
    expressible.

    Scope of the model.  A document is made of [undefined], [null],
    booleans, numbers, strings, arrays and plain objects; what
    [structuredClone] does with other values (it copies dates and maps, and
    rejects functions) is not modelled.  An object is the record of its own
    properties: the prototype chain is not modelled, so that [key in o],
    [o[key]] and [o[key] = v] are what the host does for the keys that no
    prototype defines and for the own properties of a document, and no more.
    The statements about reading and writing therefore take paths of plain
    keys ([plain_path]), which leaves out keys such as ["toString"],
    ["constructor"] or ["__proto__"]: what the code does there (it reads and
    writes the objects of the host) is neither stated nor denied.  Numbers,
    as values and as keys, are integers, and [String(n)] is their decimal
    form, which is what JavaScript gives below 10^21 in magnitude.  The code
    runs as a module, hence in strict mode: an assignment to a property of a
    primitive throws. *)

From Stdlib Require Import ZArith Ascii Lia.
From stdpp Require Import base option list strings gmap pretty.

#[local] Set Warnings "-register-all".

Local Open Scope Z_scope.
Local Open Scope string_scope.
Local Open Scope list_scope.

(** ** Values, objects and the store *)

Abbreviation loc := nat.

(** A JavaScript value.  Numbers are only carried around by the library (it
    never computes with them), so they are represented by integers; strings
    are sequences of code units. *)
Inductive value :=
| VUndef
| VNull
| VBool (b : bool)
| VNum (z : Z)
| VStr (s : string)
| VRef (l : loc).

(** An array keeps its elements (a hole is [None]) and the properties that
    are not indices; a plain object keeps its fields in insertion order. *)
Inductive object :=
| OArr (elems : list (option value)) (named : list (string * value))
| OObj (fields : list (string * value)).

Abbreviation heap := (list object).

(** A key of a path: [(string | number)]. *)
Inductive key :=
| KStr (s : string)
| KNum (z : Z).

#[global] Instance value_eq_dec : EqDecision value.
Proof. solve_decision. Defined.
#[global] Instance obj_eq_dec : EqDecision object.
Proof. solve_decision. Defined.
#[global] Instance key_eq_dec : EqDecision key.
Proof. solve_decision. Defined.

(** ** Property keys *)

(** [String(key)]: the property name a key stands for.  A number is an
    integer and prints in decimal, as the host prints the integers below
    10^21 in magnitude. *)
Definition key_to_string (k : key) : string :=
  match k with
  | KStr s => s
  | KNum z => pretty z
  end.

(** [path.join(sep)] *)
Definition join (sep : string) (path : list key) : string :=
  String.concat sep (map key_to_string path).

Definition digit_of (c : ascii) : option N :=
  let n := N_of_ascii c in
  if ((48 <=? n) && (n <=? 57))%N then Some (n - 48)%N else None.

Fixpoint parse_digits (acc : N) (s : string) : option N :=
  match s with
  | EmptyString => Some acc
  | String c s' =>
      match digit_of c with
      | Some d => parse_digits (10 * acc + d) s'
      | None => None
      end
  end.

(** A string is an array index when it is the canonical decimal form of an
    integer below 2^32 - 1. *)
Definition array_index (s : string) : option nat :=
  match s with
  | EmptyString => None
  | _ =>
      match parse_digits 0 s with
      | Some n =>
          if decide (pretty n = s ∧ (n < 2 ^ 32 - 1)%N)
          then Some (N.to_nat n) else None
      | None => None
      end
  end.

(** What a key addresses in an array: an element, the length, or a named
    property. *)
Inductive array_prop :=
| PIndex (i : nat)
| PLength
| PName (s : string).

#[global] Instance array_prop_eq_dec : EqDecision array_prop.
Proof. solve_decision. Defined.

Definition array_prop_of (k : key) : array_prop :=
  match k with
  | KNum z =>
      if decide (0 ≤ z < 2 ^ 32 - 1) then PIndex (Z.to_nat z)
      else PName (pretty z)
  | KStr s =>
      match array_index s with
      | Some i => PIndex i
      | None => if decide (s = "length") then PLength else PName s
      end
  end.

(** ** Fields of an object *)

Fixpoint field_lookup (s : string) (fs : list (string * value)) : option value :=
  match fs with
  | [] => None
  | (s', v) :: fs' => if decide (s' = s) then Some v else field_lookup s fs'
  end.

Fixpoint field_insert (s : string) (v : value) (fs : list (string * value))
  : list (string * value) :=
  match fs with
  | [] => [(s, v)]
  | (s', v') :: fs' =>
      if decide (s' = s) then (s, v) :: fs' else (s', v') :: field_insert s v fs'
  end.

Fixpoint field_delete (s : string) (fs : list (string * value))
  : list (string * value) :=
  match fs with
  | [] => []
  | (s', v') :: fs' =>
      if decide (s' = s) then field_delete s fs' else (s', v') :: field_delete s fs'
  end.

(** ** Elementary operations of the host on objects *)

(** [key in o], decided on the own properties of [o]: what the host answers
    for every key that is an own property and for every plain key
    ([plain_key], defined with the statements).  The prototype chain is not
    modelled. *)
Definition obj_has (o : object) (k : key) : bool :=
  match o with
  | OObj fs => bool_decide (is_Some (field_lookup (key_to_string k) fs))
  | OArr es ns =>
      match array_prop_of k with
      | PIndex i => match es !! i with Some (Some _) => true | _ => false end
      | PLength => true
      | PName s => bool_decide (is_Some (field_lookup s ns))
      end
  end.

(** [o[key]], read from the own properties of [o]: what the host returns for
    every key that is an own property, and [undefined] for every plain key
    that is not. *)
Definition obj_get (o : object) (k : key) : value :=
  match o with
  | OObj fs => default VUndef (field_lookup (key_to_string k) fs)
  | OArr es ns =>
      match array_prop_of k with
      | PIndex i => match es !! i with Some (Some v) => v | _ => VUndef end
      | PLength => VNum (Z.of_nat (length es))
      | PName s => default VUndef (field_lookup s ns)
      end
  end.

(** [s[key]] on a string primitive, for the own properties of a string and
    for plain keys: a character, the length, or nothing. *)
Definition string_get (s : string) (k : key) : value :=
  match array_prop_of k with
  | PIndex i =>
      match String.get i s with
      | Some c => VStr (String c EmptyString)
      | None => VUndef
      end
  | PLength => VNum (Z.of_nat (String.length s))
  | PName _ => VUndef
  end.

(** Writing an element of an array extends it with holes when needed. *)
Definition elems_set (i : nat) (v : value) (es : list (option value))
  : list (option value) :=
  if decide (i < length es)%nat then <[i := Some v]> es
  else es ++ replicate (i - length es) None ++ [Some v].

(** Setting the length of an array truncates it or extends it with holes. *)
Definition elems_resize (n : nat) (es : list (option value))
  : list (option value) :=
  take n es ++ replicate (n - length es) None.

(** [es.splice(start, 1)] for an integer [start]. *)
Definition splice_one (start : Z) (es : list (option value))
  : list (option value) :=
  let len := Z.of_nat (length es) in
  let from := if decide (start < 0) then Z.max (len + start) 0 else Z.min start len in
  let count := Z.min (Z.max 1 0) (len - from) in
  take (Z.to_nat from) es ++ drop (Z.to_nat (from + count)) es.

(** [[...es]]: the elements read one by one; a hole reads as [undefined]. *)
Definition spread (es : list (option value)) : list (option value) :=
  map (λ e, Some (default VUndef e)) es.

(** ** Outcomes and the monad of the store *)

(** The failures raised by the host itself rather than by the library. *)
Inductive host_error :=
| InOperandNotObject (k : key) (v : value)
| AssignToNullish (k : key) (v : value)
| AssignToPrimitive (k : key) (v : value)
| ReadOfNullish (k : key) (v : value)
| InvalidArrayLength
| NotIterable (v : value).

(** A thrown value: [new Error(msg)], or an error of the host. *)
Inductive exn :=
| Err (msg : string)
| HostErr (e : host_error).

Inductive outcome (A : Type) :=
| Return (a : A)
| Throw (e : exn).
Arguments Return {A} a.
Arguments Throw {A} e.

(** A computation reads and updates the store; it returns normally, throws,
    or is stuck ([None]) when it follows a reference to nowhere or the copy
    runs out of fuel.  Neither happens in a well-formed store. *)
Definition M (A : Type) : Type := heap → option (outcome A * heap).

Definition ret {A} (a : A) : M A := λ h, Some (Return a, h).
Definition throw {A} (e : exn) : M A := λ h, Some (Throw e, h).
Definition stuck {A} : M A := λ _, None.
Definition bind {A B} (c : M A) (k : A → M B) : M B :=
  λ h, match c h with
       | Some (Return a, h') => k a h'
       | Some (Throw e, h') => Some (Throw e, h')
       | None => None
       end.

Declare Scope M_scope.
Delimit Scope M_scope with M.
Notation "'let*' x ':=' c 'in' k" := (bind c (λ x, k))
  (at level 10, x name, c at level 100, k at level 200) : M_scope.
Notation "c ';;;' k" := (bind c (λ _, k))
  (at level 100, k at level 200, right associativity) : M_scope.

Definition alloc (o : object) : M loc := λ h, Some (Return (length h), h ++ [o]).
Definition load (l : loc) : M object :=
  λ h, match h !! l with Some o => Some (Return o, h) | None => None end.
Definition store (l : loc) (o : object) : M unit :=
  λ h, match h !! l with Some _ => Some (Return tt, <[l := o]> h) | None => None end.

(** ** [structuredClone] *)

(** The copy keeps a table from the containers met so far to their copies, so
    that sharing and cycles are preserved, as the host's algorithm does. *)
Section traverse.
Context (f : value → gmap loc loc → heap → option (value * gmap loc loc * heap)).

Fixpoint clone_elems (es : list (option value)) (m : gmap loc loc) (h : heap)
  : option (list (option value) * gmap loc loc * heap) :=
  match es with
  | [] => Some ([], m, h)
  | None :: es' =>
      match clone_elems es' m h with
      | Some (r, m', h') => Some (None :: r, m', h')
      | None => None
      end
  | Some v :: es' =>
      match f v m h with
      | Some (v', m1, h1) =>
          match clone_elems es' m1 h1 with
          | Some (r, m2, h2) => Some (Some v' :: r, m2, h2)
          | None => None
          end
      | None => None
      end
  end.

Fixpoint clone_fields (fs : list (string * value)) (m : gmap loc loc) (h : heap)
  : option (list (string * value) * gmap loc loc * heap) :=
  match fs with
  | [] => Some ([], m, h)
  | (s, v) :: fs' =>
      match f v m h with
      | Some (v', m1, h1) =>
          match clone_fields fs' m1 h1 with
          | Some (r, m2, h2) => Some ((s, v') :: r, m2, h2)
          | None => None
          end
      | None => None
      end
  end.
End traverse.

Definition blank (o : object) : object :=
  match o with
  | OArr _ _ => OArr [] []
  | OObj _ => OObj []
  end.

Fixpoint clone_value (fuel : nat) (v : value) (m : gmap loc loc) (h : heap)
  : option (value * gmap loc loc * heap) :=
  match v with
  | VRef l =>
      match m !! l with
      | Some l' => Some (VRef l', m, h)
      | None =>
          match fuel with
          | O => None
          | S fuel' =>
              match h !! l with
              | None => None
              | Some o =>
                  let l' := length h in
                  let m1 := <[l := l']> m in
                  let h1 := h ++ [blank o] in
                  match o with
                  | OArr es ns =>
                      match clone_elems (clone_value fuel') es m1 h1 with
                      | Some (es', m2, h2) =>
                          match clone_fields (clone_value fuel') ns m2 h2 with
                          | Some (ns', m3, h3) =>
                              Some (VRef l', m3, <[l' := OArr es' ns']> h3)
                          | None => None
                          end
                      | None => None
                      end
                  | OObj fs =>
                      match clone_fields (clone_value fuel') fs m1 h1 with
                      | Some (fs', m2, h2) =>
                          Some (VRef l', m2, <[l' := OObj fs']> h2)
                      | None => None
                      end
                  end
              end
          end
      end
  | _ => Some (v, m, h)
  end.

(** [JsonMasonUtils.clone].  No more containers can be met than the store
    holds, which bounds the depth of the copy. *)
Definition clone (source : value) : M value :=
  λ h, match clone_value (length h) source ∅ h with
       | Some (v, _, h') => Some (Return v, h')
       | None => None
       end.

(** ** Properties of values *)

Local Open Scope M_scope.

(** [Array.isArray(v)] *)
Definition is_array (v : value) : M bool :=
  match v with
  | VRef l =>
      let* o := load l in
      ret (match o with OArr _ _ => true | OObj _ => false end)
  | _ => ret false
  end.

(** [typeof v === "string"] *)
Definition is_string (v : value) : bool :=
  match v with VStr _ => true | _ => false end.

(** [v == null] *)
Definition is_nullish (v : value) : bool :=
  match v with VUndef | VNull => true | _ => false end.

(** [typeof key === "number"] *)
Definition is_number_key (k : key) : bool :=
  match k with KNum _ => true | KStr _ => false end.

(** [key in current]: a [TypeError] unless [current] is an object. *)
Definition has_property (k : key) (current : value) : M bool :=
  match current with
  | VRef l => let* o := load l in ret (obj_has o k)
  | _ => throw (HostErr (InOperandNotObject k current))
  end.

(** [current[key]] *)
Definition get_property (current : value) (k : key) : M value :=
  match current with
  | VRef l => let* o := load l in ret (obj_get o k)
  | VStr s => ret (string_get s k)
  | VNum _ | VBool _ => ret VUndef
  | VUndef | VNull => throw (HostErr (ReadOfNullish k current))
  end.

Section engine.

(** Two things are the host's business and stay abstract: the text of its
    own error messages, and how it converts a string or an object to an
    array length when a write targets [length]. *)
Variable host_message : host_error → string.
Variable convert_length : heap → value → host_error + nat.

(** [error.message] *)
Definition message (e : exn) : string :=
  match e with
  | Err msg => msg
  | HostErr e => host_message e
  end.

Definition array_length_of (h : heap) (v : value) : host_error + nat :=
  match v with
  | VNum z =>
      if decide (0 ≤ z < 2 ^ 32) then inr (Z.to_nat z)
      else inl InvalidArrayLength
  | VNull => inr 0%nat
  | VBool b => inr (if b then 1%nat else 0%nat)
  | VUndef => inl InvalidArrayLength
  | VStr _ | VRef _ => convert_length h v
  end.

(** [o[key] = v], as an assignment to an own property of [o]: what the host
    does for every key that is an own property and for every plain key. *)
Definition obj_set (h : heap) (o : object) (k : key) (v : value)
  : host_error + object :=
  match o with
  | OObj fs => inr (OObj (field_insert (key_to_string k) v fs))
  | OArr es ns =>
      match array_prop_of k with
      | PIndex i => inr (OArr (elems_set i v es) ns)
      | PLength =>
          match array_length_of h v with
          | inr n => inr (OArr (elems_resize n es) ns)
          | inl e => inl e
          end
      | PName s => inr (OArr es (field_insert s v ns))
      end
  end.

(** [current[key] = v] in strict-mode code: a [TypeError] on every
    primitive. *)
Definition set_property (current : value) (k : key) (v : value) : M unit :=
  match current with
  | VRef l =>
      let* o := load l in
      λ h, match obj_set h o k v with
           | inr o' => store l o' h
           | inl e => throw (HostErr e) h
           end
  | VUndef | VNull => throw (HostErr (AssignToNullish k current))
  | _ => throw (HostErr (AssignToPrimitive k current))
  end.

(** ** [JsonMasonUtils] *)

Fixpoint get (obj : value) (path : list key) : M value :=
  match path with
  | [] => ret obj
  | k :: path' =>
      if is_nullish obj then ret VUndef
      else let* current := get_property obj k in get current path'
  end.

(** The loop of [set] and the assignment that follows it: [key] is
    [path[i]] and [rest] holds the keys after it. *)
Fixpoint set_walk (current : value) (k : key) (rest : list key)
    (v : value) : M unit :=
  match rest with
  | [] => set_property current k v
  | nextKey :: rest' =>
      let* present := has_property k current in
      (if present then ret tt
       else let* c := alloc (if is_number_key nextKey then OArr [] [] else OObj []) in
            set_property current k (VRef c)) ;;;
      let* next := get_property current k in
      set_walk next nextKey rest' v
  end.

Definition set (obj : value) (path : list key) (v : value) : M value :=
  match path with
  | [] => ret v
  | k :: rest =>
      let* result := clone obj in
      set_walk result k rest v ;;;
      ret result
  end.

Definition validateArray (v : value) (path : list key) : M unit :=
  let* a := is_array v in
  if a then ret tt
  else throw (Err ("Target at path " +:+ join "." path +:+ " is not an array")).

Definition validateString (v : value) (path : list key) : M unit :=
  if is_string v then ret tt
  else throw (Err ("Target at path " +:+ join "." path +:+ " is not a string")).

Definition validateAppendable (v : value) (path : list key) : M unit :=
  let* a := is_array v in
  if negb a && negb (is_string v)
  then throw (Err ("Target at path " +:+ join "." path +:+ " is not an array or string"))
  else ret tt.

(** ** [JsonMason] *)

(** The action tag of an operation.  The type [Operation] admits the first
    four; [AOther] stands for any other tag a caller may force in. *)
Inductive action :=
| ASet
| AAppend
| APrepend
| ADelete
| AOther (tag : string).

Record Operation := {
  path : list key;
  action_of : action;
  value_of : value;
}.

Record OperationError := {
  index : nat;
  operation : Operation;
  reason : string;
}.

Record Config := { strict : option bool }.

(** The instance state: the errors of the last [apply]. *)
Record JsonMason := { errors : list OperationError }.

Definition getErrors (this : JsonMason) : list OperationError := errors this.

(** The value that [append] and [prepend] write back: the part of
    [executeOperation] that computes [newValue] from [current]. *)
Definition new_value (act : action) (current v : value) : M value :=
  match current with
  | VStr s =>
      match v with
      | VStr t => ret (VStr (match act with AAppend => s +:+ t | _ => t +:+ s end))
      | _ => throw (Err "Can only append/prepend strings to strings")
      end
  | VRef l =>
      let* o := load l in
      match o with
      | OArr es _ =>
          let* a := alloc (OArr (match act with
                                 | AAppend => spread es ++ [Some v]
                                 | _ => Some v :: spread es
                                 end) []) in
          ret (VRef a)
      | OObj _ => throw (HostErr (NotIterable current))
      end
  | _ => throw (HostErr (NotIterable current))
  end.

(** The removal proper of [delete]: the part of [executeOperation] that
    branches on the shape of [target]. *)
Definition remove_key (target : value) (k : key) (parentPath : list key) : M unit :=
  match target with
  | VRef l =>
      let* o := load l in
      match o with
      | OArr es ns =>
          match k with
          | KNum z => store l (OArr (splice_one z es) ns)
          | KStr s => throw (Err ("Invalid array index: " +:+ s))
          end
      | OObj fs => store l (OObj (field_delete (key_to_string k) fs))
      end
  | _ => throw (Err ("Cannot delete from non-object at " +:+ join "." parentPath))
  end.

Definition executeOperation (source : value) (operation : Operation) : M value :=
  let path := path operation in
  let v := value_of operation in
  match action_of operation with
  | ASet => set source path v
  | ADelete =>
      match last path with
      | None => throw (Err "Cannot delete root object")
      | Some k =>
          let* result := clone source in
          let parentPath := removelast path in
          let* target :=
            (match parentPath with
             | [] => ret result
             | _ => get result parentPath
             end) in
          if is_nullish target
          then throw (Err ("Parent path " +:+ join "." parentPath +:+ " does not exist"))
          else remove_key target k parentPath ;;; ret result
      end
  | AAppend | APrepend =>
      let* current := get source path in
      validateAppendable current path ;;;
      let* newValue := new_value (action_of operation) current v in
      set source path newValue
  | AOther tag => throw (Err ("Unknown operation: " +:+ tag))
  end.

Fixpoint apply_loop (strict : bool) (source : value) (i : nat)
    (operations : list Operation) (result : value) (this : JsonMason) (h : heap)
  : option (outcome value * JsonMason * heap) :=
  match operations with
  | [] => Some (Return result, this, h)
  | operation :: rest =>
      match executeOperation result operation h with
      | None => None
      | Some (Return result', h') =>
          apply_loop strict source (S i) rest result' this h'
      | Some (Throw error, h') =>
          let operationError :=
            {| index := i; operation := operation; reason := message error |} in
          if strict
          then Some (Throw (Err (reason operationError)), this, h')
          else Some (Return source,
                     {| errors := errors this ++ [operationError] |}, h')
      end
  end.

Definition apply (this : JsonMason) (source : value)
    (operations : list Operation) (config : option Config) (h : heap)
  : option (outcome value * JsonMason * heap) :=
  let strict := default true (config ≫= strict) in
  let this := {| errors := [] |} in
  match clone source h with
  | None => None
  | Some (Throw e, h') => Some (Throw e, this, h')
  | Some (Return result, h') => apply_loop strict source 0 operations result this h'
  end.


(** ** Well-formed stores *)

(** A predicate on the references a value holds; a primitive satisfies it. *)
Definition val_refs (R : loc → Prop) (v : value) : Prop :=
  match v with
  | VRef l => R l
  | _ => True
  end.

Definition elems_all (Q : value → Prop) (es : list (option value)) : Prop :=
  Forall (from_option Q True) es.

Definition fields_all (Q : value → Prop) (fs : list (string * value)) : Prop :=
  Forall (λ f, Q f.2) fs.

(** Every value stored in the object satisfies [Q]. *)
Definition obj_all (Q : value → Prop) (o : object) : Prop :=
  match o with
  | OArr es ns => elems_all Q es ∧ fields_all Q ns
  | OObj fs => fields_all Q fs
  end.

(** The value points into a store of [n] objects. *)
Definition val_ok (n : nat) : value → Prop := val_refs (λ l, (l < n)%nat).

(** No object of the store holds a reference to nowhere. *)
Definition heap_ok (h : heap) : Prop := Forall (obj_all (val_ok (length h))) h.

(** The value is a primitive or a container allocated at [n0] or later. *)
Definition val_above (n0 : nat) : value → Prop := val_refs (λ l, (n0 ≤ l)%nat).

(** The objects allocated at [n0] or later only refer to one another. *)
Definition closed_above (n0 : nat) (h : heap) : Prop :=
  ∀ l o, (n0 ≤ l)%nat → h !! l = Some o → obj_all (val_above n0) o.

(** The store [h2] extends [h1] and agrees with it below [n0]. *)
Definition frame (n0 : nat) (h1 h2 : heap) : Prop :=
  take n0 h2 = take n0 h1 ∧ (length h1 ≤ length h2)%nat.

#[global] Instance val_refs_dec R `{∀ l, Decision (R l)} v : Decision (val_refs R v).
Proof. destruct v; simpl; apply _. Defined.
#[global] Instance val_ok_dec n v : Decision (val_ok n v).
Proof. unfold val_ok. apply _. Defined.
#[global] Instance from_option_dec {A} (Q : A → Prop) `{∀ a, Decision (Q a)}
  (T : Prop) `{Decision T} (o : option A) : Decision (from_option Q T o).
Proof. destruct o; simpl; apply _. Defined.
#[global] Instance obj_all_dec Q `{∀ v, Decision (Q v)} o : Decision (obj_all Q o).
Proof. destruct o; simpl; unfold elems_all, fields_all; apply _. Defined.
#[global] Instance heap_ok_dec h : Decision (heap_ok h).
Proof. unfold heap_ok. apply _. Defined.

(** ** Structural equality *)

(** The document a value denotes, unfolded to a given depth: containers are
    replaced by their contents and lose their identity. *)
Inductive tree :=
| TCut
| TLeaf (v : value)
| TArr (elems : list (option tree)) (named : list (string * tree))
| TObj (fields : list (string * tree)).

Fixpoint unfold (n : nat) (h : heap) (v : value) : tree :=
  match v with
  | VRef l =>
      match n with
      | O => TCut
      | S n' =>
          match h !! l with
          | Some (OArr es ns) =>
              TArr (map (option_map (unfold n' h)) es)
                   (map (prod_map id (unfold n' h)) ns)
          | Some (OObj fs) => TObj (map (prod_map id (unfold n' h)) fs)
          | None => TLeaf v
          end
      end
  | _ => TLeaf v
  end.

(** Two documents are structurally equal when they unfold alike to every
    depth. *)
Definition same_document (h : heap) (v : value) (h' : heap) (v' : value) : Prop :=
  ∀ n, unfold n h v = unfold n h' v'.

(** ** The copy as a renaming *)

(** [v'] is [v] with its reference renamed by [m]. *)
Definition val_rel (m : gmap loc loc) (v v' : value) : Prop :=
  match v with
  | VRef l => ∃ l', v' = VRef l' ∧ m !! l = Some l'
  | _ => v' = v
  end.

Definition elems_rel (m : gmap loc loc) : list (option value) → list (option value) → Prop :=
  Forall2 (option_Forall2 (val_rel m)).

Definition fields_rel (m : gmap loc loc) : list (string * value) → list (string * value) → Prop :=
  Forall2 (λ f f', f.1 = f'.1 ∧ val_rel m f.2 f'.2).

Definition obj_rel (m : gmap loc loc) (o o' : object) : Prop :=
  match o, o' with
  | OArr es ns, OArr es' ns' => elems_rel m es es' ∧ fields_rel m ns ns'
  | OObj fs, OObj fs' => fields_rel m fs fs'
  | _, _ => False
  end.

(** The state of a copy in progress: [h0] is the store it started from, [m]
    the table of copies, [P] the containers whose copy is still being filled. *)
Record cinv (h0 : heap) (P : loc → Prop) (m : gmap loc loc) (h : heap) : Prop := {
  ci_prefix : h0 `prefix_of` h;
  ci_dom : ∀ l l', m !! l = Some l' →
           (l < length h0)%nat ∧ (length h0 ≤ l')%nat ∧ (l' < length h)%nat;
  ci_surj : ∀ l', (length h0 ≤ l')%nat → (l' < length h)%nat → ∃ l, m !! l = Some l';
  ci_inj : ∀ l1 l2 l', m !! l1 = Some l' → m !! l2 = Some l' → l1 = l2;
  ci_done : ∀ l l', m !! l = Some l' → ¬ P l →
            ∃ o o', h0 !! l = Some o ∧ h !! l' = Some o' ∧ obj_rel m o o';
}.

(** [m] renames the containers of [h] to copies allocated beyond [h] in [h']. *)
Definition renaming (m : gmap loc loc) (h h' : heap) : Prop :=
  cinv h (λ _, False) m h'.

(** What one step of the copy started from [h0] guarantees, for whatever is
    pending: it returns, keeps the invariant and extends the table. *)
Definition cspec (h0 : heap) (fuel : nat)
    (f : value → gmap loc loc → heap → option (value * gmap loc loc * heap)) : Prop :=
  ∀ P v m h,
    cinv h0 P m h → val_ok (length h0) v → (length h0 ≤ size m + fuel)%nat →
    ∃ v' m' h', f v m h = Some (v', m', h') ∧ cinv h0 P m' h' ∧ m ⊆ m' ∧
                val_rel m' v v'.

(** ** Reasoning about computations *)

(** [wp c h Q]: run from [h], the computation [c] is not stuck and its
    outcome and final store satisfy [Q]. *)
Definition wp {A} (c : M A) (h : heap) (Q : outcome A → heap → Prop) : Prop :=
  ∃ r h', c h = Some (r, h') ∧ Q r h'.

(** A predicate every primitive satisfies. *)
Definition on_refs (Q : value → Prop) : Prop :=
  ∀ v, (∀ l, v ≠ VRef l) → Q v.

(** Except for the slots that hold [v], the objects allocated at [n0] or
    later only refer to one another. *)
Definition closed_but (n0 : nat) (v : value) (h : heap) : Prop :=
  ∀ l o, (n0 ≤ l)%nat → h !! l = Some o → obj_all (λ x, val_above n0 x ∨ x = v) o.

(** What every operation guarantees, whether it returns or throws: the
    store it started from is a prefix of the store it ends in, which is
    well formed. *)
Definition op_post (h : heap) (r : outcome value) (h' : heap) : Prop :=
  h `prefix_of` h' ∧ heap_ok h' ∧
  match r with
  | Return res => val_ok (length h') res
  | Throw _ => True
  end.

(** ** Batches *)

(** The operations of a batch, run in order on the running result with no
    policy on failures: what the loop of [apply] does while nothing throws. *)
Fixpoint run_all (operations : list Operation) (result : value) : M value :=
  match operations with
  | [] => ret result
  | operation :: rest =>
      let* result' := executeOperation result operation in
      run_all rest result'
  end.

(** The operation at index [k] is the first of the batch to fail: started
    from the copy of [source], the operations before it return and it
    throws [e], leaving the store [h']. *)
Definition first_failure (source : value) (operations : list Operation)
    (h : heap) (k : nat) (operation : Operation) (e : exn) (h' : heap) : Prop :=
  operations !! k = Some operation ∧
  ∃ result h1,
    bind (clone source) (run_all (take k operations)) h = Some (Return result, h1) ∧
    executeOperation result operation h1 = Some (Throw e, h').


(** ** Materialisation *)

(** The container that [set] creates for a missing node and then fills
    under the key [k]: a sequence when [k] is a number, a map otherwise. *)
Definition singleton_for (k : key) (child : value) : object :=
  match k with
  | KNum z =>
      match array_prop_of k with
      | PIndex i => OArr (replicate i None ++ [Some child]) []
      | _ => OArr [] [(pretty z, child)]
      end
  | KStr s => OObj [(s, child)]
  end.

(** [node] is the chain of containers materialised for [keys], ending in
    [v]. *)
Fixpoint materialised (h : heap) (node : value) (keys : list key) (v : value)
  : Prop :=
  match keys with
  | [] => node = v
  | k :: keys' =>
      ∃ l child, node = VRef l ∧ h !! l = Some (singleton_for k child) ∧
                 materialised h child keys' v
  end.

(** The nodes that [set] descends through, read in the document before the
    call: each one that exists is a container, and the last key is not the
    length of a sequence. *)
Fixpoint writable (h : heap) (current : value) (k : key) (rest : list key)
  : bool :=
  match current with
  | VRef l =>
      match h !! l with
      | Some o =>
          match rest with
          | [] =>
              match o, array_prop_of k with
              | OArr _ _, PLength => false
              | _, _ => true
              end
          | nextKey :: rest' =>
              if obj_has o k then writable h (obj_get o k) nextKey rest'
              else true
          end
      | None => false
      end
  | _ => false
  end.

(** ** Failures of the library *)

(** The failures that the library raises itself, with what their messages
    mention. *)
Inductive failure :=
| NotArray (path : list key)
| NotString (path : list key)
| NotAppendable (path : list key)
| TypeMismatch
| RootDeletion
| MissingParent (parentPath : list key)
| InvalidIndex (k : string)
| NotContainer (parentPath : list key)
| UnknownOperation (tag : string).

(** The message of each failure, as the source writes it. *)
Definition failure_message (f : failure) : string :=
  match f with
  | NotArray path => "Target at path " +:+ join "." path +:+ " is not an array"
  | NotString path => "Target at path " +:+ join "." path +:+ " is not a string"
  | NotAppendable path =>
      "Target at path " +:+ join "." path +:+ " is not an array or string"
  | TypeMismatch => "Can only append/prepend strings to strings"
  | RootDeletion => "Cannot delete root object"
  | MissingParent parentPath =>
      "Parent path " +:+ join "." parentPath +:+ " does not exist"
  | InvalidIndex k => "Invalid array index: " +:+ k
  | NotContainer parentPath =>
      "Cannot delete from non-object at " +:+ join "." parentPath
  | UnknownOperation tag => "Unknown operation: " +:+ tag
  end.

Inductive failure_kind :=
| KindNotArray
| KindNotString
| KindNotAppendable
| KindTypeMismatch
| KindRootDeletion
| KindMissingParent
| KindInvalidIndex
| KindNotContainer
| KindUnknownOperation.

Definition kind_of (f : failure) : failure_kind :=
  match f with
  | NotArray _ => KindNotArray
  | NotString _ => KindNotString
  | NotAppendable _ => KindNotAppendable
  | TypeMismatch => KindTypeMismatch
  | RootDeletion => KindRootDeletion
  | MissingParent _ => KindMissingParent
  | InvalidIndex _ => KindInvalidIndex
  | NotContainer _ => KindNotContainer
  | UnknownOperation _ => KindUnknownOperation
  end.

(** The failure [f] belongs to the operation: it is a failure of its action
    and mentions its path, its parent path or its last key. *)
Definition failure_of (operation : Operation) (f : failure) : Prop :=
  match f with
  | NotAppendable p =>
      p = path operation ∧
      (action_of operation = AAppend ∨ action_of operation = APrepend)
  | TypeMismatch =>
      action_of operation = AAppend ∨ action_of operation = APrepend
  | RootDeletion => path operation = [] ∧ action_of operation = ADelete
  | MissingParent p | NotContainer p =>
      p = removelast (path operation) ∧ action_of operation = ADelete
  | InvalidIndex k =>
      last (path operation) = Some (KStr k) ∧ action_of operation = ADelete
  | UnknownOperation tag => action_of operation = AOther tag
  | NotArray _ | NotString _ => False
  end.


(** ** Reading back what was written *)

(** The two keys address the same property of the object. *)
Definition same_prop (o : object) (k k2 : key) : bool :=
  match o with
  | OObj _ => bool_decide (key_to_string k = key_to_string k2)
  | OArr _ _ => bool_decide (array_prop_of k = array_prop_of k2)
  end.

(** The write does not target the length of a sequence. *)
Definition not_length (o : object) (k : key) : Prop :=
  match o, array_prop_of k with
  | OArr _ _, PLength => False
  | _, _ => True
  end.

(** From [g] to [g'] every property that holds a container other than [old]
    still holds that container. *)
Definition keeps_refs (old : value) (g g' : heap) : Prop :=
  ∀ a o k2 r, g !! a = Some o → obj_get o k2 = VRef r → VRef r ≠ old →
    ∃ o', g' !! a = Some o' ∧ obj_get o' k2 = VRef r.

(** The container [old], found at the end of the path, is not met before the
    end of the path: it is not an ancestor of itself.  This holds of every
    document without cycles, and of every [old] that is not a container. *)
Definition not_on_path (h : heap) (obj : value) (path : list key) (old : value)
  : Prop :=
  ∀ l j, old = VRef l → (1 ≤ j)%nat → (j < length path)%nat →
    get obj (take j path) h ≠ Some (Return (VRef l), h).


(** ** Concrete documents *)

(** A host for the examples: its messages, and a conversion to array lengths
    that accepts no string and no object. *)
Definition demo_host_message (e : host_error) : string :=
  match e with
  | InvalidArrayLength => "Invalid array length"
  | _ => "TypeError"
  end.

Definition demo_convert_length (h : heap) (v : value) : host_error + nat :=
  inl InvalidArrayLength.


Definition append_list : Operation :=
  {| path := [KStr "list"]; action_of := AAppend; value_of := VStr "b" |}.



(** [{items: {}}] at location 1, and the operation of the specification's
    scenario C. *)
Definition store_map_items : heap := [OObj []; OObj [("items", VRef 0%nat)]].

Definition append_x : Operation :=
  {| path := [KStr "items"]; action_of := AAppend; value_of := VStr "x" |}.

Definition store_map_items_failed : heap :=
  [OObj []; OObj [("items", VRef 0%nat)]; OObj [("items", VRef 3%nat)]; OObj []].

(** An instance that still holds an error of an earlier call. *)
Definition stale : JsonMason :=
  {| errors := [{| index := 7; operation := append_list; reason := "stale" |}] |}.

(** [{test: true}] at location 0. *)
Definition store_test : heap := [OObj [("test", VBool true)]].

(** [{user: {name: "John"}}] at location 1. *)
Definition store_user : heap :=
  [OObj [("name", VStr "John")]; OObj [("user", VRef 0%nat)]].

Definition delete_age : Operation :=
  {| path := [KStr "user"] ++ [KStr "age"]; action_of := ADelete;
     value_of := VUndef |}.

(** [{user: {name: "John", tags: ["user"]}}] at location 2: the document of
    the specification's scenario A. *)
Definition store_tags : heap :=
  [OArr [Some (VStr "user")] [];
   OObj [("name", VStr "John"); ("tags", VRef 0%nat)];
   OObj [("user", VRef 1%nat)]].

Definition set_name : Operation :=
  {| path := [KStr "user"; KStr "name"]; action_of := ASet;
     value_of := VStr "Jane" |}.

Definition store_user_renamed : heap :=
  [OObj [("name", VStr "John")]; OObj [("user", VRef 0%nat)];
   OObj [("user", VRef 3%nat)]; OObj [("name", VStr "Jane")]].

(** [{items: [{a: 1}]}] at location 2. *)
Definition store_nested : heap :=
  [OObj [("a", VNum 1)]; OArr [Some (VRef 0%nat)] [];
   OObj [("items", VRef 1%nat)]].

Definition store_nested_appended : heap :=
  [OObj [("a", VNum 1)]; OArr [Some (VRef 0%nat)] [];
   OObj [("items", VRef 1%nat)];
   OArr [Some (VRef 0%nat); Some (VStr "x")] [];
   OObj [("items", VRef 3%nat)]; OArr [Some (VRef 6%nat)] [];
   OObj [("a", VNum 1)]].

(** A write whose value is the sequence [items] of the document above. *)
Definition set_copy : Operation :=
  {| path := [KStr "copy"]; action_of := ASet; value_of := VRef 1%nat |}.

Definition store_nested_copied : heap :=
  [OObj [("a", VNum 1)]; OArr [Some (VRef 0%nat)] [];
   OObj [("items", VRef 1%nat)];
   OObj [("items", VRef 4%nat)]; OArr [Some (VRef 5%nat)] [];
   OObj [("a", VNum 1)];
   OObj [("items", VRef 7%nat); ("copy", VRef 1%nat)];
   OArr [Some (VRef 8%nat)] []; OObj [("a", VNum 1)]].

(** [{a: "John"}] at location 0. *)
Definition store_scalar : heap := [OObj [("a", VStr "John")]].

(** [{title: "Hello"}] at location 0. *)
Definition store_title : heap := [OObj [("title", VStr "Hello")]].

Definition append_number : Operation :=
  {| path := [KStr "title"]; action_of := AAppend; value_of := VNum 42 |}.

(** [{s: "abc"}] at location 0. *)
Definition store_text : heap := [OObj [("s", VStr "abc")]].

(** [{a: 5}] at location 0. *)
Definition store_count : heap := [OObj [("a", VNum 5)]].


(** ** Keys that no prototype defines *)

(** The string-named properties that ECMAScript 2024, with its Annex B,
    defines on [Object.prototype], [Array.prototype], [String.prototype],
    [Number.prototype] and [Boolean.prototype]: what [key in o] and
    [o[key]] find on every map, sequence or primitive that has no property
    of its own under that name. *)
Definition prototype_names : list string :=
  [ (* Object.prototype *)
    "constructor"; "hasOwnProperty"; "isPrototypeOf"; "propertyIsEnumerable";
    "toLocaleString"; "toString"; "valueOf"; "__proto__";
    "__defineGetter__"; "__defineSetter__"; "__lookupGetter__";
    "__lookupSetter__";
    (* Array.prototype *)
    "at"; "concat"; "copyWithin"; "entries"; "every"; "fill"; "filter";
    "find"; "findIndex"; "findLast"; "findLastIndex"; "flat"; "flatMap";
    "forEach"; "includes"; "indexOf"; "join"; "keys"; "lastIndexOf"; "map";
    "pop"; "push"; "reduce"; "reduceRight"; "reverse"; "shift"; "slice";
    "some"; "sort"; "splice"; "toReversed"; "toSorted"; "toSpliced";
    "unshift"; "values"; "with";
    (* String.prototype *)
    "charAt"; "charCodeAt"; "codePointAt"; "endsWith"; "isWellFormed";
    "localeCompare"; "match"; "matchAll"; "normalize"; "padEnd"; "padStart";
    "repeat"; "replace"; "replaceAll"; "search"; "split"; "startsWith";
    "substring"; "toLocaleLowerCase"; "toLocaleUpperCase"; "toLowerCase";
    "toUpperCase"; "toWellFormed"; "trim"; "trimEnd"; "trimStart";
    "substr"; "anchor"; "big"; "blink"; "bold"; "fixed"; "fontcolor";
    "fontsize"; "italics"; "link"; "small"; "strike"; "sub"; "sup";
    "trimLeft"; "trimRight";
    (* Number.prototype *)
    "toExponential"; "toFixed"; "toPrecision" ].

(** A plain key names no such property.  On plain keys the own properties
    of a value are all that the host finds, which is what [obj_has],
    [obj_get] and [obj_set] compute; a number is always plain, since no
    prototype has a property named by digits. *)
Definition plain_key (k : key) : bool :=
  match k with
  | KNum _ => true
  | KStr s => negb (existsb (String.eqb s) prototype_names)
  end.

Definition plain_path (path : list key) : bool := forallb plain_key path.

(** ** Where [set] cannot write *)

(** The nodes that [set] descends through, read in the document before the
    call: a node that exists, or the document itself, is a primitive, [null]
    or [undefined] where a container is needed. *)
Fixpoint blocked (h : heap) (current : value) (k : key) (rest : list key)
  : bool :=
  match current with
  | VRef l =>
      match h !! l, rest with
      | Some o, nextKey :: rest' =>
          if obj_has o k then blocked h (obj_get o k) nextKey rest' else false
      | _, _ => false
      end
  | _ => true
  end.

(** ** Paths and copies *)

(** The container [c], found at the end of the path, is not met before the
    end of the path.  This holds of every document without cycles. *)
Definition first_reached (h : heap) (obj : value) (path : list key) (c : loc)
  : Prop :=
  ∀ j, (j < length path)%nat →
    get obj (take j path) h ≠ Some (Return (VRef c), h).

(** An element of the original and the element that stands for it in the
    copy: a hole or a primitive is itself, a container is a container
    allocated at [n0] or later. *)
Definition copied_elem (n0 : nat) (e e' : option value) : Prop :=
  match e with
  | Some (VRef _) => ∃ l', e' = Some (VRef l') ∧ (n0 ≤ l')%nat
  | _ => e' = e
  end.

(** A field of the original and the field that stands for it in the copy. *)
Definition copied_field (n0 : nat) (f f' : string * value) : Prop :=
  f.1 = f'.1 ∧ copied_elem n0 (Some f.2) (Some f'.2).

(** The store after [apply] has copied [store_user] and [set_name] has
    run on the copy: the result is at location 4. *)
Definition store_user_set_name : heap :=
  [OObj [("name", VStr "John")]; OObj [("user", VRef 0%nat)];
   OObj [("user", VRef 3%nat)]; OObj [("name", VStr "John")];
   OObj [("user", VRef 5%nat)]; OObj [("name", VStr "Jane")]].


  (** * Lemmas on the store *)



Lemma prefix_take_iff {A} (l1 l2 : list A) :
  l1 `prefix_of` l2 ↔ take (length l1) l2 = l1.
Proof.
  split.
  - intros [k ->]. by rewrite take_app_length.
  - intros <-. apply prefix_take.
Qed.

Lemma prefix_insert_ge {A} (l1 l2 : list A) i x :
  l1 `prefix_of` l2 → (length l1 ≤ i)%nat → l1 `prefix_of` <[i := x]> l2.
Proof.
  rewrite !prefix_take_iff. intros H ?. by rewrite take_insert_ge.
Qed.

Lemma val_rel_mono m m' v v' : m ⊆ m' → val_rel m v v' → val_rel m' v v'.
Proof.
  intros Hsub. destruct v; simpl; try done.
  intros (l' & -> & Hl). exists l'. split; [done|]. by eapply lookup_weaken.
Qed.

Lemma elems_rel_mono m m' es es' : m ⊆ m' → elems_rel m es es' → elems_rel m' es es'.
Proof.
  intros Hsub H. unfold elems_rel. eapply Forall2_impl; [exact H|].
  intros ?? [??|]; constructor. by eapply val_rel_mono.
Qed.

Lemma fields_rel_mono m m' fs fs' : m ⊆ m' → fields_rel m fs fs' → fields_rel m' fs fs'.
Proof.
  intros Hsub H. unfold fields_rel. eapply Forall2_impl; [exact H|].
  intros ?? [??]. split; [done|]. by eapply val_rel_mono.
Qed.

Lemma obj_rel_mono m m' o o' : m ⊆ m' → obj_rel m o o' → obj_rel m' o o'.
Proof.
  intros Hsub. destruct o, o'; simpl; try done.
  - intros [??]. split; [by eapply elems_rel_mono | by eapply fields_rel_mono].
  - by apply fields_rel_mono.
Qed.

Lemma memo_size_bound (m : gmap loc loc) (n : nat) :
  (∀ l l', m !! l = Some l' → (l < n)%nat) → (size m ≤ n)%nat.
Proof.
  intros Hdom.
  rewrite <-(size_dom (D := gset loc)).
  rewrite <-(size_set_seq (C := gset nat) 0 n).
  apply subseteq_size. intros l [l' Hl]%elem_of_dom.
  apply elem_of_set_seq. specialize (Hdom _ _ Hl). lia.
Qed.

Lemma memo_size_fresh (m : gmap loc loc) (n : nat) l :
  (∀ l l', m !! l = Some l' → (l < n)%nat) → m !! l = None → (l < n)%nat →
  (size m < n)%nat.
Proof.
  intros Hdom Hl Hlt.
  assert (size (<[l := 0%nat]> m) ≤ n)%nat as Hs.
  { apply memo_size_bound. intros a a'. rewrite lookup_insert.
    case_decide; [naive_solver|]. apply Hdom. }
  rewrite map_size_insert_None in Hs by done. lia.
Qed.

(** * The copy *)

Section clone_spec.
Variable h0 : heap.
Hypothesis Hok : heap_ok h0.


Lemma clone_elems_spec fuel f :
  cspec h0 fuel f →
  ∀ es P m h,
    cinv h0 P m h → elems_all (val_ok (length h0)) es →
    (length h0 ≤ size m + fuel)%nat →
    ∃ es' m' h', clone_elems f es m h = Some (es', m', h') ∧ cinv h0 P m' h' ∧
                 m ⊆ m' ∧ elems_rel m' es es'.
Proof.
  intros Hf. induction es as [|[v|] es IH]; intros P m h Hinv Hes Hfuel; simpl;
    unfold elems_all in *.
  - exists [], m, h. split_and!; [done..|]. apply Forall2_nil_2.
  - apply Forall_cons_1 in Hes as [Hv Hes]. simpl in Hv.
    destruct (Hf P v m h Hinv Hv Hfuel) as (v' & m1 & h1 & -> & Hinv1 & Hsub1 & Hrel1).
    destruct (IH P m1 h1 Hinv1 Hes) as (r & m2 & h2 & -> & Hinv2 & Hsub2 & Hrel2).
    { apply map_subseteq_size in Hsub1. lia. }
    exists (Some v' :: r), m2, h2. split_and!; [done..|by etrans|].
    apply Forall2_cons_2; [|done]. constructor. by eapply val_rel_mono.
  - apply Forall_cons_1 in Hes as [_ Hes].
    destruct (IH P m h Hinv Hes Hfuel) as (r & m2 & h2 & -> & Hinv2 & Hsub2 & Hrel2).
    exists (None :: r), m2, h2. split_and!; [done..|].
    apply Forall2_cons_2; [constructor|done].
Qed.

Lemma clone_fields_spec fuel f :
  cspec h0 fuel f →
  ∀ fs P m h,
    cinv h0 P m h → fields_all (val_ok (length h0)) fs →
    (length h0 ≤ size m + fuel)%nat →
    ∃ fs' m' h', clone_fields f fs m h = Some (fs', m', h') ∧ cinv h0 P m' h' ∧
                 m ⊆ m' ∧ fields_rel m' fs fs'.
Proof.
  intros Hf. induction fs as [|[s v] fs IH]; intros P m h Hinv Hfs Hfuel; simpl;
    unfold fields_all in *.
  - exists [], m, h. split_and!; [done..|]. apply Forall2_nil_2.
  - apply Forall_cons_1 in Hfs as [Hv Hfs]. simpl in Hv.
    destruct (Hf P v m h Hinv Hv Hfuel) as (v' & m1 & h1 & -> & Hinv1 & Hsub1 & Hrel1).
    destruct (IH P m1 h1 Hinv1 Hfs) as (r & m2 & h2 & -> & Hinv2 & Hsub2 & Hrel2).
    { apply map_subseteq_size in Hsub1. lia. }
    exists ((s, v') :: r), m2, h2. split_and!; [done..|by etrans|].
    apply Forall2_cons_2; [|done]. split; [done|]. by eapply val_rel_mono.
Qed.

(** Entering a container: its blank copy is allocated and recorded. *)
Lemma cinv_enter P m h l o :
  cinv h0 P m h → m !! l = None → (l < length h0)%nat →
  cinv h0 (λ a, P a ∨ a = l) (<[l := length h]> m) (h ++ [blank o]).
Proof.
  intros [Hpre Hdom Hsurj Hinj Hdone] Hl Hlt.
  pose proof (prefix_length _ _ Hpre) as Hlen.
  split.
  - by apply prefix_app_r.
  - intros a a'. rewrite lookup_insert, length_app. simpl.
    case_decide; [intros [= <-]; subst; lia|].
    intros Ha. specialize (Hdom _ _ Ha). lia.
  - intros a'. rewrite length_app. simpl. intros ??.
    destruct (decide (a' = length h)) as [->|].
    + exists l. by rewrite lookup_insert_eq.
    + destruct (Hsurj a') as [a Ha]; [lia..|]. exists a.
      rewrite lookup_insert_ne; [done|]. intros ->. congruence.
  - intros a1 a2 a'. rewrite !lookup_insert.
    repeat case_decide; subst; try done.
    + intros [= <-] Ha. apply Hdom in Ha. lia.
    + intros Ha [= <-]. apply Hdom in Ha. lia.
    + apply Hinj.
  - intros a a' Ha Hnp.
    rewrite lookup_insert in Ha. case_decide; [subst; tauto|].
    destruct (Hdone a a' Ha) as (o1 & o1' & ? & ? & ?); [tauto|].
    exists o1, o1'. split_and!; [done| |].
    + rewrite lookup_app_l; [done|]. apply Hdom in Ha. lia.
    + eapply obj_rel_mono; [|done]. by apply insert_subseteq.
Qed.

(** Leaving a container: its copy is filled in. *)
Lemma cinv_leave P m h l l' o o' :
  cinv h0 (λ a, P a ∨ a = l) m h → m !! l = Some l' → h0 !! l = Some o →
  obj_rel m o o' →
  cinv h0 P m (<[l' := o']> h).
Proof.
  intros [Hpre Hdom Hsurj Hinj Hdone] Hl Ho Hrel.
  split.
  - apply prefix_insert_ge; [done|]. apply Hdom in Hl. lia.
  - intros a a' Ha. rewrite length_insert. by apply Hdom.
  - intros a'. rewrite length_insert. apply Hsurj.
  - done.
  - intros a a' Ha Hnp. destruct (decide (a = l)) as [->|Hne].
    + assert (a' = l') as -> by congruence.
      exists o, o'. split_and!; [done| |done].
      apply list_lookup_insert_eq. apply Hdom in Hl. lia.
    + destruct (Hdone a a' Ha) as (o1 & o1' & ? & ? & ?); [tauto|].
      exists o1, o1'. split_and!; [done| |done].
      rewrite list_lookup_insert_ne; [done|].
      intros ->. apply Hne. by eapply Hinj.
Qed.

Lemma clone_value_spec fuel : cspec h0 fuel (clone_value fuel).
Proof.
  induction fuel as [|fuel IH]; intros P v m h Hinv Hv Hfuel.
  - destruct v; simpl; try by (eexists _, _, _; split_and!; [done..|done]).
    destruct (m !! l) as [l'|] eqn:Hl.
    + exists (VRef l'), m, h. split_and!; [done..|]. by exists l'.
    + exfalso. simpl in Hv.
      assert (size m < length h0)%nat; [|lia].
      apply (memo_size_fresh m (length h0) l); [|done..].
      intros a a' Ha. by apply (ci_dom _ _ _ _ Hinv) in Ha as [? _].
  - destruct v; simpl; try by (eexists _, _, _; split_and!; [done..|done]).
    destruct (m !! l) as [l'|] eqn:Hl.
    { exists (VRef l'), m, h. split_and!; [done..|]. by exists l'. }
    simpl in Hv.
    destruct (lookup_lt_is_Some_2 h0 l Hv) as [o Ho].
    assert (h !! l = Some o) as ->.
    { eapply prefix_lookup_Some; [done|]. apply Hinv. }
    pose proof (cinv_enter P m h l o Hinv Hl Hv) as Hinv1.
    assert (obj_all (val_ok (length h0)) o) as Hoall.
    { eapply Forall_lookup_1 in Hok; [|done]. done. }
    assert (length h0 ≤ size (<[l := length h]> m) + fuel)%nat as Hfuel1.
    { rewrite map_size_insert_None by done. lia. }
    assert (m ⊆ <[l := length h]> m) as Hsub0 by by apply insert_subseteq.
    destruct o as [es ns|fs]; simpl in Hoall.
    + destruct Hoall as [Hes Hns].
      destruct (clone_elems_spec fuel _ IH es _ _ _ Hinv1 Hes Hfuel1)
        as (es' & m2 & h2 & -> & Hinv2 & Hsub2 & Hrel2).
      destruct (clone_fields_spec fuel _ IH ns _ _ _ Hinv2 Hns)
        as (ns' & m3 & h3 & -> & Hinv3 & Hsub3 & Hrel3).
      { apply map_subseteq_size in Hsub2. lia. }
      assert (m3 !! l = Some (length h)) as Hl3.
      { apply (lookup_weaken (<[l := length h]> m)); [apply lookup_insert_eq|].
        by etrans. }
      exists (VRef (length h)), m3, (<[length h := OArr es' ns']> h3).
      split_and!; [done| |by do 2 etrans|by eexists].
      eapply cinv_leave; [done..|]. simpl. split; [|done].
      by eapply elems_rel_mono.
    + destruct (clone_fields_spec fuel _ IH fs _ _ _ Hinv1 Hoall Hfuel1)
        as (fs' & m2 & h2 & -> & Hinv2 & Hsub2 & Hrel2).
      assert (m2 !! l = Some (length h)) as Hl2.
      { by apply (lookup_weaken (<[l := length h]> m)); [apply lookup_insert_eq|]. }
      exists (VRef (length h)), m2, (<[length h := OObj fs']> h2).
      split_and!; [done| |by etrans|by eexists].
      eapply cinv_leave; [done..|]. done.
Qed.

End clone_spec.

(** [clone] always returns, and its result is a renaming of the source. *)
Lemma clone_renaming h v :
  heap_ok h → val_ok (length h) v →
  ∃ v' m h', clone v h = Some (Return v', h') ∧ renaming m h h' ∧ val_rel m v v'.
Proof.
  intros Hok Hv. unfold clone.
  destruct (clone_value_spec h Hok (length h) (λ _, False) v ∅ h)
    as (v' & m & h' & -> & Hinv & _ & Hrel); [|done|lia|].
  { split.
    - done.
    - intros ??. by rewrite lookup_empty.
    - intros. lia.
    - intros ???. by rewrite lookup_empty.
    - intros ??. by rewrite lookup_empty. }
  by exists v', m, h'.
Qed.

(** * Reasoning about computations *)


Lemma wp_elim {A} (c : M A) h Q r h' :
  wp c h Q → c h = Some (r, h') → Q r h'.
Proof. intros (r0 & h0' & Hc & HQ) Hc'. congruence. Qed.

Lemma wp_intro {A} (c : M A) h (Q : outcome A → heap → Prop) r h' :
  c h = Some (r, h') → Q r h' → wp c h Q.
Proof. intros. by exists r, h'. Qed.

Lemma wp_mono {A} (c : M A) h (Q Q' : outcome A → heap → Prop) :
  wp c h Q → (∀ r h', Q r h' → Q' r h') → wp c h Q'.
Proof. intros (r & h' & ? & ?) HQ. exists r, h'. auto. Qed.

Lemma wp_ret {A} (a : A) h (Q : outcome A → heap → Prop) :
  Q (Return a) h → wp (ret a) h Q.
Proof. intros. by exists (Return a), h. Qed.

Lemma wp_throw {A} e h (Q : outcome A → heap → Prop) :
  Q (Throw e) h → wp (throw e) h Q.
Proof. intros. by exists (Throw e), h. Qed.

Lemma wp_bind {A B} (c : M A) (k : A → M B) h (Q : outcome B → heap → Prop) :
  wp c h (λ r h1, match r with
                  | Return a => wp (k a) h1 Q
                  | Throw e => Q (Throw e) h1
                  end) →
  wp (bind c k) h Q.
Proof.
  intros (r & h1 & Hc & Hk). unfold wp, bind. rewrite Hc.
  destruct r as [a|e]; [done|]. by exists (Throw e), h1.
Qed.

Lemma wp_alloc o h (Q : outcome loc → heap → Prop) :
  Q (Return (length h)) (h ++ [o]) → wp (alloc o) h Q.
Proof. intros. by exists (Return (length h)), (h ++ [o]). Qed.

Lemma wp_load l o h (Q : outcome object → heap → Prop) :
  h !! l = Some o → Q (Return o) h → wp (load l) h Q.
Proof. intros Hl ?. exists (Return o), h. unfold load. by rewrite Hl. Qed.

Lemma wp_store l o h (Q : outcome unit → heap → Prop) :
  (l < length h)%nat → Q (Return tt) (<[l := o]> h) → wp (store l o) h Q.
Proof.
  intros [o0 Hl]%lookup_lt_is_Some_2 ?. exists (Return tt), (<[l := o]> h).
  unfold store. by rewrite Hl.
Qed.

Lemma bind_Some {A B} (c : M A) (k : A → M B) h r h' :
  bind c k h = Some (r, h') →
  (∃ a h1, c h = Some (Return a, h1) ∧ k a h1 = Some (r, h')) ∨
  (∃ e, c h = Some (Throw e, h') ∧ r = Throw e).
Proof.
  unfold bind. destruct (c h) as [[[a|e] h1]|]; [|intros [= <- <-]|done].
  - intros ?. left. by exists a, h1.
  - right. by exists e.
Qed.

Lemma bind_Return {A B} (c : M A) (k : A → M B) h a h1 :
  c h = Some (Return a, h1) → bind c k h = k a h1.
Proof. intros Hc. unfold bind. by rewrite Hc. Qed.

Lemma bind_Throw {A B} (c : M A) (k : A → M B) h e h1 :
  c h = Some (Throw e, h1) → bind c k h = Some (Throw e, h1).
Proof. intros Hc. unfold bind. by rewrite Hc. Qed.

(** * Values under a predicate on references *)

Lemma val_refs_impl (R R' : loc → Prop) v :
  (∀ l, R l → R' l) → val_refs R v → val_refs R' v.
Proof. destruct v; simpl; auto. Qed.

Lemma elems_all_impl (Q Q' : value → Prop) es :
  (∀ v, Q v → Q' v) → elems_all Q es → elems_all Q' es.
Proof.
  intros HQ H. unfold elems_all. eapply Forall_impl; [exact H|].
  intros [v|]; simpl; auto.
Qed.

Lemma fields_all_impl (Q Q' : value → Prop) fs :
  (∀ v, Q v → Q' v) → fields_all Q fs → fields_all Q' fs.
Proof.
  intros HQ H. unfold fields_all. eapply Forall_impl; [exact H|]. simpl. auto.
Qed.

Lemma obj_all_impl (Q Q' : value → Prop) o :
  (∀ v, Q v → Q' v) → obj_all Q o → obj_all Q' o.
Proof.
  intros HQ. destruct o; simpl.
  - intros [??]. split; [by eapply elems_all_impl | by eapply fields_all_impl].
  - by apply fields_all_impl.
Qed.

Lemma val_ok_mono n n' v : (n ≤ n')%nat → val_ok n v → val_ok n' v.
Proof. intros ?. apply val_refs_impl. intros. lia. Qed.


Lemma val_refs_on_refs R : on_refs (val_refs R).
Proof. intros [] H; simpl; try done. by destruct (H l). Qed.

Lemma field_lookup_all Q s fs v :
  fields_all Q fs → field_lookup s fs = Some v → Q v.
Proof.
  unfold fields_all. induction fs as [|[s' v'] fs IH]; simpl; [done|].
  intros [??]%Forall_cons_1. case_decide; [intros [= <-]; done|auto].
Qed.

Lemma field_insert_all Q s v fs :
  fields_all Q fs → Q v → fields_all Q (field_insert s v fs).
Proof.
  unfold fields_all. intros Hfs Hv. induction fs as [|[s' v'] fs IH]; simpl.
  - by constructor.
  - apply Forall_cons_1 in Hfs as [??]. case_decide; constructor; auto.
Qed.

Lemma field_delete_all Q s fs :
  fields_all Q fs → fields_all Q (field_delete s fs).
Proof.
  unfold fields_all. intros Hfs. induction fs as [|[s' v'] fs IH]; simpl; [done|].
  apply Forall_cons_1 in Hfs as [??]. case_decide; [auto|constructor; auto].
Qed.

Lemma elems_set_all Q i v es :
  elems_all Q es → Q v → elems_all Q (elems_set i v es).
Proof.
  unfold elems_all, elems_set. intros Hes Hv. case_decide.
  - by apply Forall_insert.
  - apply Forall_app. split; [done|]. apply Forall_app. split.
    + by apply Forall_replicate.
    + by constructor.
Qed.

Lemma elems_resize_all Q n es : elems_all Q es → elems_all Q (elems_resize n es).
Proof.
  unfold elems_all, elems_resize. intros Hes. apply Forall_app. split.
  - by apply Forall_take.
  - by apply Forall_replicate.
Qed.

Lemma splice_one_all Q z es : elems_all Q es → elems_all Q (splice_one z es).
Proof.
  unfold elems_all, splice_one. intros Hes. apply Forall_app. split.
  - by apply Forall_take.
  - by apply Forall_drop.
Qed.

Lemma spread_all Q es : Q VUndef → elems_all Q es → elems_all Q (spread es).
Proof.
  unfold elems_all, spread. intros HQ Hes. apply Forall_fmap.
  eapply Forall_impl; [done|]. by intros [x|].
Qed.

Lemma obj_get_all Q o k : on_refs Q → obj_all Q o → Q (obj_get o k).
Proof.
  intros HQ. assert (Q VUndef) as Hu by by apply HQ.
  destruct o as [es ns|fs]; simpl.
  - intros [Hes Hns]. destruct (array_prop_of k) as [i| |s].
    + destruct (es !! i) as [[v|]|] eqn:Hi; try done.
      by eapply Forall_lookup_1 in Hes; [|done].
    + by apply HQ.
    + destruct (field_lookup s ns) eqn:Hs; [|done]. by eapply field_lookup_all.
  - intros Hfs.
    destruct (field_lookup _ fs) eqn:Hs; [|done]. by eapply field_lookup_all.
Qed.

Lemma obj_set_all Q h o k v o' :
  obj_all Q o → Q v → obj_set h o k v = inr o' → obj_all Q o'.
Proof.
  destruct o as [es ns|fs]; simpl.
  - intros [Hes Hns] Hv. destruct (array_prop_of k) as [i| |s].
    + intros [= <-]. split; [by apply elems_set_all|done].
    + destruct (array_length_of h v); [done|]. intros [= <-].
      split; [by apply elems_resize_all|done].
    + intros [= <-]. split; [done|by apply field_insert_all].
  - intros Hfs Hv [= <-]. by apply field_insert_all.
Qed.

(** * Well-formed stores under allocation and update *)

Lemma heap_ok_lookup h l o :
  heap_ok h → h !! l = Some o → obj_all (val_ok (length h)) o.
Proof. intros Hok Hl. by eapply Forall_lookup_1 in Hok. Qed.

Lemma heap_ok_alloc h o :
  heap_ok h → obj_all (val_ok (length h)) o → heap_ok (h ++ [o]).
Proof.
  intros Hok Ho. unfold heap_ok. rewrite length_app. simpl.
  apply Forall_app. split.
  - eapply Forall_impl; [done|]. intros o'. apply obj_all_impl.
    intros v. apply val_ok_mono. lia.
  - constructor; [|done]. eapply obj_all_impl; [|done].
    intros v. apply val_ok_mono. lia.
Qed.

Lemma heap_ok_store h l o :
  heap_ok h → obj_all (val_ok (length h)) o → heap_ok (<[l := o]> h).
Proof.
  intros Hok Ho. unfold heap_ok. rewrite length_insert.
  by apply Forall_insert.
Qed.

Lemma closed_above_alloc n0 h o :
  closed_above n0 h → obj_all (val_above n0) o → closed_above n0 (h ++ [o]).
Proof.
  intros Hcl Ho l o' Hl. rewrite lookup_app.
  destruct (h !! l) eqn:Hhl.
  - intros [= <-]. by eapply Hcl.
  - destruct (l - length h)%nat; simpl; [|done]. by intros [= <-].
Qed.

Lemma closed_above_store n0 h l o :
  closed_above n0 h → obj_all (val_above n0) o → closed_above n0 (<[l := o]> h).
Proof.
  intros Hcl Ho a o' Ha. destruct (decide (a = l)) as [->|].
  - intros Hl. assert (o' = o) as ->; [|done].
    apply lookup_lt_Some in Hl as Hlt. rewrite length_insert in Hlt.
    rewrite list_lookup_insert_eq in Hl by done. congruence.
  - rewrite list_lookup_insert_ne by done. by apply Hcl.
Qed.

Lemma frame_refl n0 h : frame n0 h h.
Proof. by split. Qed.

Lemma frame_trans n0 h1 h2 h3 : frame n0 h1 h2 → frame n0 h2 h3 → frame n0 h1 h3.
Proof. intros [??] [??]. split; [congruence|lia]. Qed.

Lemma frame_alloc n0 h o : (n0 ≤ length h)%nat → frame n0 h (h ++ [o]).
Proof.
  intros ?. split; [by rewrite take_app_le|rewrite length_app; lia].
Qed.

Lemma frame_store n0 h l o : (n0 ≤ l)%nat → frame n0 h (<[l := o]> h).
Proof.
  intros ?. split; [by rewrite take_insert_ge|by rewrite length_insert].
Qed.

Lemma frame_prefix h h' : frame (length h) h h' → h `prefix_of` h'.
Proof.
  intros [Ht ?]. rewrite firstn_all in Ht. rewrite <-Ht. apply prefix_take.
Qed.

Lemma prefix_frame h h' : h `prefix_of` h' → frame (length h) h h'.
Proof.
  intros Hp. split; [|by apply prefix_length].
  rewrite firstn_all. by apply prefix_take_iff.
Qed.

(** * What a renaming preserves *)

Lemma val_rel_prim m v v' : (∀ l, v ≠ VRef l) → val_rel m v v' → v' = v.
Proof. destruct v; simpl; try done. intros H. by destruct (H l). Qed.

Lemma val_rel_undef m : val_rel m VUndef VUndef.
Proof. done. Qed.

Lemma val_rel_nullish m v v' : val_rel m v v' → is_nullish v' = is_nullish v.
Proof. destruct v; simpl; try by intros ->. by intros (? & -> & _). Qed.

Lemma val_rel_string m v v' : val_rel m v v' → is_string v' = is_string v.
Proof. destruct v; simpl; try by intros ->. by intros (? & -> & _). Qed.

Lemma field_lookup_rel m s fs fs' :
  fields_rel m fs fs' →
  option_Forall2 (val_rel m) (field_lookup s fs) (field_lookup s fs').
Proof.
  induction 1 as [|[s1 v1] [s2 v2] fs fs' [Hs Hv] _ IH]; simpl in *.
  - constructor.
  - subst. case_decide; [by constructor|done].
Qed.

Lemma field_insert_rel m s v v' fs fs' :
  fields_rel m fs fs' → val_rel m v v' →
  fields_rel m (field_insert s v fs) (field_insert s v' fs').
Proof.
  intros Hfs Hv. induction Hfs as [|[s1 v1] [s2 v2] fs fs' [Hs Hv1] Hfs IH];
    simpl in *.
  - by repeat constructor.
  - subst. case_decide; by constructor.
Qed.

Lemma field_delete_rel m s fs fs' :
  fields_rel m fs fs' → fields_rel m (field_delete s fs) (field_delete s fs').
Proof.
  induction 1 as [|[s1 v1] [s2 v2] fs fs' [Hs Hv1] Hfs IH]; simpl in *.
  - constructor.
  - subst. case_decide; [done|by constructor].
Qed.

Lemma elems_lookup_rel m i es es' :
  elems_rel m es es' →
  option_Forall2 (option_Forall2 (val_rel m)) (es !! i) (es' !! i).
Proof. intros Hes. by apply Forall2_lookup. Qed.

Lemma obj_has_rel m o o' k : obj_rel m o o' → obj_has o' k = obj_has o k.
Proof.
  destruct o as [es ns|fs], o' as [es' ns'|fs']; simpl; try done.
  - intros [Hes Hns]. destruct (array_prop_of k) as [i| |s]; [|done|].
    + destruct (elems_lookup_rel m i _ _ Hes) as [?? []|]; done.
    + by destruct (field_lookup_rel m s _ _ Hns).
  - intros Hfs. by destruct (field_lookup_rel m (key_to_string k) _ _ Hfs).
Qed.

Lemma obj_get_rel m o o' k :
  obj_rel m o o' → val_rel m (obj_get o k) (obj_get o' k).
Proof.
  destruct o as [es ns|fs], o' as [es' ns'|fs']; simpl; try done.
  - intros [Hes Hns]. destruct (array_prop_of k) as [i| |s].
    + destruct (elems_lookup_rel m i _ _ Hes) as [?? []|]; done.
    + apply Forall2_length in Hes. simpl. by rewrite Hes.
    + by destruct (field_lookup_rel m s _ _ Hns).
  - intros Hfs. by destruct (field_lookup_rel m (key_to_string k) _ _ Hfs).
Qed.

Section renaming_facts.
Context (m : gmap loc loc) (h h' : heap).
Hypothesis Hok : heap_ok h.
Hypothesis Hren : renaming m h h'.

Lemma renaming_prefix : h `prefix_of` h'.
Proof. apply Hren. Qed.

Lemma renaming_lookup l l' :
  m !! l = Some l' →
  (l < length h)%nat ∧ (length h ≤ l')%nat ∧ (l' < length h')%nat ∧
  ∃ o o', h !! l = Some o ∧ h' !! l' = Some o' ∧ obj_rel m o o'.
Proof.
  intros Hl. destruct (ci_dom _ _ _ _ Hren _ _ Hl) as (? & ? & ?).
  split_and!; [done..|]. apply (ci_done _ _ _ _ Hren); [done|]. by intros [].
Qed.

Lemma val_rel_fresh v v' :
  val_rel m v v' → val_above (length h) v' ∧ val_ok (length h') v'.
Proof.
  destruct v; simpl; try by intros ->.
  intros (l' & -> & Hl). apply renaming_lookup in Hl. simpl. lia.
Qed.

Lemma obj_rel_fresh o o' :
  obj_rel m o o' →
  obj_all (val_above (length h)) o' ∧ obj_all (val_ok (length h')) o'.
Proof.
  assert (∀ fs fs', fields_rel m fs fs' →
    fields_all (val_above (length h)) fs' ∧ fields_all (val_ok (length h')) fs')
    as Hfields.
  { induction 1 as [|[??] [??] ?? [_ Hv] _ [??]]; [by split; constructor|].
    apply val_rel_fresh in Hv as [??]. by split; constructor. }
  assert (∀ es es', elems_rel m es es' →
    elems_all (val_above (length h)) es' ∧ elems_all (val_ok (length h')) es')
    as Helems.
  { induction 1 as [|?? ?? Hv _ [??]]; [by split; constructor|].
    destruct Hv as [?? Hv|]; [|by split; constructor].
    apply val_rel_fresh in Hv as [??]. by split; constructor. }
  destruct o, o'; simpl; try done.
  - intros [[??]%Helems [??]%Hfields]. done.
  - apply Hfields.
Qed.

Lemma renaming_closed : closed_above (length h) h'.
Proof.
  intros l' o' Hl' Ho'.
  destruct (ci_surj _ _ _ _ Hren l') as [l Hl]; [done|by eapply lookup_lt_Some|].
  apply renaming_lookup in Hl as (_ & _ & _ & o & o2 & _ & Ho2 & Hrel).
  assert (o2 = o') as -> by congruence. by apply obj_rel_fresh in Hrel as [??].
Qed.

Lemma renaming_heap_ok : heap_ok h'.
Proof.
  pose proof (prefix_length _ _ renaming_prefix) as Hlen.
  apply Forall_lookup_2. intros l' o' Ho'.
  destruct (decide (l' < length h)%nat) as [Hlt|Hge].
  - destruct (lookup_lt_is_Some_2 h l' Hlt) as [o Ho].
    rewrite (prefix_lookup_Some _ _ _ _ Ho renaming_prefix) in Ho'.
    injection Ho' as <-. eapply obj_all_impl; [|by eapply heap_ok_lookup].
    intros v. by apply val_ok_mono.
  - destruct (ci_surj _ _ _ _ Hren l') as [l Hl]; [lia|by eapply lookup_lt_Some|].
    apply renaming_lookup in Hl as (_ & _ & _ & o & o2 & _ & Ho2 & Hrel).
    assert (o2 = o') as -> by congruence. by apply obj_rel_fresh in Hrel as [??].
Qed.

(** A value of the old store denotes the same document in the new one. *)
Lemma unfold_prefix n v :
  val_ok (length h) v → unfold n h' v = unfold n h v.
Proof.
  revert v. induction n as [|n IH]; intros [] Hv; simpl; try done.
  simpl in Hv. destruct (lookup_lt_is_Some_2 h l Hv) as [o Ho].
  rewrite Ho, (prefix_lookup_Some _ _ _ _ Ho renaming_prefix).
  apply heap_ok_lookup in Ho; [|done].
  assert (∀ fs, fields_all (val_ok (length h)) fs →
    map (prod_map id (unfold n h')) fs = map (prod_map id (unfold n h)) fs)
    as Hfields.
  { intros fs Hfs. apply map_ext_Forall. eapply Forall_impl; [exact Hfs|].
    intros [s v] ?. unfold prod_map. simpl. f_equal. by apply IH. }
  destruct o as [es ns|fs]; simpl in Ho.
  - destruct Ho as [Hes Hns]. f_equal; [|by apply Hfields].
    apply map_ext_Forall. eapply Forall_impl; [exact Hes|].
    intros [v|] ?; simpl; [|done]. f_equal. by apply IH.
  - f_equal. by apply Hfields.
Qed.

(** The copy denotes the same document as the source. *)
Lemma unfold_renaming n v v' :
  val_rel m v v' → unfold n h' v' = unfold n h v.
Proof.
  revert v v'. induction n as [|n IH]; intros v v' Hv.
  - destruct v; simpl in *; try by subst. by destruct Hv as (? & -> & _).
  - destruct v; simpl in Hv; try by subst.
    destruct Hv as (l' & -> & Hl). simpl.
    apply renaming_lookup in Hl as (_ & _ & _ & o & o' & -> & -> & Hrel).
    assert (∀ fs fs', fields_rel m fs fs' →
      map (prod_map id (unfold n h')) fs' = map (prod_map id (unfold n h)) fs)
      as Hfields.
    { induction 1 as [|[??] [??] ?? [? Hv] _ ?]; simpl in *; [done|].
      subst. f_equal; [|done]. unfold prod_map. simpl. f_equal. by apply IH. }
    destruct o as [es ns|fs], o' as [es' ns'|fs']; simpl in Hrel; try done.
    + destruct Hrel as [Hes Hns]. f_equal; [|by apply Hfields].
      induction Hes as [|?? ?? Hv _ ?]; simpl; [done|]. f_equal; [|done].
      destruct Hv; simpl; [|done]. f_equal. by apply IH.
    + f_equal. by apply Hfields.
Qed.

Lemma same_document_renaming v v' :
  val_ok (length h) v → val_rel m v v' → same_document h v h' v'.
Proof. intros ?? n. symmetry. by apply unfold_renaming. Qed.

End renaming_facts.

(** * Reading *)

Lemma wp_clone v h (Q : outcome value → heap → Prop) :
  heap_ok h → val_ok (length h) v →
  (∀ v' m h', renaming m h h' → val_rel m v v' → Q (Return v') h') →
  wp (clone v) h Q.
Proof.
  intros Hok Hv HQ.
  destruct (clone_renaming h v Hok Hv) as (v' & m & h' & Hc & Hren & Hrel).
  exists (Return v'), h'. split; [done|]. by eapply HQ.
Qed.

Lemma get_property_ref l o k h :
  h !! l = Some o → get_property (VRef l) k h = Some (Return (obj_get o k), h).
Proof. intros Hl. simpl. unfold bind, load. by rewrite Hl. Qed.

Lemma has_property_ref l o k h :
  h !! l = Some o → has_property k (VRef l) h = Some (Return (obj_has o k), h).
Proof. intros Hl. simpl. unfold bind, load. by rewrite Hl. Qed.

Lemma is_array_ref l o h :
  h !! l = Some o →
  is_array (VRef l) h
  = Some (Return (match o with OArr _ _ => true | OObj _ => false end), h).
Proof. intros Hl. simpl. unfold bind, load. by rewrite Hl. Qed.

(** Reading a property of a value that is not nullish returns, and stays
    within any set of values closed under the store. *)
Lemma get_property_inv (Q : value → Prop) v k h :
  on_refs Q →
  (∀ l, Q (VRef l) → ∃ o, h !! l = Some o ∧ obj_all Q o) →
  Q v → is_nullish v = false →
  ∃ r, get_property v k h = Some (Return r, h) ∧ Q r.
Proof.
  intros HQ Hcl Hv Hn. destruct v; try done.
  - eexists. split; [done|]. by apply HQ.
  - eexists. split; [done|]. by apply HQ.
  - eexists. split; [done|]. apply HQ. intros l. unfold string_get.
    by repeat case_match.
  - destruct (Hcl l Hv) as (o & Hl & Ho). exists (obj_get o k).
    split; [by apply get_property_ref|]. by apply obj_get_all.
Qed.

Lemma get_inv (Q : value → Prop) path : ∀ v h,
  on_refs Q →
  (∀ l, Q (VRef l) → ∃ o, h !! l = Some o ∧ obj_all Q o) →
  Q v →
  ∃ r, get v path h = Some (Return r, h) ∧ Q r.
Proof.
  induction path as [|k path IH]; intros v h HQ Hcl Hv; simpl.
  - by exists v.
  - destruct (is_nullish v) eqn:Hn.
    + exists VUndef. split; [done|]. by apply HQ.
    + destruct (get_property_inv Q v k h HQ Hcl Hv Hn) as (r & Hr & HQr).
      destruct (IH r h HQ Hcl HQr) as (r' & Hr' & HQr').
      exists r'. split; [|done]. unfold bind. by rewrite Hr.
Qed.

Lemma heap_ok_closed h l :
  heap_ok h → val_ok (length h) (VRef l) →
  ∃ o, h !! l = Some o ∧ obj_all (val_ok (length h)) o.
Proof.
  intros Hok Hl. simpl in Hl. destruct (lookup_lt_is_Some_2 h l Hl) as [o Ho].
  exists o. split; [done|]. by eapply heap_ok_lookup.
Qed.

(** [get] neither fails nor changes the store. *)
Lemma get_total v path h :
  heap_ok h → val_ok (length h) v →
  ∃ r, get v path h = Some (Return r, h) ∧ val_ok (length h) r.
Proof.
  intros Hok Hv. apply get_inv; [apply val_refs_on_refs| |done].
  intros l. by apply heap_ok_closed.
Qed.

Lemma get_Some v path h r h' :
  heap_ok h → val_ok (length h) v → get v path h = Some (r, h') →
  h' = h ∧ ∃ x, r = Return x ∧ val_ok (length h) x.
Proof.
  intros Hok Hv Hg. destruct (get_total v path h Hok Hv) as (x & Hx & ?).
  rewrite Hx in Hg. injection Hg as <- <-. eauto.
Qed.

(** Reading in the copy follows reading in the source. *)
Lemma get_property_rel m h h' v v' k :
  heap_ok h → renaming m h h' → val_rel m v v' → is_nullish v = false →
  ∃ r r', get_property v k h = Some (Return r, h) ∧
          get_property v' k h' = Some (Return r', h') ∧ val_rel m r r'.
Proof.
  intros Hok Hren Hv Hn. destruct v; simpl in Hv; try done; subst.
  - by exists VUndef, VUndef.
  - by exists VUndef, VUndef.
  - exists (string_get s k), (string_get s k). split_and!; [done..|].
    unfold string_get. by repeat case_match.
  - destruct Hv as (l' & -> & Hl).
    apply (renaming_lookup m h h' Hren) in Hl as (_ & _ & _ & o & o' & Ho & Ho' & Hrel).
    exists (obj_get o k), (obj_get o' k).
    split_and!; [by apply get_property_ref..|by apply obj_get_rel].
Qed.

Lemma get_rel m h h' path : ∀ v v',
  heap_ok h → renaming m h h' → val_rel m v v' →
  ∃ r r', get v path h = Some (Return r, h) ∧
          get v' path h' = Some (Return r', h') ∧ val_rel m r r'.
Proof.
  induction path as [|k path IH]; intros v v' Hok Hren Hv; simpl.
  - by exists v, v'.
  - rewrite (val_rel_nullish m v v' Hv). destruct (is_nullish v) eqn:Hn.
    + by exists VUndef, VUndef.
    + destruct (get_property_rel m h h' v v' k Hok Hren Hv Hn)
        as (r & r' & Hr & Hr' & Hrel).
      destruct (IH r r' Hok Hren Hrel) as (x & x' & Hx & Hx' & Hxrel).
      exists x, x'. unfold bind. by rewrite Hr, Hr'.
Qed.

(** Primitives only lead to primitives. *)
Lemma get_prim v path h :
  (∀ l, v ≠ VRef l) →
  ∃ r, get v path h = Some (Return r, h) ∧ ∀ l, r ≠ VRef l.
Proof.
  intros Hv. apply (get_inv (λ x, ∀ l, x ≠ VRef l)); [by intros ?| |done].
  intros l Hl. by destruct (Hl l).
Qed.

Lemma get_cons_ref c o k rest g :
  g !! c = Some o → get (VRef c) (k :: rest) g = get (obj_get o k) rest g.
Proof.
  intros Hc. simpl. by rewrite (bind_Return _ _ _ _ _ (get_property_ref c o k g Hc)).
Qed.

(** Only a container leads to a container. *)
Lemma get_ref_from_ref v k rest h l :
  get v (k :: rest) h = Some (Return (VRef l), h) → ∃ c, v = VRef c.
Proof.
  intros Hget.
  assert ((∃ c, v = VRef c) ∨ ∀ c, v ≠ VRef c) as [|Hn]; [|done|].
  { destruct v; try (by right); left; by eexists. }
  destruct (get_prim v (k :: rest) h Hn) as (r & Hr & Hnr).
  rewrite Hr in Hget. injection Hget as ->. by destruct (Hnr l).
Qed.

(** * Writing *)

(** An assignment changes one object allocated at [n0] or later, and keeps
    every property of the stored values that the assigned value has. *)
Lemma set_property_wp n0 current k v h :
  heap_ok h → val_above n0 current → val_ok (length h) current →
  val_ok (length h) v →
  wp (set_property current k v) h (λ r h',
    frame n0 h h' ∧ heap_ok h' ∧ length h' = length h ∧
    (r = Return tt → ∃ l, current = VRef l) ∧
    ∀ Q : value → Prop, Q v →
      (∀ l o, (n0 ≤ l)%nat → h !! l = Some o → obj_all Q o) →
      (∀ l o, (n0 ≤ l)%nat → h' !! l = Some o → obj_all Q o)).
Proof.
  intros Hok Hab Hcur Hv.
  assert (∀ e, wp (throw (A := unit) e) h (λ r h',
    frame n0 h h' ∧ heap_ok h' ∧ length h' = length h ∧
    (r = Return tt → ∃ l, current = VRef l) ∧
    ∀ Q : value → Prop, Q v →
      (∀ l o, (n0 ≤ l)%nat → h !! l = Some o → obj_all Q o) →
      (∀ l o, (n0 ≤ l)%nat → h' !! l = Some o → obj_all Q o))) as Hthrow.
  { intros e. apply wp_throw. split_and!; [apply frame_refl|done..|auto]. }
  destruct current; simpl; try apply Hthrow.
  destruct (heap_ok_closed h l Hok Hcur) as (o & Hl & Ho).
  apply wp_bind, (wp_load l o); [done|].
  destruct (obj_set h o k v) as [e|o'] eqn:Hset.
  { unfold wp. rewrite Hset. apply Hthrow. }
  unfold wp. rewrite Hset. apply wp_store; [by eapply lookup_lt_Some|].
  split_and!.
  - by apply frame_store.
  - apply heap_ok_store; [done|]. by eapply obj_set_all.
  - by rewrite length_insert.
  - eauto.
  - intros Q HQv HQ a oa Ha. destruct (decide (a = l)) as [->|].
    + intros Hoa. assert (oa = o') as ->.
      { apply lookup_lt_Some in Hl. rewrite list_lookup_insert_eq in Hoa by done.
        congruence. }
      eapply obj_set_all; [|done..]. by eapply HQ.
    + rewrite list_lookup_insert_ne by done. by apply HQ.
Qed.


Lemma closed_above_but n0 v h : closed_above n0 h → closed_but n0 v h.
Proof.
  intros Hcl l o Hl Ho. eapply obj_all_impl; [|by eapply Hcl]. simpl. auto.
Qed.


(** The body of the loop of [set]: a missing container is materialised. *)
Lemma materialise_wp n0 l k nextKey (present : bool) h :
  heap_ok h → closed_above n0 h → (n0 ≤ length h)%nat →
  (n0 ≤ l)%nat → (l < length h)%nat →
  wp (if present then ret tt
      else bind (alloc (if is_number_key nextKey then OArr [] [] else OObj []))
                (λ c, set_property (VRef l) k (VRef c))) h
     (λ _ h', frame n0 h h' ∧ heap_ok h' ∧ closed_above n0 h').
Proof.
  intros Hok Hcl Hn0 Hl Hlt. destruct present.
  { apply wp_ret. split_and!; [apply frame_refl|done..]. }
  apply wp_bind, wp_alloc.
  set (o := if is_number_key nextKey then OArr [] [] else OObj []).
  assert (∀ Q, obj_all Q o) as Ho.
  { intros Q. unfold o. destruct (is_number_key nextKey); simpl;
      unfold elems_all, fields_all; auto. }
  assert (heap_ok (h ++ [o])) as Hok1 by by apply heap_ok_alloc.
  eapply wp_mono.
  { apply (set_property_wp n0); [done|done|..]; simpl; rewrite length_app; simpl; lia. }
  intros r h' (Hfr & Hok' & _ & _ & HQ). split_and!; [|done|].
  - eapply frame_trans; [by apply frame_alloc|done].
  - intros a oa. apply (HQ (val_above n0)); [simpl; lia|].
    by apply closed_above_alloc.
Qed.

Lemma set_walk_wp n0 rest : ∀ current k v h,
  heap_ok h → closed_above n0 h → (n0 ≤ length h)%nat →
  val_above n0 current → val_ok (length h) current → val_ok (length h) v →
  wp (set_walk current k rest v) h (λ r h',
    frame n0 h h' ∧ heap_ok h' ∧ closed_but n0 v h' ∧
    (r = Return tt → ∃ l, current = VRef l)).
Proof.
  induction rest as [|nextKey rest IH]; intros current k v h Hok Hcl Hn0 Hab Hcur Hv.
  - simpl. eapply wp_mono; [by apply (set_property_wp n0)|].
    intros r h' (Hfr & Hok' & _ & Href & HQ). split_and!; [done..| |done].
    intros a oa. apply (HQ (λ x, val_above n0 x ∨ x = v)); [by right|].
    by apply closed_above_but.
  - simpl. apply wp_bind.
    destruct current as [| | | | |l];
      try (apply wp_throw; split_and!;
           [apply frame_refl|done|by apply closed_above_but|done]).
    destruct (heap_ok_closed h l Hok Hcur) as (o & Hl & Ho).
    eapply wp_intro; [by apply has_property_ref|].
    simpl in Hab, Hcur.
    apply wp_bind. eapply wp_mono; [by apply (materialise_wp n0 l)|].
    intros r h1 (Hfr1 & Hok1 & Hcl1).
    assert (length h ≤ length h1)%nat as Hlen1 by apply Hfr1.
    destruct r as [[]|e].
    2: { split_and!; [done..|by apply closed_above_but|done]. }
    destruct (heap_ok_closed h1 l Hok1) as (o1 & Hl1 & Ho1); [simpl; lia|].
    apply wp_bind. eapply wp_intro; [by apply get_property_ref|].
    eapply wp_mono.
    { apply (IH (obj_get o1 k) nextKey v h1); [done|done|lia|..].
      - apply obj_get_all; [apply val_refs_on_refs|]. by eapply Hcl1.
      - apply obj_get_all; [apply val_refs_on_refs|done].
      - eapply val_ok_mono; [|done]. done. }
    intros r h' (Hfr & Hok' & Hcl' & _). split_and!; [|done|done|by eauto].
    by eapply frame_trans.
Qed.

(** [set] with a path that is not empty: a copy is edited and returned. *)
Lemma set_wp obj k rest v h :
  heap_ok h → val_ok (length h) obj → val_ok (length h) v →
  wp (set obj (k :: rest) v) h (λ r h',
    h `prefix_of` h' ∧ heap_ok h' ∧ closed_but (length h) v h' ∧
    match r with
    | Return res => ∃ l, res = VRef l ∧ (length h ≤ l)%nat ∧ (l < length h')%nat
    | Throw _ => True
    end).
Proof.
  intros Hok Hobj Hv. simpl. apply wp_bind, wp_clone; [done..|].
  intros res m h1 Hren Hrel.
  pose proof (renaming_prefix m h h1 Hren) as Hpre.
  pose proof (prefix_length _ _ Hpre) as Hlen.
  destruct (val_rel_fresh m h h1 Hren obj res Hrel) as [Hab Hres].
  apply wp_bind. eapply wp_mono.
  { apply (set_walk_wp (length h) rest res k v h1); [|
      by eapply renaming_closed|lia|done|done|by eapply val_ok_mono].
    by eapply renaming_heap_ok. }
  intros r h' (Hfr & Hok' & Hcl' & Href).
  assert (h `prefix_of` h') as Hpre'.
  { apply frame_prefix. eapply frame_trans; [by apply prefix_frame|done]. }
  destruct r as [[]|e]; [|done].
  apply wp_ret. split_and!; [done..|].
  destruct Href as [l ->]; [done|]. exists l. split; [done|].
  simpl in Hab, Hres. destruct Hfr as [_ ?]. lia.
Qed.

(** * One operation *)


Lemma op_post_refl h r :
  heap_ok h →
  match r with Return res => val_ok (length h) res | Throw _ => True end →
  op_post h r h.
Proof. intros. by split_and!. Qed.

Lemma op_post_trans h h1 r h' :
  h `prefix_of` h1 → op_post h1 r h' → op_post h r h'.
Proof. intros ? (? & ? & ?). split_and!; [by etrans|done..]. Qed.

Lemma set_op_post obj path v h :
  heap_ok h → val_ok (length h) obj → val_ok (length h) v →
  wp (set obj path v) h (op_post h).
Proof.
  intros Hok Hobj Hv. destruct path as [|k rest].
  - apply wp_ret. by apply op_post_refl.
  - eapply wp_mono; [by apply set_wp|].
    intros r h' (Hpre & Hok' & _ & Hr). split_and!; [done..|].
    destruct r; [|done]. destruct Hr as (l & -> & _ & ?). done.
Qed.

(** The new value of [append] and [prepend] is at most one fresh array. *)
Lemma new_value_wp act current v h :
  heap_ok h → val_ok (length h) current → val_ok (length h) v →
  wp (new_value act current v) h (op_post h).
Proof.
  intros Hok Hcur Hv.
  assert (∀ e, wp (throw (A := value) e) h (op_post h)) as Hthrow.
  { intros e. apply wp_throw. by apply op_post_refl. }
  destruct current; simpl; try apply Hthrow.
  - destruct v; try apply Hthrow. apply wp_ret. by apply op_post_refl.
  - destruct (heap_ok_closed h l Hok Hcur) as (o & Hl & Ho).
    apply wp_bind. eapply wp_load; [done|].
    destruct o as [es ns|fs]; [|apply Hthrow].
    apply wp_bind, wp_alloc, wp_ret. destruct Ho as [Hes _].
    split_and!.
    + by apply prefix_app_r.
    + apply heap_ok_alloc; [done|]. split; [|by constructor].
      apply (spread_all _ _ I) in Hes. unfold elems_all in *.
      destruct act; try (by constructor); apply Forall_app; split;
        by try constructor.
    + simpl. rewrite length_app. simpl. lia.
Qed.

(** The removal changes one object allocated at [n0] or later. *)
Lemma remove_key_wp n0 target k parentPath h :
  heap_ok h → closed_above n0 h → val_above n0 target → val_ok (length h) target →
  wp (remove_key target k parentPath) h (λ r h',
    frame n0 h h' ∧ heap_ok h' ∧ length h' = length h ∧ closed_above n0 h' ∧
    (r = Return tt → ∃ l, target = VRef l)).
Proof.
  intros Hok Hcl Hab Htgt.
  assert (∀ e, wp (throw (A := unit) e) h (λ r h',
    frame n0 h h' ∧ heap_ok h' ∧ length h' = length h ∧ closed_above n0 h' ∧
    (r = Return tt → ∃ l, target = VRef l))) as Hthrow.
  { intros e. apply wp_throw. split_and!; [apply frame_refl|done..]. }
  destruct target; simpl; try apply Hthrow.
  destruct (heap_ok_closed h l Hok Htgt) as (o & Hl & Ho).
  apply wp_bind. eapply wp_load; [done|].
  pose proof (Hcl l o Hab Hl) as Hoc.
  assert (∀ o', obj_all (val_ok (length h)) o' → obj_all (val_above n0) o' →
    wp (store l o') h (λ r h',
      frame n0 h h' ∧ heap_ok h' ∧ length h' = length h ∧ closed_above n0 h' ∧
      (r = Return tt → ∃ l0, VRef l = VRef l0)))
    as Hstore.
  { intros o' Ho' Hoc'. apply wp_store; [by eapply lookup_lt_Some|]. split_and!.
    - by apply frame_store.
    - by apply heap_ok_store.
    - by rewrite length_insert.
    - by apply closed_above_store.
    - eauto. }
  destruct o as [es ns|fs].
  - destruct k; [apply Hthrow|]. destruct Ho as [Hes Hns], Hoc as [Hesc Hnsc].
    apply Hstore; (split; [by apply splice_one_all|done]).
  - apply Hstore; by apply field_delete_all.
Qed.

(** Reading from a value allocated at [n0] or later stays there, when the
    objects allocated at [n0] or later only refer to one another. *)
Lemma get_above n0 h1 result path :
  heap_ok h1 → closed_above n0 h1 →
  val_above n0 result → val_ok (length h1) result →
  ∃ target, get result path h1 = Some (Return target, h1) ∧
            val_ok (length h1) target ∧ val_above n0 target.
Proof.
  intros Hok1 Hcl1 Hab Hres.
  apply (get_inv (λ x, val_ok (length h1) x ∧ val_above n0 x)); [| |done].
  - intros x Hx. split; by apply val_refs_on_refs.
  - intros l [Hl1 Hl2]. destruct (heap_ok_closed h1 l Hok1 Hl1) as (o & Ho & Hoall).
    exists o. split; [done|]. specialize (Hcl1 l o Hl2 Ho).
    destruct o; simpl in *; unfold elems_all, fields_all in *.
    + destruct Hoall as [He1 Hf1], Hcl1 as [He2 Hf2]. split.
      * eapply Forall_impl; [apply Forall_and; split; [exact He1|exact He2]|].
        by intros [?|].
      * by apply Forall_and.
    + by apply Forall_and.
Qed.

Lemma get_fresh m h h1 result path :
  heap_ok h → renaming m h h1 →
  val_above (length h) result → val_ok (length h1) result →
  ∃ target, get result path h1 = Some (Return target, h1) ∧
            val_ok (length h1) target ∧ val_above (length h) target.
Proof.
  intros Hok Hren Hab Hres. apply get_above; [|by eapply renaming_closed|done..].
  by eapply renaming_heap_ok.
Qed.

Lemma executeOperation_wp source operation h :
  heap_ok h → val_ok (length h) source → val_ok (length h) (value_of operation) →
  wp (executeOperation source operation) h (op_post h).
Proof.
  intros Hok Hsrc Hv. destruct operation as [path act v]. simpl in Hv.
  assert (∀ e, wp (throw (A := value) e) h (op_post h)) as Hthrow.
  { intros e. apply wp_throw. by apply op_post_refl. }
  assert (wp (bind (get source path) (λ current,
            bind (validateAppendable current path) (λ _,
              bind (new_value act current v) (λ newValue,
                set source path newValue)))) h (op_post h)) as Happend.
  { destruct (get_total source path h Hok Hsrc) as (current & Hget & Hcur).
    apply wp_bind. eapply wp_intro; [done|].
    apply wp_bind. unfold validateAppendable. apply wp_bind.
    assert (∃ a, is_array current h = Some (Return a, h)) as [a Ha].
    { destruct current; try by (exists false).
      destruct (heap_ok_closed h l Hok Hcur) as (o & Hl & _).
      eexists. by apply is_array_ref. }
    eapply wp_intro; [done|]. cbv beta iota.
    destruct (negb a && negb (is_string current));
      [apply wp_throw; by apply op_post_refl|].
    apply wp_ret, wp_bind. eapply wp_mono; [by apply new_value_wp|].
    intros [newValue|e] h1 (Hpre & Hok1 & Hnv); [|done].
    pose proof (prefix_length _ _ Hpre).
    eapply wp_mono.
    { apply set_op_post; [done| |done]. by eapply val_ok_mono. }
    intros r h'. by apply op_post_trans. }
  destruct act; unfold executeOperation; simpl.
  - by apply set_op_post.
  - apply Happend.
  - apply Happend.
  - destruct (last path) as [k|]; [|apply Hthrow].
    apply wp_bind, wp_clone; [done..|].
    intros result m h1 Hren Hrel.
    pose proof (renaming_prefix m h h1 Hren) as Hpre.
    pose proof (renaming_heap_ok m h h1 Hok Hren) as Hok1.
    destruct (val_rel_fresh m h h1 Hren source result Hrel) as [Hab Hres].
    assert (∀ e, wp (throw (A := value) e) h1 (op_post h)) as Hthrow1.
    { intros e. apply wp_throw. by split_and!. }
    assert (∃ target,
      (match removelast path with
       | [] => ret result
       | _ => get result (removelast path)
       end) h1 = Some (Return target, h1) ∧
      val_ok (length h1) target ∧ val_above (length h) target)
      as (target & Htarget & Htgt & Htab).
    { destruct (removelast path) eqn:Hp; [by exists result|].
      by eapply get_fresh. }
    apply wp_bind. eapply wp_intro; [done|]. cbv beta iota.
    destruct (is_nullish target); [apply Hthrow1|].
    apply wp_bind. eapply wp_mono.
    { apply (remove_key_wp (length h)); [done|by eapply renaming_closed|done..]. }
    intros r h' (Hfr & Hok' & Hlen & _ & _).
    assert (h `prefix_of` h') as Hpre'.
    { apply frame_prefix. eapply frame_trans; [by apply prefix_frame|done]. }
    destruct r; [|by split_and!].
    apply wp_ret. split_and!; [done..|]. by rewrite Hlen.
  - apply Hthrow.
Qed.

(** * Materialisation of missing nodes *)

Lemma field_lookup_insert s v fs : field_lookup s (field_insert s v fs) = Some v.
Proof.
  induction fs as [|[s' v'] fs IH]; simpl.
  - by rewrite decide_True.
  - case_decide; simpl; [by rewrite decide_True|by rewrite decide_False].
Qed.

Lemma elems_set_lookup i v es : elems_set i v es !! i = Some (Some v).
Proof.
  unfold elems_set. case_decide.
  - by apply list_lookup_insert_eq.
  - rewrite lookup_app_r by lia. rewrite lookup_app_r; rewrite length_replicate; [|lia].
    by replace (i - length es - (i - length es))%nat with 0%nat by lia.
Qed.

(** Writing a property that an object does not have always succeeds, and the
    property then reads back. *)
Lemma obj_set_absent o k v :
  obj_has o k = false →
  ∃ o', (∀ h0, obj_set h0 o k v = inr o') ∧ obj_has o' k = true ∧ obj_get o' k = v.
Proof.
  destruct o as [es ns|fs]; simpl.
  - destruct (array_prop_of k) as [i| |s] eqn:Hk; [|done|]; intros _.
    + eexists. split; [done|]. simpl. rewrite Hk, elems_set_lookup. done.
    + eexists. split; [done|]. simpl. rewrite Hk, field_lookup_insert.
      split; [|done]. by apply bool_decide_eq_true_2.
  - intros _. eexists. split; [done|]. simpl. rewrite field_lookup_insert.
    split; [|done]. by apply bool_decide_eq_true_2.
Qed.

Lemma array_prop_of_num z : array_prop_of (KNum z) ≠ PLength.
Proof. simpl. by case_decide. Qed.

(** The fresh container lacks every key, and filling it gives the singleton. *)
Lemma empty_container nextKey :
  let e := if is_number_key nextKey then OArr [] [] else OObj [] in
  obj_has e nextKey = false ∧
  ∀ h0 child o', obj_set h0 e nextKey child = inr o' → o' = singleton_for nextKey child.
Proof.
  destruct nextKey as [s|z]; simpl.
  - split; [done|]. by intros h0 child o' [= <-].
  - destruct (decide (0 ≤ z < 2 ^ 32 - 1)) as [Hz|Hz]; simpl.
    + split; [done|]. intros h0 child o' [= <-]. unfold elems_set. simpl.
      by rewrite Nat.sub_0_r.
    + split; [done|]. by intros h0 child o' [= <-].
Qed.

Lemma set_property_ref l o o' k v h :
  h !! l = Some o → obj_set h o k v = inr o' →
  set_property (VRef l) k v h = Some (Return tt, <[l := o']> h).
Proof.
  intros Hl Hset. simpl. unfold bind, load, store. by rewrite Hl, Hset, Hl.
Qed.

(** The loop of [set], entered at a container that lacks its key: the key
    receives the chain of containers materialised for the rest of the path.
    Nothing but that container changes in the store it started from. *)
Lemma set_walk_absent rest : ∀ l o k v h,
  h !! l = Some o → obj_has o k = false →
  ∃ h' o',
    set_walk (VRef l) k rest v h = Some (Return tt, h') ∧
    h' !! l = Some o' ∧
    (∀ h0, obj_set h0 o k (obj_get o' k) = inr o') ∧
    materialised h' (obj_get o' k) rest v ∧
    (length h ≤ length h')%nat ∧
    (∀ a, (a < length h)%nat → a ≠ l → h' !! a = h !! a).
Proof.
  induction rest as [|nextKey rest IH]; intros l o k v h Hl Hhas.
  - destruct (obj_set_absent o k v Hhas) as (o' & Hset & _ & Hget).
    pose proof (lookup_lt_Some _ _ _ Hl) as Hlt.
    exists (<[l := o']> h), o'. split_and!.
    + by apply (set_property_ref l o).
    + by apply list_lookup_insert_eq.
    + by rewrite Hget.
    + by rewrite Hget.
    + by rewrite length_insert.
    + intros a _ Ha. by apply list_lookup_insert_ne.
  - pose proof (lookup_lt_Some _ _ _ Hl) as Hlt.
    set (e := if is_number_key nextKey then OArr [] [] else OObj []).
    destruct (empty_container nextKey) as [Hehas Heset]. fold e in Hehas, Heset.
    set (c := length h).
    destruct (obj_set_absent o k (VRef c) Hhas) as (o1 & Hset1 & _ & Hget1).
    set (h2 := <[l := o1]> (h ++ [e])).
    assert (h2 !! c = Some e) as Hc.
    { unfold h2. rewrite list_lookup_insert_ne by (unfold c; lia).
      rewrite lookup_app_r by done. by rewrite Nat.sub_diag. }
    assert (h2 !! l = Some o1) as Hl2.
    { apply list_lookup_insert_eq. rewrite length_app. lia. }
    destruct (IH c e nextKey v h2 Hc Hehas)
      as (h' & e' & Hwalk & Hc' & Hset' & Hchain & Hlen' & Hframe).
    assert (length h2 = S (length h)) as Hlen2.
    { unfold h2. rewrite length_insert, length_app. simpl. lia. }
    exists h', o1. split_and!.
    + simpl. rewrite (bind_Return _ _ _ _ _ (has_property_ref l o k h Hl)).
      rewrite Hhas. fold e.
      assert (bind (alloc e) (λ c, set_property (VRef l) k (VRef c)) h
              = Some (Return tt, h2)) as Hmat.
      { rewrite (bind_Return _ _ h (length h) (h ++ [e])) by done.
        apply (set_property_ref l o); [by rewrite lookup_app_l|done]. }
      rewrite (bind_Return _ _ _ _ _ Hmat).
      rewrite (bind_Return _ _ _ _ _ (get_property_ref l o1 k h2 Hl2)).
      by rewrite Hget1.
    + rewrite Hframe; [done|lia|unfold c; lia].
    + by rewrite Hget1.
    + rewrite Hget1. simpl. exists c, (obj_get e' nextKey).
      split_and!; [done| |done]. rewrite Hc'. f_equal.
      by apply (Heset h).
    + lia.
    + intros a Ha Hne. rewrite Hframe by (unfold c; lia).
      unfold h2. rewrite list_lookup_insert_ne by done.
      by rewrite lookup_app_l.
Qed.

(** * Reading back what was written *)

Lemma obj_get_same_prop o k k2 : same_prop o k k2 = true → obj_get o k2 = obj_get o k.
Proof.
  destruct o; simpl; intros H%bool_decide_eq_true_1; by rewrite H.
Qed.

Lemma field_lookup_insert_ne s s2 v fs :
  s ≠ s2 → field_lookup s2 (field_insert s v fs) = field_lookup s2 fs.
Proof.
  intros Hne. induction fs as [|[s' v'] fs IH]; simpl.
  - by rewrite decide_False.
  - destruct (decide (s' = s)) as [->|]; simpl.
    + by rewrite !decide_False.
    + case_decide; [done|]. apply IH.
Qed.

Lemma obj_has_false_get o k : obj_has o k = false → obj_get o k = VUndef.
Proof.
  destruct o as [es ns|fs]; simpl.
  - destruct (array_prop_of k) as [i| |s]; [|done|].
    + by destruct (es !! i) as [[?|]|].
    + intros H%bool_decide_eq_false_1. by destruct (field_lookup s ns) as [?|]; [destruct H|].
  - intros H%bool_decide_eq_false_1.
    by destruct (field_lookup _ fs) as [?|]; [destruct H|].
Qed.

Lemma obj_has_false_not_length o k : obj_has o k = false → not_length o k.
Proof. destruct o; simpl; [|done]. unfold not_length. by destruct (array_prop_of k). Qed.

Lemma obj_set_not_length o k x :
  not_length o k →
  ∃ o', (∀ h0, obj_set h0 o k x = inr o') ∧ obj_get o' k = x.
Proof.
  unfold not_length. destruct o as [es ns|fs]; simpl.
  - destruct (array_prop_of k) as [i| |s] eqn:Hk; [|done|]; intros _.
    + eexists. split; [done|]. simpl. by rewrite Hk, elems_set_lookup.
    + eexists. split; [done|]. simpl. by rewrite Hk, field_lookup_insert.
  - intros _. eexists. split; [done|]. simpl. by rewrite field_lookup_insert.
Qed.

(** A write leaves the other properties that hold containers as they are. *)
Lemma obj_get_set_other h0 o k x o' k2 r :
  obj_set h0 o k x = inr o' → not_length o k → same_prop o k k2 = false →
  obj_get o k2 = VRef r → obj_get o' k2 = VRef r.
Proof.
  unfold not_length. destruct o as [es ns|fs]; simpl.
  - destruct (array_prop_of k) as [i| |s] eqn:Hk; [|done|];
      intros [= <-] _ Hne%bool_decide_eq_false_1; simpl;
      destruct (array_prop_of k2) as [j| |s2]; try done.
    + assert (i ≠ j) as Hij by congruence.
      destruct (es !! j) as [[y|]|] eqn:Hj; try done. intros ->.
      apply lookup_lt_Some in Hj as Hlt. unfold elems_set. case_decide.
      * by rewrite list_lookup_insert_ne, Hj.
      * by rewrite lookup_app_l, Hj.
    + assert (s ≠ s2) as Hs by congruence.
      by rewrite field_lookup_insert_ne.
  - intros [= <-] _ Hne%bool_decide_eq_false_1. simpl.
    by rewrite field_lookup_insert_ne.
Qed.

Lemma singleton_for_get k child : obj_get (singleton_for k child) k = child.
Proof.
  destruct k as [s|z]; simpl.
  - by rewrite decide_True.
  - destruct (decide (0 ≤ z < 2 ^ 32 - 1)) as [Hz|Hz]; simpl.
    + rewrite decide_True by done.
      rewrite lookup_app_r; rewrite length_replicate; [|done].
      by rewrite Nat.sub_diag.
    + rewrite decide_False by done. simpl. by rewrite decide_True.
Qed.

(** Reading along a materialised chain reaches the value. *)
Lemma materialised_get g v rest : ∀ node,
  materialised g node rest v → get node rest g = Some (Return v, g).
Proof.
  induction rest as [|k rest IH]; intros node; simpl.
  - by intros ->.
  - intros (l & child & -> & Hl & Hchain). simpl.
    rewrite (bind_Return _ _ _ _ _ (get_property_ref l _ k g Hl)).
    rewrite singleton_for_get. by apply IH.
Qed.


Lemma writable_ref g cur k rest :
  writable g cur k rest = true → ∃ c o, cur = VRef c ∧ g !! c = Some o.
Proof.
  destruct rest, cur; simpl; try done; destruct (g !! l) eqn:Hl; try done;
    by eexists _, _.
Qed.

(** The loop of [set] on a writable path: afterwards the path reads as the
    value, provided the container it held before is not met along the path. *)
Lemma set_walk_read_back v rest : ∀ cur k g old,
  writable g cur k rest = true →
  get cur (k :: rest) g = Some (Return old, g) →
  (∀ l j, old = VRef l → (1 ≤ j)%nat → (j ≤ length rest)%nat →
     get cur (take j (k :: rest)) g ≠ Some (Return (VRef l), g)) →
  ∃ g',
    set_walk cur k rest v g = Some (Return tt, g') ∧
    get cur (k :: rest) g' = Some (Return v, g') ∧
    keeps_refs old g g'.
Proof.
  induction rest as [|nextKey rest IH]; intros cur k g old Hw Hold Hself;
    destruct (writable_ref _ _ _ _ Hw) as (c & o & -> & Hc);
    pose proof (lookup_lt_Some _ _ _ Hc) as Hlt.
  - (* the last key *)
    simpl in Hw. rewrite Hc in Hw.
    assert (not_length o k) as Hnl.
    { unfold not_length. by destruct o, (array_prop_of k). }
    destruct (obj_set_not_length o k v Hnl) as (o' & Hset & Hget).
    rewrite (get_cons_ref c o k [] g Hc) in Hold. injection Hold as <-.
    assert (<[c := o']> g !! c = Some o') as Hc' by by apply list_lookup_insert_eq.
    exists (<[c := o']> g). split_and!.
    + by apply (set_property_ref c o).
    + rewrite (get_cons_ref c o' k [] _ Hc'). by rewrite Hget.
    + intros a oa k2 r Ha Hk2 Hne. destruct (decide (a = c)) as [->|Hac].
      * rewrite Hc in Ha. injection Ha as <-. exists o'. split; [done|].
        eapply (obj_get_set_other g); [done|done| |done].
        destruct (same_prop o k k2) eqn:Hsp; [|done].
        apply obj_get_same_prop in Hsp. congruence.
      * exists oa. split; [|done]. by rewrite list_lookup_insert_ne.
  - (* a key before the last *)
    simpl in Hw. rewrite Hc in Hw.
    pose proof (get_cons_ref c o k (nextKey :: rest) g Hc) as Hstep.
    destruct (obj_has o k) eqn:Hhas.
    + (* the node exists *)
      destruct (writable_ref _ _ _ _ Hw) as (c1 & o1 & Hc1 & Ho1).
      rewrite Hstep in Hold.
      destruct (IH (obj_get o k) nextKey g old Hw Hold) as (g' & Hwalk & Hread & Hkeep).
      { intros l j -> Hj1 Hj2 Hget.
        apply (Hself l (S j) eq_refl); [lia|simpl; lia|].
        rewrite firstn_cons. by rewrite (get_cons_ref c o k _ g Hc). }
      assert (VRef c1 ≠ old) as Hne.
      { intros <-. apply (Hself c1 1%nat eq_refl); [lia|simpl; lia|].
        rewrite firstn_cons, (get_cons_ref c o k _ g Hc). by rewrite Hc1. }
      destruct (Hkeep c o k c1 Hc Hc1 Hne) as (o' & Hc' & Hget').
      exists g'. split_and!; [| |done].
      * simpl. rewrite (bind_Return _ _ _ _ _ (has_property_ref c o k g Hc)).
        rewrite Hhas. rewrite (bind_Return _ _ g tt g) by done.
        by rewrite (bind_Return _ _ _ _ _ (get_property_ref c o k g Hc)).
      * rewrite (get_cons_ref c o' k _ g' Hc'). by rewrite Hget', <-Hc1.
    + (* the node is missing *)
      destruct (set_walk_absent (nextKey :: rest) c o k v g Hc Hhas)
        as (g' & o' & Hwalk & Hc' & Hset & Hchain & _ & Hframe).
      rewrite Hstep, (obj_has_false_get o k Hhas) in Hold.
      simpl in Hold. injection Hold as <-.
      exists g'. split_and!; [done| |].
      * rewrite (get_cons_ref c o' k _ g' Hc'). by apply materialised_get.
      * intros a oa k2 r Ha Hk2 _. destruct (decide (a = c)) as [->|Hac].
        -- rewrite Hc in Ha. injection Ha as <-. exists o'. split; [done|].
           eapply (obj_get_set_other g); [by apply Hset|
             by apply obj_has_false_not_length| |done].
           destruct (same_prop o k k2) eqn:Hsp; [|done].
           apply obj_get_same_prop in Hsp.
           rewrite (obj_has_false_get o k Hhas) in Hsp. congruence.
        -- exists oa. split; [|done]. rewrite Hframe; [done| |done].
           by eapply lookup_lt_Some.
Qed.

Lemma obj_rel_not_length m o o' k : obj_rel m o o' → not_length o k → not_length o' k.
Proof. unfold not_length. by destruct o, o'. Qed.

(** A document and its copy are writable along the same paths. *)
Lemma writable_rel m h h1 rest : ∀ cur cur' k,
  renaming m h h1 → val_rel m cur cur' →
  writable h1 cur' k rest = writable h cur k rest.
Proof.
  induction rest as [|nextKey rest IH]; intros cur cur' k Hren Hrel;
    destruct cur as [| | | | |l]; simpl in Hrel; try (by subst);
    destruct Hrel as (l' & -> & Hl');
    apply (renaming_lookup m h h1 Hren) in Hl'
      as (_ & _ & _ & o & o' & Ho & Ho' & Hoo);
    simpl; rewrite Ho, Ho'.
  - by destruct o, o'.
  - rewrite (obj_has_rel m o o' k Hoo). destruct (obj_has o k); [|done].
    apply IH; [done|]. by apply obj_get_rel.
Qed.

(** [set], then [get]: on a writable path, the result of [set] reads as the
    value at that path, provided the container found there before is not
    met along the path. *)
Lemma set_get obj k rest v old h :
  heap_ok h → val_ok (length h) obj → val_ok (length h) v →
  writable h obj k rest = true →
  get obj (k :: rest) h = Some (Return old, h) →
  not_on_path h obj (k :: rest) old →
  ∃ l h',
    set obj (k :: rest) v h = Some (Return (VRef l), h') ∧
    get (VRef l) (k :: rest) h' = Some (Return v, h') ∧
    (length h ≤ l)%nat ∧ h `prefix_of` h'.
Proof.
  intros Hok Hobj Hv Hw Hold Hself.
  destruct (clone_renaming h obj Hok Hobj) as (result & m & h1 & Hc & Hren & Hrel).
  destruct (get_rel m h h1 (k :: rest) obj result Hok Hren Hrel)
    as (r & old' & Hr & Hold' & Hrr).
  rewrite Hold in Hr. injection Hr as <-.
  destruct (set_walk_read_back v rest result k h1 old') as (h' & Hwalk & Hread & _).
  - by rewrite (writable_rel m h h1 rest obj result k Hren Hrel).
  - done.
  - intros l' j -> Hj1 Hj2 Hget.
    destruct old as [| | | | |l]; simpl in Hrr; try done.
    destruct Hrr as (l0 & [= <-] & Hl).
    destruct (get_rel m h h1 (take j (k :: rest)) obj result Hok Hren Hrel)
      as (x & x' & Hx & Hx' & Hxx).
    rewrite Hget in Hx'. injection Hx' as <-.
    destruct x as [| | | | |l2]; simpl in Hxx; try done.
    destruct Hxx as (l3 & [= <-] & Hl2).
    assert (l2 = l) as -> by (by eapply (ci_inj _ _ _ _ Hren)).
    apply (Hself l j eq_refl Hj1); [simpl; lia|done].
  - assert (set obj (k :: rest) v h = Some (Return result, h')) as Hset.
    { simpl. rewrite (bind_Return _ _ _ _ _ Hc).
      by rewrite (bind_Return _ _ _ _ _ Hwalk). }
    pose proof (wp_elim _ _ _ _ _ (set_wp obj k rest v h Hok Hobj Hv) Hset)
      as (Hpre & _ & _ & l & -> & Hl & _).
    by exists l, h'.
Qed.

(** Reading and writability do not depend on what is allocated later. *)
Lemma get_prefix path : ∀ v h h1 r,
  get v path h = Some (Return r, h) → h `prefix_of` h1 →
  get v path h1 = Some (Return r, h1).
Proof.
  induction path as [|k path IH]; intros v h h1 r; simpl.
  - by intros [= ->].
  - destruct (is_nullish v); [by intros [= ->]|].
    intros [(current & h2 & Hp & Hg)|(e & _ & [=])]%bind_Some Hpre.
    assert (h2 = h ∧ get_property v k h1 = Some (Return current, h1)) as [-> Hp1].
    { destruct v; simpl in *; try (injection Hp as <- <-; done).
      unfold bind, load in *. destruct (h !! l) as [o|] eqn:Hl; [|done].
      rewrite (prefix_lookup_Some _ _ _ _ Hl Hpre). by injection Hp as <- <-. }
    rewrite (bind_Return _ _ _ _ _ Hp1). by eapply IH.
Qed.

Lemma writable_prefix rest : ∀ v k h h1,
  writable h v k rest = true → h `prefix_of` h1 → writable h1 v k rest = true.
Proof.
  induction rest as [|nextKey rest IH]; intros v k h h1 Hw Hpre;
    destruct (writable_ref _ _ _ _ Hw) as (c & o & -> & Hc);
    simpl in *; rewrite Hc in Hw;
    rewrite (prefix_lookup_Some _ _ _ _ Hc Hpre); [done|].
  destruct (obj_has o k); [|done]. by eapply IH.
Qed.


(** A path that leads to a container is writable. *)
Lemma get_ref_writable rest : ∀ v k h l,
  get v (k :: rest) h = Some (Return (VRef l), h) → writable h v k rest = true.
Proof.
  induction rest as [|nextKey rest IH]; intros v k h l Hget;
    destruct (get_ref_from_ref _ _ _ _ _ Hget) as [c ->];
    (destruct (h !! c) as [o|] eqn:Hc;
      [|simpl in Hget; unfold bind, load in Hget; by rewrite Hc in Hget]);
    rewrite (get_cons_ref c o k _ h Hc) in Hget; simpl; rewrite Hc.
  - injection Hget as Hget. destruct o as [es ns|fs]; [|done].
    simpl in Hget. by destruct (array_prop_of k).
  - destruct (obj_has o k); [|done]. by eapply IH.
Qed.

(** * Where [set] cannot write *)

(** A document and its copy are blocked along the same paths. *)
Lemma blocked_rel m h h1 rest : ∀ cur cur' k,
  renaming m h h1 → val_rel m cur cur' →
  blocked h1 cur' k rest = blocked h cur k rest.
Proof.
  induction rest as [|nextKey rest IH]; intros cur cur' k Hren Hrel;
    destruct cur as [| | | | |l]; simpl in Hrel; try (by subst);
    destruct Hrel as (l' & -> & Hl');
    apply (renaming_lookup m h h1 Hren) in Hl'
      as (_ & _ & _ & o & o' & Ho & Ho' & Hoo);
    simpl; rewrite Ho, Ho'; [done|].
  rewrite (obj_has_rel m o o' k Hoo). destruct (obj_has o k); [|done].
  apply IH; [done|]. by apply obj_get_rel.
Qed.

Lemma writable_not_blocked h rest : ∀ cur k,
  writable h cur k rest = true → blocked h cur k rest = false.
Proof.
  induction rest as [|nextKey rest IH]; intros cur k;
    destruct cur as [| | | | |l]; simpl; try done;
    destruct (h !! l) as [o|]; try done.
  destruct (obj_has o k); [apply IH|done].
Qed.

(** The loop of [set] on a blocked path throws an error of the host: that
    of [in] applied to a primitive, or that of an assignment to a property
    of a primitive, of [null] or of [undefined].  Nothing is written. *)
Lemma set_walk_blocked v rest : ∀ cur k g,
  blocked g cur k rest = true →
  ∃ he, set_walk cur k rest v g = Some (Throw (HostErr he), g).
Proof.
  induction rest as [|nextKey rest IH]; intros cur k g Hb.
  - destruct cur as [| | | | |l]; simpl in *; try (by eexists).
    by destruct (g !! l).
  - destruct cur as [| | | | |l]; try (by eexists).
    simpl in Hb. destruct (g !! l) as [o|] eqn:Hl; [|done].
    destruct (obj_has o k) eqn:Hhas; [|done].
    destruct (IH (obj_get o k) nextKey g Hb) as [he Hwalk].
    exists he. simpl.
    rewrite (bind_Return _ _ _ _ _ (has_property_ref l o k g Hl)).
    rewrite Hhas. rewrite (bind_Return _ _ g tt g) by done.
    by rewrite (bind_Return _ _ _ _ _ (get_property_ref l o k g Hl)).
Qed.

Lemma set_blocked obj k rest v h :
  heap_ok h → val_ok (length h) obj →
  blocked h obj k rest = true →
  ∃ he h', set obj (k :: rest) v h = Some (Throw (HostErr he), h') ∧
           h `prefix_of` h'.
Proof.
  intros Hok Hobj Hb.
  destruct (clone_renaming h obj Hok Hobj) as (result & m & h1 & Hc & Hren & Hrel).
  rewrite <-(blocked_rel m h h1 rest obj result k Hren Hrel) in Hb.
  destruct (set_walk_blocked v rest result k h1 Hb) as [he Hwalk].
  exists he, h1. split; [|by eapply renaming_prefix].
  simpl. rewrite (bind_Return _ _ _ _ _ Hc).
  by rewrite (bind_Throw _ _ _ _ _ Hwalk).
Qed.

(** A path that reads as a text is writable or blocked: the text is a
    property of a container, or it is found inside a primitive. *)
Lemma text_writable_or_blocked h s rest : ∀ cur k,
  get cur (k :: rest) h = Some (Return (VStr s), h) →
  writable h cur k rest = true ∨ blocked h cur k rest = true.
Proof.
  induction rest as [|nextKey rest IH]; intros cur k Hget;
    (destruct cur as [| | | | |l]; [by right..|]);
    (destruct (h !! l) as [o|] eqn:Hl;
      [|simpl in Hget; unfold bind, load in Hget; by rewrite Hl in Hget]);
    rewrite (get_cons_ref l o k _ h Hl) in Hget; simpl; rewrite Hl.
  - left. injection Hget as Hget. destruct o as [es ns|fs]; [|done].
    simpl in Hget. by destruct (array_prop_of k).
  - destruct (obj_has o k) eqn:Hhas; [by apply IH|].
    rewrite (obj_has_false_get o k Hhas) in Hget. done.
Qed.

(** ** Where [set] can write *)

Lemma obj_rel_kind m o o' :
  obj_rel m o o' →
  match o, o' with
  | OArr _ _, OArr _ _ | OObj _, OObj _ => True
  | _, _ => False
  end.
Proof. by destruct o, o'. Qed.

(** The loop of [set] in the copy of a writable document returns. *)
Lemma set_walk_writable m h h1 v rest : ∀ cur cur' k,
  heap_ok h → renaming m h h1 → val_rel m cur cur' →
  writable h cur k rest = true →
  ∃ h', set_walk cur' k rest v h1 = Some (Return tt, h').
Proof.
  induction rest as [|nextKey rest IH]; intros cur cur' k Hok Hren Hrel Hw;
    destruct cur as [| | | | |l]; try done; simpl in Hw;
    destruct (h !! l) as [o|] eqn:Hl; try done;
    destruct Hrel as (l' & -> & Hl');
    apply (renaming_lookup m h h1 Hren) in Hl'
      as (_ & _ & _ & o0 & o' & Ho0 & Ho' & Hoo);
    rewrite Hl in Ho0; injection Ho0 as <-.
  - assert (∃ o2, obj_set h1 o' k v = inr o2) as [o2 Hset].
    { apply obj_rel_kind in Hoo. destruct o, o'; try done; simpl.
      - destruct (array_prop_of k); try done; by eexists.
      - by eexists. }
    eexists. by apply (set_property_ref l' o').
  - rewrite <-(obj_has_rel m o o' k Hoo) in Hw.
    destruct (obj_has o' k) eqn:Hhas.
    + destruct (IH (obj_get o k) (obj_get o' k) nextKey Hok Hren) as [h' Hwalk];
        [by apply obj_get_rel|done|].
      exists h'. simpl.
      rewrite (bind_Return _ _ _ _ _ (has_property_ref l' o' k h1 Ho')).
      rewrite Hhas.
      rewrite (bind_Return _ _ h1 tt h1) by done.
      by rewrite (bind_Return _ _ _ _ _ (get_property_ref l' o' k h1 Ho')).
    + destruct (set_walk_absent (nextKey :: rest) l' o' k v h1 Ho' Hhas)
        as (h' & ? & Hwalk & _).
      by exists h'.
Qed.

Lemma set_writable obj k rest v h :
  heap_ok h → val_ok (length h) obj → val_ok (length h) v →
  writable h obj k rest = true →
  ∃ l h', set obj (k :: rest) v h = Some (Return (VRef l), h') ∧
          (length h ≤ l)%nat ∧ h `prefix_of` h'.
Proof.
  intros Hok Hobj Hv Hw.
  destruct (clone_renaming h obj Hok Hobj) as (result & m & h1 & Hc & Hren & Hrel).
  destruct (set_walk_writable m h h1 v rest obj result k Hok Hren Hrel Hw)
    as [h' Hwalk].
  assert (set obj (k :: rest) v h = Some (Return result, h')) as Hset.
  { simpl. rewrite (bind_Return _ _ _ _ _ Hc).
    by rewrite (bind_Return _ _ _ _ _ Hwalk). }
  pose proof (wp_elim _ _ _ _ _ (set_wp obj k rest v h Hok Hobj Hv) Hset)
    as (Hpre & _ & _ & l & -> & Hl & _).
  by exists l, h'.
Qed.

(** * Writing below nodes that exist *)

Lemma get_app pre : ∀ cur q g x,
  get cur pre g = Some (Return x, g) → get cur (pre ++ q) g = get x q g.
Proof.
  induction pre as [|p pre IH]; intros cur q g x Hget.
  - by injection Hget as ->.
  - simpl in *. destruct (is_nullish cur) eqn:Hn.
    { injection Hget as <-. by destruct q. }
    apply bind_Some in Hget as [(next & g2 & Hp & Hget)|(e & _ & [=])].
    assert (g2 = g) as ->.
    { destruct cur; simpl in Hp; try (by injection Hp as _ <-).
      unfold bind, load in Hp. destruct (g !! l); [|done]. by injection Hp as _ <-. }
    rewrite (bind_Return _ _ _ _ _ Hp). by apply IH.
Qed.

(** The loop of [set] changes nothing on its way through nodes that
    exist. *)
Lemma set_walk_present c k rest v g pre : ∀ cur k' rest',
  get cur pre g = Some (Return (VRef c), g) →
  pre ++ k :: rest = k' :: rest' →
  set_walk cur k' rest' v g = set_walk (VRef c) k rest v g.
Proof.
  induction pre as [|p pre IH]; intros cur k' rest' Hget Heq.
  - injection Hget as ->. by injection Heq as <- <-.
  - injection Heq as <- <-.
    destruct (get_ref_from_ref _ _ _ _ _ Hget) as [c0 ->].
    destruct (g !! c0) as [o0|] eqn:Hc0.
    2: { simpl in Hget. unfold bind, load in Hget. by rewrite Hc0 in Hget. }
    rewrite (get_cons_ref c0 o0 p pre g Hc0) in Hget.
    assert (obj_has o0 p = true) as Hhas.
    { destruct (obj_has o0 p) eqn:Hhas; [done|].
      rewrite (obj_has_false_get o0 p Hhas) in Hget.
      destruct (get_prim VUndef pre g) as (r & Hr & Hnr); [done|].
      rewrite Hr in Hget. injection Hget as ->. by destruct (Hnr c). }
    destruct (pre ++ k :: rest) as [|nextKey rest''] eqn:Hrest.
    { by destruct pre. }
    simpl. rewrite (bind_Return _ _ _ _ _ (has_property_ref c0 o0 p g Hc0)).
    rewrite Hhas. rewrite (bind_Return _ _ g tt g) by done.
    rewrite (bind_Return _ _ _ _ _ (get_property_ref c0 o0 p g Hc0)).
    by apply IH.
Qed.

(** A path to a container still leads to it when every property that holds
    a container keeps holding it. *)
Lemma get_keeps c g g' pre : ∀ cur,
  keeps_refs VUndef g g' →
  get cur pre g = Some (Return (VRef c), g) →
  get cur pre g' = Some (Return (VRef c), g').
Proof.
  induction pre as [|p pre IH]; intros cur Hkeep Hget.
  - by injection Hget as ->.
  - destruct (get_ref_from_ref _ _ _ _ _ Hget) as [c0 ->].
    destruct (g !! c0) as [o0|] eqn:Hc0.
    2: { simpl in Hget. unfold bind, load in Hget. by rewrite Hc0 in Hget. }
    rewrite (get_cons_ref c0 o0 p pre g Hc0) in Hget.
    destruct pre as [|p2 pre].
    + injection Hget as Hget.
      destruct (Hkeep c0 o0 p c Hc0 Hget) as (o' & Hc' & Hget'); [done|].
      by rewrite (get_cons_ref c0 o' p [] g' Hc'), Hget'.
    + destruct (get_ref_from_ref _ _ _ _ _ Hget) as [c1 Hc1].
      destruct (Hkeep c0 o0 p c1 Hc0 Hc1) as (o' & Hc' & Hget'); [done|].
      rewrite (get_cons_ref c0 o' p _ g' Hc'), Hget', <-Hc1. by apply IH.
Qed.

(** [set] below a path of nodes that exist, the last of which lacks the next
    key: in the result the path leads to a container whose key holds the
    chain of containers materialised for the rest of the path, and the whole
    path reads as the value. *)
Lemma set_absent_below obj pre c o k rest v h :
  heap_ok h → val_ok (length h) obj → val_ok (length h) v →
  get obj pre h = Some (Return (VRef c), h) →
  h !! c = Some o → obj_has o k = false →
  ∃ l' h' c' o',
    set obj (pre ++ k :: rest) v h = Some (Return (VRef l'), h') ∧
    get (VRef l') pre h' = Some (Return (VRef c'), h') ∧
    h' !! c' = Some o' ∧ materialised h' (obj_get o' k) rest v ∧
    get (VRef l') (pre ++ k :: rest) h' = Some (Return v, h') ∧
    (length h ≤ l')%nat ∧ (length h ≤ c')%nat ∧ h `prefix_of` h'.
Proof.
  intros Hok Hobj Hv Hget Hc Hhas.
  destruct (clone_renaming h obj Hok Hobj) as (result & m & h1 & Hcl & Hren & Hrel).
  destruct (get_rel m h h1 pre obj result Hok Hren Hrel)
    as (r & r' & Hr & Hr' & Hrr).
  rewrite Hget in Hr. injection Hr as <-.
  destruct Hrr as (c' & -> & Hc').
  apply (renaming_lookup m h h1 Hren) in Hc'
    as (_ & Hge & _ & o0 & o1 & Ho0 & Ho1 & Hoo).
  rewrite Hc in Ho0. injection Ho0 as <-.
  rewrite <-(obj_has_rel m o o1 k Hoo) in Hhas.
  destruct (set_walk_absent rest c' o1 k v h1 Ho1 Hhas)
    as (h' & o' & Hwalk & Ho' & Hset & Hchain & _ & Hframe).
  destruct (pre ++ k :: rest) as [|k' rest'] eqn:Hpath.
  { by destruct pre. }
  rewrite <-(set_walk_present c' k rest v h1 pre result k' rest' Hr' Hpath)
    in Hwalk.
  assert (set obj (k' :: rest') v h = Some (Return result, h')) as Hres.
  { simpl. rewrite (bind_Return _ _ _ _ _ Hcl).
    by rewrite (bind_Return _ _ _ _ _ Hwalk). }
  pose proof (wp_elim _ _ _ _ _ (set_wp obj k' rest' v h Hok Hobj Hv) Hres)
    as (Hpre & _ & _ & l' & -> & Hl' & _).
  assert (get (VRef l') pre h' = Some (Return (VRef c'), h')) as Hread.
  { apply (get_keeps c' h1); [|done].
    intros a oa k2 r Ha Hk2 _. destruct (decide (a = c')) as [->|Hac].
    - rewrite Ho1 in Ha. injection Ha as <-. exists o'. split; [done|].
      eapply (obj_get_set_other h1); [by apply Hset|
        by apply obj_has_false_not_length| |done].
      destruct (same_prop o1 k k2) eqn:Hsp; [|done].
      apply obj_get_same_prop in Hsp.
      rewrite (obj_has_false_get o1 k Hhas) in Hsp. congruence.
    - exists oa. split; [|done]. rewrite Hframe; [done| |done].
      by eapply lookup_lt_Some. }
  exists l', h', c', o'. split_and!; try done.
  rewrite <-Hpath, (get_app pre _ _ _ _ Hread).
  rewrite (get_cons_ref c' o' k rest h' Ho'). by apply materialised_get.
Qed.

(** * Batches *)

Lemma unfold_prefix_of h h' n v :
  heap_ok h → h `prefix_of` h' → val_ok (length h) v →
  unfold n h' v = unfold n h v.
Proof.
  intros Hok Hpre. revert v. induction n as [|n IH]; intros [] Hv; simpl; try done.
  simpl in Hv. destruct (lookup_lt_is_Some_2 h l Hv) as [o Ho].
  rewrite Ho, (prefix_lookup_Some _ _ _ _ Ho Hpre).
  apply heap_ok_lookup in Ho; [|done].
  assert (∀ fs, fields_all (val_ok (length h)) fs →
    map (prod_map id (unfold n h')) fs = map (prod_map id (unfold n h)) fs)
    as Hfields.
  { intros fs Hfs. apply map_ext_Forall. eapply Forall_impl; [exact Hfs|].
    intros [s v] ?. unfold prod_map. simpl. f_equal. by apply IH. }
  destruct o as [es ns|fs]; simpl in Ho.
  - destruct Ho as [Hes Hns]. f_equal; [|by apply Hfields].
    apply map_ext_Forall. eapply Forall_impl; [exact Hes|].
    intros [v|] ?; simpl; [|done]. f_equal. by apply IH.
  - f_equal. by apply Hfields.
Qed.



(** While nothing throws, the loop of [apply] is [run_all]. *)
Lemma apply_loop_run strict source this pre : ∀ i result h result1 h1 rest,
  run_all pre result h = Some (Return result1, h1) →
  apply_loop strict source i (pre ++ rest) result this h
  = apply_loop strict source (i + length pre) rest result1 this h1.
Proof.
  induction pre as [|op pre IH]; intros i result h result1 h1 rest Hrun; simpl in *.
  - injection Hrun as <- <-. by rewrite Nat.add_0_r.
  - apply bind_Some in Hrun as [(result' & h' & -> & Hrun)|(e & _ & [=])].
    rewrite (IH (S i) result' h' result1 h1 rest Hrun). f_equal. lia.
Qed.

Lemma apply_loop_nil strict source i result this h :
  apply_loop strict source i [] result this h = Some (Return result, this, h).
Proof. done. Qed.

(** The outcome of [apply] on a batch whose first failure is at index [k]. *)
Lemma apply_first_failure this source operations config h k operation e h' :
  first_failure source operations h k operation e h' →
  apply this source operations config h
  = if default true (config ≫= strict)
    then Some (Throw (Err (message e)), {| errors := [] |}, h')
    else Some (Return source,
               {| errors := [{| index := k; operation := operation;
                                reason := message e |}] |}, h').
Proof.
  intros (Hk & result & h1 & Hrun & Hfail).
  apply bind_Some in Hrun as [(result0 & h0 & Hclone & Hrun)|(e' & _ & [=])].
  pose proof (lookup_lt_Some _ _ _ Hk) as Hlen.
  unfold apply. rewrite Hclone.
  rewrite <-(take_drop_middle operations k operation Hk) at 1.
  rewrite (apply_loop_run _ _ _ _ _ _ _ _ _ _ Hrun).
  rewrite length_take, Nat.min_l by lia.
  simpl. rewrite Hfail. by destruct (default true (config ≫= strict)).
Qed.




(** C5: on a batch whose first failure is at index [k], strict mode throws an
    error whose message is the reason that non-strict mode records at index
    [k]; and a missing configuration or a missing flag means strict mode. *)
Theorem apply_strict_message this source operations h k operation e h' :
  first_failure source operations h k operation e h' →
  apply this source operations (Some {| strict := Some true |}) h
  = Some (Throw (Err (message e)), {| errors := [] |}, h') ∧
  apply this source operations (Some {| strict := Some false |}) h
  = Some (Return source,
          {| errors := [{| index := k; operation := operation;
                           reason := message e |}] |}, h') ∧
  apply this source operations None h
  = apply this source operations (Some {| strict := Some true |}) h ∧
  apply this source operations (Some {| strict := None |}) h
  = apply this source operations (Some {| strict := Some true |}) h.
Proof.
  intros Hff. split_and!; try done;
    by rewrite (apply_first_failure _ _ _ _ _ _ _ _ _ Hff).
Qed.

Lemma apply_loop_strict source operations : ∀ i result this h r this' h',
  apply_loop true source i operations result this h = Some (r, this', h') →
  this' = this.
Proof.
  induction operations as [|op rest IH]; intros i result this h r this' h'; simpl.
  - by intros [= _ <- _].
  - destruct (executeOperation result op h) as [[[result'|e] h1]|]; [| |done].
    + apply IH.
    + by intros [= _ <- _].
Qed.

(** C10: when [apply] in strict mode (asked for or by default) throws, the
    error record is empty afterwards, whatever it held before; and it does
    throw, with an empty record, on every batch that has a first failure. *)
Theorem apply_strict_throw_no_errors this source operations config h :
  default true (config ≫= strict) = true →
  (∀ e this' h',
     apply this source operations config h = Some (Throw e, this', h') →
     getErrors this' = []) ∧
  (∀ k operation e h',
     first_failure source operations h k operation e h' →
     ∃ this',
       apply this source operations config h
       = Some (Throw (Err (message e)), this', h') ∧
       getErrors this' = []).
Proof.
  intros Hstrict. split.
  - intros e this' h'. unfold apply. rewrite Hstrict.
    destruct (clone source h) as [[[result|e0] h0]|]; [| |done].
    + intros ->%apply_loop_strict. done.
    + by intros [= _ <- _].
  - intros k operation e h' Hff.
    rewrite (apply_first_failure _ _ _ _ _ _ _ _ _ Hff), Hstrict.
    by eexists.
Qed.

(** C9: with an empty batch [apply] returns a copy of the source: a value
    that denotes the same document, whose containers are all allocated by
    the call (so it is not the source container itself), and the error
    record is empty; the original store is left as it was. *)
Theorem apply_empty_batch this source config h :
  heap_ok h → val_ok (length h) source →
  ∃ result h',
    apply this source [] config h = Some (Return result, {| errors := [] |}, h') ∧
    same_document h source h' result ∧
    (∀ l, source = VRef l → result ≠ source) ∧
    (∀ path l, get result path h' = Some (Return (VRef l), h') → (length h ≤ l)%nat) ∧
    h `prefix_of` h'.
Proof.
  intros Hok Hsrc.
  destruct (clone_renaming h source Hok Hsrc) as (result & m & h' & Hc & Hren & Hrel).
  destruct (val_rel_fresh m h h' Hren source result Hrel) as [Hab Hres].
  exists result, h'. split_and!.
  - unfold apply. by rewrite Hc.
  - by apply (same_document_renaming m).
  - intros l -> ->. destruct Hrel as (l' & [= <-] & Hl).
    apply (renaming_lookup m h h' Hren) in Hl. lia.
  - intros path l Hget.
    destruct (get_fresh m h h' result path Hok Hren Hab Hres) as (t & Ht & _ & Htab).
    rewrite Ht in Hget. by injection Hget as ->.
  - by eapply renaming_prefix.
Qed.

Lemma field_delete_absent s fs : field_lookup s fs = None → field_delete s fs = fs.
Proof.
  induction fs as [|[s' v'] fs IH]; simpl; [done|].
  case_decide; [done|]. intros ?. f_equal. auto.
Qed.

Lemma last_snoc_key (path : list key) k : last (path ++ [k]) = Some k.
Proof. apply last_snoc. Qed.

(** Removing a field that a map does not have: the copy is returned as it
    is. *)
Lemma delete_absent_field source parentPath k v l fs h :
  heap_ok h → val_ok (length h) source →
  get source parentPath h = Some (Return (VRef l), h) →
  h !! l = Some (OObj fs) →
  field_lookup (key_to_string k) fs = None →
  ∃ result h',
    executeOperation source
      {| path := parentPath ++ [k]; action_of := ADelete; value_of := v |} h
    = Some (Return result, h') ∧
    same_document h source h' result ∧
    h `prefix_of` h' ∧ h' !! l = Some (OObj fs).
Proof.
  intros Hok Hsrc Hget Hl Habsent.
  destruct (clone_renaming h source Hok Hsrc) as (result & m & h' & Hc & Hren & Hrel).
  pose proof (renaming_prefix m h h' Hren) as Hpre.
  exists result, h'. split_and!.
  2: by apply (same_document_renaming m).
  2: done.
  2: by eapply prefix_lookup_Some.
  unfold executeOperation. simpl.
  rewrite last_snoc_key, removelast_last.
  rewrite (bind_Return _ _ _ _ _ Hc).
  assert (∃ l', m !! l = Some l' ∧
    (match parentPath with [] => ret result | _ => get result parentPath end) h'
    = Some (Return (VRef l'), h')) as (l' & Hl' & Htarget).
  { destruct (get_rel m h h' parentPath source result Hok Hren Hrel)
      as (r & r' & Hr & Hr' & Hrr).
    rewrite Hget in Hr. injection Hr as <-.
    destruct Hrr as (l' & -> & Hl'). exists l'. split; [done|].
    destruct parentPath; [|done]. simpl in Hr'. by injection Hr' as ->. }
  rewrite (bind_Return _ _ _ _ _ Htarget). simpl.
  apply (renaming_lookup m h h' Hren) in Hl'
    as (_ & _ & _ & o & o' & Ho & Ho' & Hoo).
  rewrite Hl in Ho. injection Ho as <-.
  destruct o' as [|fs']; [done|]. simpl in Hoo.
  unfold bind at 1. unfold bind at 1. unfold load. rewrite Ho'.
  rewrite field_delete_absent.
  2: { pose proof (field_lookup_rel m (key_to_string k) _ _ Hoo) as Hf.
       rewrite Habsent in Hf. by inversion Hf. }
  unfold store. rewrite Ho'. by rewrite list_insert_id.
Qed.

(** C8: an operation [delete] with the empty path throws the root-deletion
    error whatever the document; as the first failure of a batch it makes
    strict mode (asked for or by default) throw that message and non-strict
    mode record it; and
    deleting a field that the parent map does not have returns a document
    equal to the source, the map being left as it was. *)
Theorem delete_root_and_absent :
  (∀ source v h,
    executeOperation source {| path := []; action_of := ADelete; value_of := v |} h
    = Some (Throw (Err "Cannot delete root object"), h)) ∧
  (∀ this source operations config k v h result h1,
    operations !! k = Some {| path := []; action_of := ADelete; value_of := v |} →
    bind (clone source) (run_all (take k operations)) h = Some (Return result, h1) →
    apply this source operations config h
    = if default true (config ≫= strict)
      then Some (Throw (Err "Cannot delete root object"), {| errors := [] |}, h1)
      else Some (Return source,
                 {| errors := [{| index := k;
                                  operation := {| path := []; action_of := ADelete;
                                                  value_of := v |};
                                  reason := "Cannot delete root object" |}] |},
                 h1)) ∧
  (∀ source parentPath k v l fs h,
    heap_ok h → val_ok (length h) source →
    get source parentPath h = Some (Return (VRef l), h) →
    h !! l = Some (OObj fs) →
    field_lookup (key_to_string k) fs = None →
    ∃ result h',
      executeOperation source
        {| path := parentPath ++ [k]; action_of := ADelete; value_of := v |} h
      = Some (Return result, h') ∧
      same_document h source h' result ∧
      h `prefix_of` h' ∧ h' !! l = Some (OObj fs)).
Proof.
  split_and!.
  - done.
  - intros this source operations config k v h result h1 Hk Hrun.
    assert (first_failure source operations h k
              {| path := []; action_of := ADelete; value_of := v |}
              (Err "Cannot delete root object") h1) as Hff.
    { split; [done|]. by exists result, h1. }
    by rewrite (apply_first_failure _ _ _ _ _ _ _ _ _ Hff).
  - apply delete_absent_field.
Qed.

(** * Append and prepend *)

Lemma is_array_total current h :
  heap_ok h → val_ok (length h) current →
  ∃ a, is_array current h = Some (Return a, h) ∧
       (a = true ↔ ∃ l es ns, current = VRef l ∧ h !! l = Some (OArr es ns)).
Proof.
  intros Hok Hcur. destruct current;
    try (exists false; split; [done|]; split; [done|]; by intros (? & ? & ? & ? & ?)).
  destruct (heap_ok_closed h l Hok Hcur) as (o & Hl & _).
  eexists. split; [by apply is_array_ref|]. destruct o.
  - split; [|done]. intros _. by eexists _, _, _.
  - split; [done|]. intros (? & ? & ? & [= <-] & ?). congruence.
Qed.

(** [append] and [prepend] once the target is resolved. *)
Lemma append_unfold act source path v current a h :
  act = AAppend ∨ act = APrepend →
  get source path h = Some (Return current, h) →
  is_array current h = Some (Return a, h) →
  executeOperation source {| path := path; action_of := act; value_of := v |} h
  = if negb a && negb (is_string current)
    then Some (Throw (Err ("Target at path " +:+ join "." path +:+
                           " is not an array or string")), h)
    else bind (new_value act current v) (λ newValue, set source path newValue) h.
Proof.
  intros Hact Hget Ha.
  assert (executeOperation source {| path := path; action_of := act; value_of := v |}
          = bind (get source path) (λ current,
              bind (validateAppendable current path) (λ _,
                bind (new_value act current v) (λ newValue,
                  set source path newValue)))) as ->.
  { by destruct Hact as [-> | ->]. }
  rewrite (bind_Return _ _ _ _ _ Hget). unfold validateAppendable.
  unfold bind at 1. unfold bind at 1. rewrite Ha.
  by destruct (negb a && negb (is_string current)).
Qed.

(** C6, as the code has it, on paths of plain keys: [append] and [prepend]
    resolve the current value at the path.  If it is neither a sequence nor
    text they throw the not-appendable error.  On text they throw the
    type-mismatch error unless the value is text too, and otherwise behave
    as [set] of the concatenation ([current + value] or [value + current])
    at the path: with the empty path the concatenation is returned; where
    the text is a property of a container the result reads as the
    concatenation at the path; and where the text is found inside a
    primitive -- a character of a text -- the host throws and nothing is
    written back.  On a sequence they return: they behave as [set], at the
    path, of a new sequence holding the elements followed (or preceded) by
    the value, the original sequence is left as it was, and the result reads
    as the new sequence at the path when the sequence is not one of its own
    ancestors. *)
Theorem append_prepend_spec act source path v current h :
  act = AAppend ∨ act = APrepend →
  heap_ok h → val_ok (length h) source → val_ok (length h) v →
  plain_path path = true →
  get source path h = Some (Return current, h) →
  let operation := {| path := path; action_of := act; value_of := v |} in
  ((∀ l es ns, current = VRef l → h !! l ≠ Some (OArr es ns)) →
   is_string current = false →
   executeOperation source operation h
   = Some (Throw (Err ("Target at path " +:+ join "." path +:+
                       " is not an array or string")), h)) ∧
  (∀ s, current = VStr s → is_string v = false →
   executeOperation source operation h
   = Some (Throw (Err "Can only append/prepend strings to strings"), h)) ∧
  (∀ s t, current = VStr s → v = VStr t →
   let newValue :=
     VStr (match act with AAppend => s +:+ t | _ => t +:+ s end) in
   executeOperation source operation h = set source path newValue h ∧
   (path = [] →
    executeOperation source operation h = Some (Return newValue, h)) ∧
   ∀ k rest, path = k :: rest →
     (writable h source k rest = true ∨ blocked h source k rest = true) ∧
     (writable h source k rest = true →
      ∃ l h',
        executeOperation source operation h = Some (Return (VRef l), h') ∧
        get (VRef l) path h' = Some (Return newValue, h') ∧
        (length h ≤ l)%nat ∧ h `prefix_of` h') ∧
     (blocked h source k rest = true →
      ∃ he h',
        executeOperation source operation h = Some (Throw (HostErr he), h') ∧
        h `prefix_of` h')) ∧
  (∀ l es ns, current = VRef l → h !! l = Some (OArr es ns) →
   let newValue :=
     OArr (match act with
           | AAppend => spread es ++ [Some v]
           | _ => Some v :: spread es
           end) [] in
   ∃ r h',
     executeOperation source operation h = Some (r, h') ∧
     set source path (VRef (length h)) (h ++ [newValue]) = Some (r, h') ∧
     (∃ l', r = Return (VRef l') ∧ (length h ≤ l')%nat) ∧
     h' !! l = Some (OArr es ns) ∧
     h' !! length h = Some newValue ∧
     (path ≠ [] → not_on_path h source path current →
      ∃ l', r = Return (VRef l') ∧ (length h < l')%nat ∧
            get (VRef l') path h' = Some (Return (VRef (length h)), h'))).
Proof.
  intros Hact Hok Hsrc Hv _ Hget operation.
  destruct (get_Some _ _ _ _ _ Hok Hsrc Hget) as (_ & x & [= <-] & Hcur).
  destruct (is_array_total current h Hok Hcur) as (a & Ha & Harr).
  pose proof (append_unfold act source path v current a h Hact Hget Ha) as Hexec.
  fold operation in Hexec. split_and!.
  - intros Hna Hns. rewrite Hexec, Hns.
    destruct a; [|done]. destruct Harr as [(l & es & ns & -> & Hl) _]; [done|].
    by destruct (Hna l es ns).
  - intros s -> Hvs. rewrite Hexec. simpl. rewrite andb_false_r.
    by destruct v.
  - intros s t -> -> newValue.
    assert (executeOperation source operation h = set source path newValue h)
      as Heq.
    { rewrite Hexec. simpl. rewrite andb_false_r. unfold newValue.
      by destruct Hact as [-> | ->]. }
    split_and!; [done|by intros ->|]. intros k rest ->. rewrite Heq.
    split_and!.
    + by eapply text_writable_or_blocked.
    + intros Hw.
      destruct (set_get source k rest newValue (VStr s) h) as (l & h' & ?);
        [done..| |by exists l, h'].
      by intros ? ? [=].
    + by apply set_blocked.
  - intros l es ns -> Hl o.
    assert (a = true) as -> by (apply Harr; by eexists _, _, _).
    assert (executeOperation source operation h
            = set source path (VRef (length h)) (h ++ [o])) as Heq.
    { rewrite Hexec. simpl. unfold bind at 1. unfold bind at 1. unfold load.
      rewrite Hl. unfold bind at 1. simpl. unfold o.
      by destruct Hact as [-> | ->]. }
    assert (heap_ok (h ++ [o])) as Hok1.
    { apply heap_ok_alloc; [done|]. split; [|by constructor].
      apply heap_ok_lookup in Hl as [Hes _]; [|done].
      apply (spread_all _ _ I) in Hes. unfold elems_all in *.
      destruct act; try (by constructor); apply Forall_app; split;
        by try constructor. }
    assert (val_ok (length (h ++ [o])) source) as Hsrc1.
    { eapply val_ok_mono; [|done]. rewrite length_app. lia. }
    assert (val_ok (length (h ++ [o])) (VRef (length h))) as Hv1.
    { simpl. rewrite length_app. simpl. lia. }
    assert (h `prefix_of` h ++ [o]) as Hpre0 by (by apply prefix_app_r).
    assert ((h ++ [o]) !! length h = Some o) as Hnew.
    { rewrite lookup_app_r by done. by rewrite Nat.sub_diag. }
    assert (∃ l' h', set source path (VRef (length h)) (h ++ [o])
                     = Some (Return (VRef l'), h') ∧ (length h ≤ l')%nat ∧
                     h ++ [o] `prefix_of` h') as (l1 & h' & Hset & Hl1 & Hpre).
    { destruct path as [|k rest]; [by exists (length h), (h ++ [o])|].
      destruct (set_writable source k rest (VRef (length h)) (h ++ [o]))
        as (l1 & h' & Hs & Hl1 & Hp); [done..| |].
      - eapply writable_prefix; [|done]. by eapply get_ref_writable.
      - exists l1, h'. split_and!; [done| |done].
        rewrite length_app in Hl1. lia. }
    exists (Return (VRef l1)), h'.
    split_and!; [by rewrite Heq|done|by exists l1|..].
    + eapply prefix_lookup_Some; [|done]. rewrite lookup_app_l; [done|].
      by eapply lookup_lt_Some.
    + by eapply prefix_lookup_Some.
    + intros Hpath Hself. destruct path as [|k rest]; [done|].
      destruct (set_get source k rest (VRef (length h)) (VRef l) (h ++ [o]))
        as (l' & h2 & Hset2 & Hread & Hl' & _); [done..| | | |].
      * eapply writable_prefix; [|done]. by eapply get_ref_writable.
      * by eapply get_prefix.
      * intros l0 j [= <-] Hj1 Hj2 Hj.
        destruct (get_total source (take j (k :: rest)) h Hok Hsrc)
          as (y & Hy & _).
        rewrite (get_prefix _ _ _ _ _ Hy Hpre0) in Hj. injection Hj as ->.
        by apply (Hself l j eq_refl Hj1 Hj2).
      * rewrite Hset in Hset2. injection Hset2 as -> ->.
        exists l'. split_and!; [done| |done].
        rewrite length_app in Hl'. simpl in Hl'. lia.
Qed.

(** * What a successful operation shares with the original *)


Lemma closed_but_prim n0 v h :
  (∀ l, v ≠ VRef l) → closed_but n0 v h → closed_above n0 h.
Proof.
  intros Hv Hcl l o Hl Ho. eapply obj_all_impl; [|by eapply Hcl].
  intros x [?| ->]; [done|]. by apply val_refs_on_refs.
Qed.

Lemma delete_wp source k0 rest v h :
  heap_ok h → val_ok (length h) source →
  wp (executeOperation source
        {| path := k0 :: rest; action_of := ADelete; value_of := v |}) h
     (λ r h',
        h `prefix_of` h' ∧ heap_ok h' ∧ closed_above (length h) h' ∧
        match r with
        | Return res => ∃ l, res = VRef l ∧ (length h ≤ l)%nat ∧ (l < length h')%nat
        | Throw _ => True
        end).
Proof.
  intros Hok Hsrc. unfold executeOperation. simpl path. simpl action_of.
  destruct (last (k0 :: rest)) as [k|] eqn:Hlast.
  2: { by apply last_None in Hlast. }
  apply wp_bind, wp_clone; [done..|].
  intros result m h1 Hren Hrel.
  pose proof (renaming_prefix m h h1 Hren) as Hpre.
  pose proof (renaming_heap_ok m h h1 Hok Hren) as Hok1.
  pose proof (renaming_closed m h h1 Hren) as Hcl1.
  destruct (val_rel_fresh m h h1 Hren source result Hrel) as [Hab Hres].
  set (parentPath := removelast (k0 :: rest)).
  assert (∃ target,
    (match parentPath with
     | [] => ret result
     | _ => get result parentPath
     end) h1 = Some (Return target, h1) ∧
    val_ok (length h1) target ∧ val_above (length h) target ∧
    ((∃ l, target = VRef l) → ∃ l, result = VRef l))
    as (target & Htarget & Htgt & Htab & Href).
  { destruct parentPath eqn:Hp; [by exists result|]. rewrite <-Hp.
    destruct (get_fresh m h h1 result parentPath Hok Hren Hab Hres)
      as (target & Ht & ? & ?).
    exists target. split_and!; [done..|]. intros [lt ->].
    destruct result; try by eexists.
    all: edestruct (get_prim) as (r & Hr & Hnr);
      [|rewrite Hr in Ht; injection Ht as ->; by destruct (Hnr lt)]; done. }
  apply wp_bind. eapply wp_intro; [done|]. cbv beta iota.
  destruct (is_nullish target); [apply wp_throw; by split_and!|].
  apply wp_bind. eapply wp_mono.
  { by apply (remove_key_wp (length h)). }
  intros r h' (Hfr & Hok' & Hlen & Hcl' & Hr).
  assert (h `prefix_of` h') as Hpre'.
  { apply frame_prefix. eapply frame_trans; [by apply prefix_frame|done]. }
  destruct r as [[]|]; [|by split_and!].
  apply wp_ret. split_and!; [done..|].
  destruct Href as [l ->]; [by apply Hr|]. exists l.
  simpl in Hab, Hres. split_and!; [done|done|lia].
Qed.

Lemma append_wp act source k rest v h :
  act = AAppend ∨ act = APrepend →
  heap_ok h → val_ok (length h) source → val_ok (length h) v →
  wp (executeOperation source
        {| path := k :: rest; action_of := act; value_of := v |}) h
     (λ r h',
        h `prefix_of` h' ∧
        (∀ l o, (length h ≤ l)%nat → h' !! l = Some o →
           obj_all (val_above (length h)) o ∨
           (l = length h ∧
            ∃ lc es ns,
              get source (k :: rest) h = Some (Return (VRef lc), h) ∧
              h !! lc = Some (OArr es ns) ∧
              o = OArr (match act with
                        | AAppend => spread es ++ [Some v]
                        | _ => Some v :: spread es
                        end) [])) ∧
        match r with
        | Return res => ∃ l, res = VRef l ∧ (length h ≤ l)%nat
        | Throw _ => True
        end).
Proof.
  intros Hact Hok Hsrc Hv.
  destruct (get_total source (k :: rest) h Hok Hsrc) as (current & Hget & Hcur).
  destruct (is_array_total current h Hok Hcur) as (a & Ha & Harr).
  match goal with |- wp _ _ ?Q => set (Post := Q) end.
  assert (∀ e, Post (Throw e) h) as Hpost.
  { intros e. split_and!; [done| |done].
    intros l o Hl Ho. apply lookup_lt_Some in Ho. lia. }
  assert (∀ e, wp (throw (A := value) e) h Post) as Hthrow.
  { intros e. by apply wp_throw. }
  unfold wp. rewrite (append_unfold act source (k :: rest) v current a h Hact Hget Ha).
  destruct (negb a && negb (is_string current)) eqn:Hcond; [apply Hthrow|].
  apply wp_bind. destruct current as [| | | |s|lc]; simpl;
    try (injection Ha as <-; simpl in Hcond; done).
  - (* text *)
    destruct v as [| | | |t|]; try (apply wp_throw, Hpost).
    apply wp_ret. eapply wp_mono; [by apply set_wp|].
    intros r h' (Hpre & _ & Hcl & Hr). split_and!; [done| |].
    + intros l o Hl Ho. left.
      assert (closed_above (length h) h') as Hcl'; [|by eapply Hcl'].
      by eapply closed_but_prim; [|exact Hcl].
    + destruct r; [|done]. destruct Hr as (l & -> & ? & _). by exists l.
  - (* sequence *)
    assert (a = true) as ->.
    { destruct a; [done|]. by rewrite andb_true_r in Hcond. }
    destruct Harr as [(l0 & es & ns & [= <-] & Hl) _]; [done|].
    apply wp_bind. eapply wp_load; [done|]. apply wp_bind, wp_alloc, wp_ret.
    set (o := OArr _ []).
    assert (heap_ok (h ++ [o])) as Hok1.
    { apply heap_ok_alloc; [done|]. split; [|by constructor].
      apply heap_ok_lookup in Hl as [Hes _]; [|done].
      apply (spread_all _ _ I) in Hes. unfold o, elems_all in *.
      destruct act; try (by constructor); apply Forall_app; split;
        by try constructor. }
    eapply wp_mono.
    { apply (set_wp source k rest (VRef (length h))); [done|..].
      - eapply val_ok_mono; [|done]. rewrite length_app. lia.
      - simpl. rewrite length_app. simpl. lia. }
    rewrite length_app. simpl.
    intros r h' (Hpre & _ & Hcl & Hr). split_and!.
    + etrans; [|done]. by apply prefix_app_r.
    + intros l o' Hl' Ho'. destruct (decide (l = length h)) as [->|Hne].
      * right. split; [done|]. exists lc, es, ns. split_and!; [done..|].
        assert ((h ++ [o]) !! length h = Some o) as Hn.
        { rewrite lookup_app_r by done. by rewrite Nat.sub_diag. }
        rewrite (prefix_lookup_Some _ _ _ _ Hn Hpre) in Ho'. by injection Ho' as <-.
      * left. eapply obj_all_impl; [|eapply (Hcl l o'); [lia|done]].
        intros x [Hx| ->]; [|simpl; lia].
        eapply val_refs_impl; [|exact Hx]. simpl. lia.
    + destruct r; [|done]. destruct Hr as (l & -> & ? & _). exists l.
      split; [done|lia].
Qed.

(** Containers reachable from a new container are new, unless they are
    reached through a slot that holds [v]. *)
Lemma reach_closed_but n0 v h' q : ∀ cur l,
  closed_but n0 v h' → val_above n0 cur →
  get cur q h' = Some (Return (VRef l), h') →
  (n0 ≤ l)%nat ∨
  ∃ j, (1 ≤ j)%nat ∧ (j ≤ length q)%nat ∧
       get cur (take j q) h' = Some (Return v, h').
Proof.
  induction q as [|k q IH]; intros cur l Hcl Hab Hget.
  - injection Hget as ->. by left.
  - destruct (get_ref_from_ref _ _ _ _ _ Hget) as [c ->].
    destruct (h' !! c) as [o|] eqn:Hc.
    2: { simpl in Hget. unfold bind, load in Hget. by rewrite Hc in Hget. }
    rewrite (get_cons_ref c o k _ h' Hc) in Hget.
    assert (val_above n0 (obj_get o k) ∨ obj_get o k = v) as [Hnext|Hnext].
    { apply (obj_get_all (λ x, val_above n0 x ∨ x = v)); [|by eapply Hcl].
      intros x Hx. left. by apply val_refs_on_refs. }
    + destruct (IH _ _ Hcl Hnext Hget) as [?|(j & ? & ? & Hj)]; [by left|].
      right. exists (S j). split_and!; [lia|simpl; lia|].
      by rewrite firstn_cons, (get_cons_ref c o k _ h' Hc).
    + right. exists 1%nat. split_and!; [lia|simpl; lia|].
      rewrite firstn_cons, take_0, (get_cons_ref c o k _ h' Hc). by rewrite Hnext.
Qed.

(** Containers reachable from a new container are new, unless they are
    reached through the container at [s]. *)
Lemma reach_closed_except n0 s h' q : ∀ cur l,
  (∀ a o, (n0 ≤ a)%nat → a ≠ s → h' !! a = Some o → obj_all (val_above n0) o) →
  val_above n0 cur →
  get cur q h' = Some (Return (VRef l), h') →
  (n0 ≤ l)%nat ∨
  ∃ j, (j < length q)%nat ∧ is_Some (h' !! s) ∧
       get cur (take j q) h' = Some (Return (VRef s), h').
Proof.
  induction q as [|k q IH]; intros cur l Hcl Hab Hget.
  - injection Hget as ->. by left.
  - destruct (get_ref_from_ref _ _ _ _ _ Hget) as [c ->].
    destruct (h' !! c) as [o|] eqn:Hc.
    2: { simpl in Hget. unfold bind, load in Hget. by rewrite Hc in Hget. }
    destruct (decide (c = s)) as [->|Hcs].
    { right. exists 0%nat. split_and!; [simpl; lia|by eexists|done]. }
    rewrite (get_cons_ref c o k _ h' Hc) in Hget.
    assert (val_above n0 (obj_get o k)) as Hnext.
    { apply obj_get_all; [apply val_refs_on_refs|]. by eapply Hcl. }
    destruct (IH _ _ Hcl Hnext Hget) as [?|(j & ? & ? & Hj)]; [by left|].
    right. exists (S j). split_and!; [simpl; lia|done|].
    by rewrite firstn_cons, (get_cons_ref c o k _ h' Hc).
Qed.

(** Containers reachable from a new container are new when every new
    container holds new containers only. *)
Lemma reach_closed_above n0 h' q : ∀ cur l,
  closed_above n0 h' → val_above n0 cur →
  get cur q h' = Some (Return (VRef l), h') → (n0 ≤ l)%nat.
Proof.
  induction q as [|k q IH]; intros cur l Hcl Hab Hget.
  - by injection Hget as ->.
  - destruct (get_ref_from_ref _ _ _ _ _ Hget) as [c ->].
    destruct (h' !! c) as [o|] eqn:Hc.
    2: { simpl in Hget. unfold bind, load in Hget. by rewrite Hc in Hget. }
    rewrite (get_cons_ref c o k _ h' Hc) in Hget.
    apply (IH (obj_get o k)); [done| |done].
    apply obj_get_all; [apply val_refs_on_refs|]. by eapply Hcl.
Qed.


(** C2, as the code has it: a successful operation with a path that is not
    empty leaves every object of the original store as it was and returns a
    container of its own.  A container reachable in the result is either
    allocated by the operation, or it is the written value or reached through
    it: the supplied value itself for [set] (it is stored, not copied), and
    the new sequence for [append] and [prepend], which holds the elements of
    the original sequence themselves.  So after a [delete], or a [set] of a
    scalar, no container reachable in the result belongs to the original
    store. *)
Theorem operation_sharing source operation h result h' :
  heap_ok h → val_ok (length h) source →
  val_ok (length h) (value_of operation) → path operation ≠ [] →
  executeOperation source operation h = Some (Return result, h') →
  h `prefix_of` h' ∧
  (∃ l, result = VRef l ∧ (length h ≤ l)%nat) ∧
  (∀ q l, get result q h' = Some (Return (VRef l), h') →
     (length h ≤ l)%nat ∨
     match action_of operation with
     | ASet =>
         ∃ j, (1 ≤ j)%nat ∧ (j ≤ length q)%nat ∧
              get result (take j q) h' = Some (Return (value_of operation), h')
     | AAppend | APrepend =>
         ∃ j lc es ns,
           (j < length q)%nat ∧
           get result (take j q) h' = Some (Return (VRef (length h)), h') ∧
           get source (path operation) h = Some (Return (VRef lc), h) ∧
           h !! lc = Some (OArr es ns) ∧
           h' !! length h
           = Some (OArr (match action_of operation with
                         | AAppend => spread es ++ [Some (value_of operation)]
                         | _ => Some (value_of operation) :: spread es
                         end) [])
     | _ => False
     end) ∧
  ((action_of operation = ADelete ∨
    (action_of operation = ASet ∧ ∀ l, value_of operation ≠ VRef l)) →
   ∀ q l, get result q h' = Some (Return (VRef l), h') → (length h ≤ l)%nat).
Proof.
  intros Hok Hsrc Hv Hpath Hexec.
  destruct operation as [[|k rest] act v]; [done|]. simpl in *.
  assert (∀ act', act' = AAppend ∨ act' = APrepend →
    executeOperation source {| path := k :: rest; action_of := act'; value_of := v |} h
    = Some (Return result, h') →
    h `prefix_of` h' ∧ (∃ l, result = VRef l ∧ (length h ≤ l)%nat) ∧
    ∀ q l, get result q h' = Some (Return (VRef l), h') →
      (length h ≤ l)%nat ∨
      ∃ j lc es ns,
        (j < length q)%nat ∧
        get result (take j q) h' = Some (Return (VRef (length h)), h') ∧
        get source (k :: rest) h = Some (Return (VRef lc), h) ∧
        h !! lc = Some (OArr es ns) ∧
        h' !! length h
        = Some (OArr (match act' with
                      | AAppend => spread es ++ [Some v]
                      | _ => Some v :: spread es
                      end) [])) as Happend.
  { intros act' Hact' Hexec'.
    pose proof (wp_elim _ _ _ _ _
      (append_wp act' source k rest v h Hact' Hok Hsrc Hv) Hexec')
      as (Hpre & Hcl & l0 & -> & Hl0).
    split_and!; [done|by exists l0|].
    intros q l Hget.
    destruct (h' !! length h) as [o|] eqn:Ho.
    2: { left. apply (reach_closed_above (length h) h' q (VRef l0)); [|done..].
         intros a o Ha Hao. destruct (Hcl a o Ha Hao) as [?|[-> _]]; [done|].
         by rewrite Ho in Hao. }
    destruct (Hcl _ o (le_n _) Ho) as [Hnew|(_ & lc & es & ns & ? & ? & ->)].
    { left. apply (reach_closed_above (length h) h' q (VRef l0)); [|done..].
      intros a o' Ha Hao. destruct (Hcl a o' Ha Hao) as [?|[-> _]]; [done|].
      rewrite Ho in Hao. by injection Hao as <-. }
    destruct (reach_closed_except (length h) (length h) h' q (VRef l0) l)
      as [?|(j & Hj & _ & Hjget)]; [|done|done|by left|].
    { intros a o Ha Hne Hao. destruct (Hcl a o Ha Hao) as [?|[-> _]]; done. }
    right. by exists j, lc, es, ns. }
  destruct act.
  - (* set *)
    pose proof (wp_elim _ _ _ _ _ (set_wp source k rest v h Hok Hsrc Hv) Hexec)
      as (Hpre & Hok' & Hcl & l & -> & Hl & Hl').
    split_and!; [done|by exists l| |].
    + intros q l1 Hget. by eapply reach_closed_but.
    + intros [[=]|[_ Hprim]] q l1 Hget.
      apply (reach_closed_above (length h) h' q (VRef l)); [|done..].
      by eapply closed_but_prim.
  - (* append *)
    destruct (Happend AAppend (or_introl eq_refl) Hexec) as (? & ? & ?).
    split_and!; [done..|]. by intros [[=]|[[=] _]].
  - (* prepend *)
    destruct (Happend APrepend (or_intror eq_refl) Hexec) as (? & ? & ?).
    split_and!; [done..|]. by intros [[=]|[[=] _]].
  - (* delete *)
    pose proof (wp_elim _ _ _ _ _ (delete_wp source k rest v h Hok Hsrc) Hexec)
      as (Hpre & Hok' & Hcl & l & -> & Hl & Hl').
    split_and!; [done|by exists l| |].
    + intros q l1 Hget. left.
      by apply (reach_closed_above (length h) h' q (VRef l)).
    + intros _ q l1 Hget.
      by apply (reach_closed_above (length h) h' q (VRef l)).
  - by unfold executeOperation in Hexec.
Qed.

(** * When [set] returns *)

Lemma clone_no_throw v h e h' : clone v h ≠ Some (Throw e, h').
Proof. unfold clone. by destruct (clone_value _ _ _ _) as [[[??]?]|]. Qed.

Lemma has_property_host k cur h e h' :
  has_property k cur h = Some (Throw e, h') → ∃ he, e = HostErr he.
Proof.
  destruct cur; simpl; try (intros [= <- _]; by eexists).
  unfold bind, load. by destruct (h !! l).
Qed.

Lemma get_property_host cur k h e h' :
  get_property cur k h = Some (Throw e, h') → ∃ he, e = HostErr he.
Proof.
  destruct cur; simpl; try (intros [= <- _]; by eexists); try done.
  unfold bind, load. by destruct (h !! l).
Qed.

Lemma set_property_host cur k v h e h' :
  set_property cur k v h = Some (Throw e, h') → ∃ he, e = HostErr he.
Proof.
  destruct cur; simpl; try (intros [= <- _]; by eexists).
  unfold bind, load, store. destruct (h !! l) as [o|]; [|done].
  destruct (obj_set h o k v); [intros [= <- _]; by eexists|].
  by destruct (_ !! l).
Qed.

(** The loop of [set] only fails with errors of the host. *)
Lemma set_walk_host rest : ∀ cur k v h e h',
  set_walk cur k rest v h = Some (Throw e, h') → ∃ he, e = HostErr he.
Proof.
  induction rest as [|nextKey rest IH]; intros cur k v h e h'; simpl.
  - apply set_property_host.
  - intros [(present & h1 & _ & H)|(e0 & H & [= <-])]%bind_Some;
      [|by eapply has_property_host].
    apply bind_Some in H as [([] & h2 & _ & H)|(e0 & H & [= <-])].
    + apply bind_Some in H as [(next & h3 & _ & H)|(e0 & H & [= <-])];
        [by eapply IH|by eapply get_property_host].
    + destruct present; [done|].
      apply bind_Some in H as [(c & h3 & _ & H)|(e1 & H & _)]; [|done].
      by eapply set_property_host.
Qed.

Lemma set_host obj path v h e h' :
  set obj path v h = Some (Throw e, h') → ∃ he, e = HostErr he.
Proof.
  destruct path as [|k rest]; simpl; [done|].
  intros [(result & h1 & _ & H)|(e0 & H & _)]%bind_Some;
    [|by apply clone_no_throw in H].
  apply bind_Some in H as [([] & h2 & _ & H)|(e0 & H & [= <-])]; [done|].
  by eapply set_walk_host.
Qed.

(** C3, as the code has it, on paths of plain keys: [set] with the empty
    path returns the value.  With another path it returns a new document
    whenever every node that exists along the path is a container and the
    last key is not the length of a sequence (missing nodes are
    materialised); and whenever a node that exists along the path, or the
    document itself, is a primitive, [null] or [undefined], it throws an
    error of the host, that of [in] or of the assignment.  When it fails,
    the failure is an error of the host, never one of the library. *)
Theorem set_outcomes obj path v h :
  heap_ok h → val_ok (length h) obj → val_ok (length h) v →
  plain_path path = true →
  match path with
  | [] => set obj path v h = Some (Return v, h)
  | k :: rest =>
      (writable h obj k rest = true →
       ∃ l h', set obj path v h = Some (Return (VRef l), h') ∧
               (length h ≤ l)%nat ∧ h `prefix_of` h') ∧
      (blocked h obj k rest = true →
       ∃ he h', set obj path v h = Some (Throw (HostErr he), h') ∧
                h `prefix_of` h')
  end ∧
  (∀ e h', set obj path v h = Some (Throw e, h') → ∃ he, e = HostErr he).
Proof.
  intros Hok Hobj Hv _. split; [|intros e h'; apply set_host].
  destruct path as [|k rest]; [done|]. split.
  - by apply set_writable.
  - by apply set_blocked.
Qed.

(** C7, as the code has it, on paths of plain keys: wherever the loop of
    [set] reaches a container that lacks its key, it creates a new container
    for every remaining key of the path but the last -- a sequence when the
    next key is a number, a map otherwise -- and stores the value under the
    last key.  So [set], below a path of containers that exist and the last
    of which lacks the next key, returns a document in which that path leads
    to a container whose key holds the chain of new containers, and the
    whole path reads as the value.  In particular, writing ["John"] at
    [["users", 0, "name"]] into the empty map yields
    [{users: [{name: "John"}]}]. *)
Theorem set_materialises :
  (∀ rest l o k v h,
    h !! l = Some o → obj_has o k = false → plain_path (k :: rest) = true →
    ∃ h' o',
      set_walk (VRef l) k rest v h = Some (Return tt, h') ∧
      h' !! l = Some o' ∧ materialised h' (obj_get o' k) rest v) ∧
  (∀ obj pre c o k rest v h,
    heap_ok h → val_ok (length h) obj → val_ok (length h) v →
    plain_path (pre ++ k :: rest) = true →
    get obj pre h = Some (Return (VRef c), h) →
    h !! c = Some o → obj_has o k = false →
    ∃ l' h' c' o',
      set obj (pre ++ k :: rest) v h = Some (Return (VRef l'), h') ∧
      get (VRef l') pre h' = Some (Return (VRef c'), h') ∧
      h' !! c' = Some o' ∧ materialised h' (obj_get o' k) rest v ∧
      get (VRef l') (pre ++ k :: rest) h' = Some (Return v, h') ∧
      (length h ≤ l')%nat ∧ (length h ≤ c')%nat ∧ h `prefix_of` h') ∧
  (∃ result h',
    set (VRef 0%nat) [KStr "users"; KNum 0; KStr "name"] (VStr "John") [OObj []]
    = Some (Return result, h') ∧
    unfold 3 h' result
    = TObj [("users", TArr [Some (TObj [("name", TLeaf (VStr "John"))])] [])]).
Proof.
  split_and!.
  - intros rest l o k v h Hl Hhas _.
    destruct (set_walk_absent rest l o k v h Hl Hhas)
      as (h' & o' & Hwalk & Ho' & _ & Hchain & _).
    by exists h', o'.
  - intros obj pre c o k rest v h Hok Hobj Hv _. by apply set_absent_below.
  - by eexists _, _.
Qed.

(** * The messages of failures *)

Lemma list_ascii_of_app a b :
  String.list_ascii_of_string (a +:+ b) = String.list_ascii_of_string a ++ String.list_ascii_of_string b.
Proof. induction a as [|c a IH]; simpl; [done|]. by rewrite IH. Qed.

(** Two texts that end differently differ, whatever precedes the endings. *)
Lemma app_suffix_ne a b s t n :
  take n (reverse (String.list_ascii_of_string s)) ≠ take n (reverse (String.list_ascii_of_string t)) →
  (n ≤ String.length s)%nat → (n ≤ String.length t)%nat →
  a +:+ s ≠ b +:+ t.
Proof.
  intros Hne Hs Ht Heq. apply Hne.
  assert (∀ x, String.length x = length (String.list_ascii_of_string x)) as Hlen.
  { induction x; simpl; congruence. }
  apply (f_equal String.list_ascii_of_string) in Heq.
  rewrite !list_ascii_of_app in Heq.
  apply (f_equal reverse) in Heq. rewrite !reverse_app in Heq.
  apply (f_equal (take n)) in Heq.
  rewrite !take_app_le in Heq by (rewrite length_reverse, <-Hlen; lia).
  done.
Qed.

Lemma failure_message_kind f f' :
  failure_message f = failure_message f' → kind_of f = kind_of f'.
Proof.
  destruct f, f'; simpl; intros H; try reflexivity; exfalso;
    try discriminate H;
    repeat (injection H as H);
    match type of H with "" +:+ ?x = "" +:+ ?y => change (x = y) in H end;
    revert H;
    first
      [ by apply (app_suffix_ne _ _ _ _ 1); [vm_compute|simpl; lia..]
      | by apply (app_suffix_ne _ _ _ _ 8); [vm_compute|simpl; lia..] ].
Qed.

Lemma get_host path : ∀ v h e h',
  get v path h = Some (Throw e, h') → ∃ he, e = HostErr he.
Proof.
  induction path as [|k path IH]; intros v h e h'; simpl; [done|].
  destruct (is_nullish v); [done|].
  intros [(current & h1 & _ & H)|(e0 & H & [= <-])]%bind_Some;
    [by eapply IH|by eapply get_property_host].
Qed.

Lemma is_array_no_throw v h e h' : is_array v h ≠ Some (Throw e, h').
Proof.
  destruct v; simpl; try done. unfold bind, load. by destruct (h !! l).
Qed.

Lemma new_value_failure act current v h e h' :
  new_value act current v h = Some (Throw e, h') →
  (∃ he, e = HostErr he) ∨ e = Err (failure_message TypeMismatch).
Proof.
  destruct current; simpl; try (intros [= <- _]; left; by eexists).
  - destruct v; try (intros [= <- _]; by right).
  - unfold bind, load. destruct (h !! l) as [[]|]; try done.
    intros [= <- _]. left. by eexists.
Qed.

Lemma remove_key_failure target k parentPath h e h' :
  remove_key target k parentPath h = Some (Throw e, h') →
  e = Err (failure_message (NotContainer parentPath)) ∨
  ∃ s, k = KStr s ∧ e = Err (failure_message (InvalidIndex s)).
Proof.
  destruct target; simpl; try (intros [= <- _]; by left).
  unfold bind, load, store. destruct (h !! l) as [[es ns|fs]|] eqn:Hl; try done.
  - destruct k as [s|z]; [intros [= <- _]; right; by exists s|]. by rewrite Hl.
  - by rewrite Hl.
Qed.

(** Every failure of an operation is an error of the host or one of the
    failures of the library that belong to the operation. *)
Lemma executeOperation_failure source operation h e h' :
  executeOperation source operation h = Some (Throw e, h') →
  (∃ he, e = HostErr he) ∨
  ∃ f, e = Err (failure_message f) ∧ failure_of operation f.
Proof.
  destruct operation as [p act v].
  assert (∀ act', (act' = AAppend ∨ act' = APrepend) →
    bind (get source p) (λ current,
      bind (validateAppendable current p) (λ _,
        bind (new_value act' current v) (λ newValue, set source p newValue))) h
    = Some (Throw e, h') →
    (∃ he, e = HostErr he) ∨
    ∃ f, e = Err (failure_message f) ∧
         failure_of {| path := p; action_of := act'; value_of := v |} f) as Happend.
  { intros act' Hact'.
    intros [(current & h1 & _ & H)|(e0 & H & [= <-])]%bind_Some;
      [|left; by eapply get_host].
    apply bind_Some in H as [([] & h2 & _ & H)|(e0 & H & [= <-])].
    - apply bind_Some in H as [(nv & h3 & _ & H)|(e0 & H & [= <-])].
      + left. by eapply set_host.
      + apply new_value_failure in H as [?| ->]; [by left|].
        right. by exists TypeMismatch.
    - unfold validateAppendable in H.
      apply bind_Some in H as [(a & h2 & _ & H)|(e1 & H & _)];
        [|by apply is_array_no_throw in H].
      destruct (negb a && negb (is_string current)); [|done].
      injection H as <- _. right. by exists (NotAppendable p). }
  destruct act; unfold executeOperation; simpl.
  - intros H. left. by eapply set_host.
  - apply Happend. by left.
  - apply Happend. by right.
  - destruct (last p) as [k|] eqn:Hlast.
    2: { intros [= <- _]. right. exists RootDeletion.
         split; [done|]. by apply last_None in Hlast. }
    intros [(result & h1 & _ & H)|(e0 & H & _)]%bind_Some;
      [|by apply clone_no_throw in H].
    apply bind_Some in H as [(target & h2 & _ & H)|(e0 & H & [= <-])].
    + destruct (is_nullish target).
      { injection H as <- _. right. by exists (MissingParent (removelast p)). }
      apply bind_Some in H as [([] & h3 & _ & H)|(e0 & H & [= <-])]; [done|].
      apply remove_key_failure in H as [->|(s & -> & ->)]; right.
      * by exists (NotContainer (removelast p)).
      * by exists (InvalidIndex s).
    + left. destruct (removelast p); [done|]. by eapply get_host.
  - intros [= <- _]. right. by exists (UnknownOperation tag).
Qed.

(** C4, as the code has it: a failure of an operation is an error of the
    host, or one of the library's own, whose message has one of nine shapes.
    Not-appendable mentions the path, missing-parent and not-a-container the
    parent path, each with its keys joined by dots; invalid-index mentions
    only the offending key; root-deletion and type-mismatch mention no path.
    The validators raise not-an-array and not-a-string with the path.
    Messages of different kinds are never equal. *)
Theorem failure_messages :
  (∀ source operation h e h',
    executeOperation source operation h = Some (Throw e, h') →
    (∃ he, e = HostErr he) ∨
    ∃ f, e = Err (failure_message f) ∧ failure_of operation f) ∧
  (∀ v path h e h',
    validateArray v path h = Some (Throw e, h') →
    e = Err ("Target at path " +:+ join "." path +:+ " is not an array")) ∧
  (∀ v path h e h',
    validateString v path h = Some (Throw e, h') →
    e = Err ("Target at path " +:+ join "." path +:+ " is not a string")) ∧
  (∀ f f', failure_message f = failure_message f' → kind_of f = kind_of f').
Proof.
  split_and!.
  - apply executeOperation_failure.
  - intros v path h e h'. unfold validateArray.
    intros [(a & h1 & _ & H)|(e0 & H & _)]%bind_Some;
      [|by apply is_array_no_throw in H].
    destruct a; [done|]. by injection H as <- _.
  - intros v path h e h'. unfold validateString.
    destruct (is_string v); [done|]. by intros [= <- _].
  - apply failure_message_kind.
Qed.

(** * Further properties of [get] *)

Lemma get_property_step v k h r h' :
  is_nullish v = false → get_property v k h = Some (r, h') →
  h' = h ∧ ∃ x, r = Return x.
Proof.
  destruct v; simpl; try done; intros _;
    try (intros [= <- <-]; split; [done|by eexists]).
  unfold bind, load. destruct (h !! l); [|done].
  intros [= <- <-]. split; [done|by eexists].
Qed.



(** X2: reading along a path of plain keys composes: the value at [p ++ q]
    is the value at [q] of the value at [p].  Once the value at [p] is
    [null] or [undefined] every longer path reads [undefined], and so does
    every path that continues with a key the container at [p] does not
    have. *)
Theorem get_composes v p q h x :
  plain_path (p ++ q) = true →
  get v p h = Some (Return x, h) →
  get v (p ++ q) h = get x q h ∧
  (is_nullish x = true → q ≠ [] → get v (p ++ q) h = Some (Return VUndef, h)) ∧
  (∀ l o k q', x = VRef l → h !! l = Some o → obj_has o k = false →
     q = k :: q' → get v (p ++ q) h = Some (Return VUndef, h)).
Proof.
  intros _ Hget. pose proof (get_app p v q h x Hget) as Happ. split_and!.
  - done.
  - intros Hn Hq. rewrite Happ. destruct q as [|k q']; [done|].
    simpl. by rewrite Hn.
  - intros l o k q' -> Hl Hhas ->. rewrite Happ.
    rewrite (get_cons_ref l o k q' h Hl), (obj_has_false_get o k Hhas).
    by destruct q'.
Qed.

(** * Further properties of [set], of one operation and of a batch *)

(** X3: what [set] writes, [get] reads back, on paths of plain keys.  When
    every node that exists along the path is a container, the last key is not the length of a
    sequence and the container found at the path is not one of its own
    ancestors, the result of [set] reads as the value at the path, while the
    original still reads as before. *)
Theorem set_then_get obj k rest v old h :
  heap_ok h → val_ok (length h) obj → val_ok (length h) v →
  plain_path (k :: rest) = true →
  writable h obj k rest = true →
  get obj (k :: rest) h = Some (Return old, h) →
  not_on_path h obj (k :: rest) old →
  ∃ l h',
    set obj (k :: rest) v h = Some (Return (VRef l), h') ∧
    get (VRef l) (k :: rest) h' = Some (Return v, h') ∧
    get obj (k :: rest) h' = Some (Return old, h') ∧
    (length h ≤ l)%nat.
Proof.
  intros Hok Hobj Hv _ Hw Hold Hself.
  destruct (set_get obj k rest v old h Hok Hobj Hv Hw Hold Hself)
    as (l & h' & Hset & Hread & Hl & Hpre).
  exists l, h'. split_and!; [done..| |done]. by eapply get_prefix.
Qed.

(** X4: an operation of any kind with a path of plain keys, on any
    document, comes to an end: it returns or it throws.  Either way every object of the store it
    started from is as it was, so the source denotes the same document as
    before, and the store it leaves is well formed. *)
Theorem operation_leaves_source source operation h :
  heap_ok h → val_ok (length h) source →
  val_ok (length h) (value_of operation) →
  plain_path (path operation) = true →
  ∃ r h',
    executeOperation source operation h = Some (r, h') ∧
    h `prefix_of` h' ∧ heap_ok h' ∧
    same_document h source h' source ∧
    match r with
    | Return result => val_ok (length h') result
    | Throw _ => True
    end.
Proof.
  intros Hok Hsrc Hv _.
  destruct (executeOperation_wp source operation h Hok Hsrc Hv)
    as (r & h' & Hexec & Hpre & Hok' & Hr).
  exists r, h'. split_and!; [done..| |done].
  intros n. symmetry. by apply unfold_prefix_of.
Qed.



(** * Further properties of [delete] *)

(** [delete] up to the removal proper: the document is copied and the
    parent is looked up in the copy. *)
Lemma delete_unfold source parentPath k v target h :
  heap_ok h → val_ok (length h) source →
  get source parentPath h = Some (Return target, h) →
  ∃ result m h1 target',
    clone source h = Some (Return result, h1) ∧ renaming m h h1 ∧
    val_rel m source result ∧ val_rel m target target' ∧
    get result parentPath h1 = Some (Return target', h1) ∧
    executeOperation source
      {| path := parentPath ++ [k]; action_of := ADelete; value_of := v |} h
    = if is_nullish target
      then Some (Throw (Err ("Parent path " +:+ join "." parentPath +:+
                             " does not exist")), h1)
      else bind (remove_key target' k parentPath) (λ _, ret result) h1.
Proof.
  intros Hok Hsrc Hget.
  destruct (clone_renaming h source Hok Hsrc) as (result & m & h1 & Hc & Hren & Hrel).
  destruct (get_rel m h h1 parentPath source result Hok Hren Hrel)
    as (r & target' & Hr & Hr' & Hrr).
  rewrite Hget in Hr. injection Hr as <-.
  exists result, m, h1, target'. split_and!; [done..|].
  unfold executeOperation. simpl.
  rewrite last_snoc_key, removelast_last.
  rewrite (bind_Return _ _ _ _ _ Hc).
  assert ((match parentPath with [] => ret result | _ => get result parentPath end) h1
          = Some (Return target', h1)) as Htarget.
  { destruct parentPath; [|done]. simpl in Hr'. by injection Hr' as ->. }
  rewrite (bind_Return _ _ _ _ _ Htarget).
  rewrite (val_rel_nullish m target target' Hrr).
  by destruct (is_nullish target).
Qed.

(** When [delete] returns, it returns a new container. *)
Lemma delete_returns source parentPath k v h result h' :
  heap_ok h → val_ok (length h) source →
  executeOperation source
    {| path := parentPath ++ [k]; action_of := ADelete; value_of := v |} h
  = Some (Return result, h') →
  h `prefix_of` h' ∧ ∃ l, result = VRef l ∧ (length h ≤ l)%nat.
Proof.
  intros Hok Hsrc Hex. destruct (parentPath ++ [k]) as [|k0 rest] eqn:Hpath.
  { by destruct parentPath. }
  pose proof (wp_elim _ _ _ _ _ (delete_wp source k0 rest v h Hok Hsrc) Hex)
    as (Hpre' & _ & _ & l & -> & Hl & _).
  split; [done|]. by exists l.
Qed.

(** X6: when [delete] returns and when it throws.  With [parentPath] the
    path without its last key, made of plain keys: if the parent is [null], [undefined] or
    missing, [delete] throws the missing-parent error; if it is a boolean, a
    number or a text, the not-a-container error; if it is a sequence and the
    last key is a string -- even one that spells a number -- the
    invalid-index error; in every other case, a map with any key or a
    sequence with a number, it returns a new document. *)
Theorem delete_outcomes source parentPath k v target h :
  heap_ok h → val_ok (length h) source →
  plain_path parentPath = true →
  get source parentPath h = Some (Return target, h) →
  ∃ r h',
    executeOperation source
      {| path := parentPath ++ [k]; action_of := ADelete; value_of := v |} h
    = Some (r, h') ∧
    h `prefix_of` h' ∧
    match target with
    | VUndef | VNull =>
        r = Throw (Err ("Parent path " +:+ join "." parentPath +:+
                        " does not exist"))
    | VBool _ | VNum _ | VStr _ =>
        r = Throw (Err ("Cannot delete from non-object at " +:+
                        join "." parentPath))
    | VRef c =>
        match h !! c, k with
        | Some (OArr _ _), KStr s =>
            r = Throw (Err ("Invalid array index: " +:+ s))
        | Some _, _ => ∃ l, r = Return (VRef l) ∧ (length h ≤ l)%nat
        | None, _ => False
        end
    end.
Proof.
  intros Hok Hsrc _ Hget.
  destruct (delete_unfold source parentPath k v target h Hok Hsrc Hget)
    as (result & m & h1 & target' & Hc & Hren & Hrel & Hrr & Hget' & Hexec).
  pose proof (renaming_prefix m h h1 Hren) as Hpre.
  destruct target as [| |b|z|s|c]; simpl in Hrr; subst; simpl in Hexec;
    try (eexists _, _; split_and!; [exact Hexec|done|done]).
  destruct Hrr as (c' & -> & Hc').
  apply (renaming_lookup m h h1 Hren) in Hc'
    as (_ & _ & _ & o & o1 & Ho & Ho1 & Hoo).
  rewrite Ho.
  unfold bind at 1 in Hexec. simpl in Hexec. unfold bind at 1, load in Hexec.
  rewrite Ho1 in Hexec.
  destruct o as [es ns|fs], o1 as [es1 ns1|fs1]; try done.
  - destruct k as [s|z].
    + eexists _, _. split_and!; [exact Hexec|done|done].
    + simpl in Hexec. unfold store in Hexec. rewrite Ho1 in Hexec.
      destruct (delete_returns _ _ _ _ _ _ _ Hok Hsrc Hexec) as (? & l & -> & ?).
      eexists _, _. split_and!; [done..|]. by exists l.
  - simpl in Hexec. unfold store in Hexec. rewrite Ho1 in Hexec.
    destruct (delete_returns _ _ _ _ _ _ _ Hok Hsrc Hexec) as (? & l & -> & ?).
    eexists _, _. split_and!; [done..|]. destruct k; by exists l.
Qed.

(** ** What the removal leaves *)

Lemma field_lookup_delete s fs : field_lookup s (field_delete s fs) = None.
Proof.
  induction fs as [|[s' v'] fs IH]; simpl; [done|].
  case_decide; [done|]. simpl. by rewrite decide_False.
Qed.

Lemma field_lookup_delete_ne s s2 fs :
  s ≠ s2 → field_lookup s2 (field_delete s fs) = field_lookup s2 fs.
Proof.
  intros Hne. induction fs as [|[s' v'] fs IH]; simpl; [done|].
  destruct (decide (s' = s)) as [->|]; simpl.
  - by rewrite decide_False.
  - by rewrite IH.
Qed.

(** After a field is removed from a map, every path that led to the map
    and continues with the key of the field reads [undefined]. *)
Lemma get_deleted h1 c' fs1 k pre : ∀ cur,
  h1 !! c' = Some (OObj fs1) →
  get cur pre h1 = Some (Return (VRef c'), h1) →
  let h' := <[c' := OObj (field_delete (key_to_string k) fs1)]> h1 in
  get cur (pre ++ [k]) h' = Some (Return VUndef, h').
Proof.
  intros cur Hc' Hget h'.
  assert (h' !! c' = Some (OObj (field_delete (key_to_string k) fs1))) as Hc1.
  { apply list_lookup_insert_eq. by eapply lookup_lt_Some. }
  revert cur Hget. induction pre as [|p pre IH]; intros cur Hget.
  - injection Hget as ->. rewrite app_nil_l.
    rewrite (get_cons_ref c' _ k [] h' Hc1). simpl.
    by rewrite field_lookup_delete.
  - destruct (get_ref_from_ref _ _ _ _ _ Hget) as [c0 ->].
    destruct (h1 !! c0) as [o0|] eqn:Hc0.
    2: { simpl in Hget. unfold bind, load in Hget. by rewrite Hc0 in Hget. }
    rewrite (get_cons_ref c0 o0 p pre h1 Hc0) in Hget.
    change ((p :: pre) ++ [k]) with (p :: (pre ++ [k])).
    destruct (decide (c0 = c')) as [->|Hne].
    + rewrite Hc' in Hc0. injection Hc0 as <-.
      rewrite (get_cons_ref c' _ p (pre ++ [k]) h' Hc1). simpl.
      destruct (decide (key_to_string k = key_to_string p)) as [Heq|Hkp].
      * rewrite <-Heq, field_lookup_delete. simpl. by destruct pre.
      * rewrite field_lookup_delete_ne by done. by apply IH.
    + assert (h' !! c0 = Some o0) as Hc0'.
      { unfold h'. by rewrite list_lookup_insert_ne. }
      rewrite (get_cons_ref c0 o0 p (pre ++ [k]) h' Hc0'). by apply IH.
Qed.

(** A path that does not meet the container [c'] before its end reads the
    same after [c'] is updated. *)
Lemma get_update_end h1 c' o' pre : ∀ cur x,
  first_reached h1 cur pre c' →
  get cur pre h1 = Some (Return x, h1) →
  get cur pre (<[c' := o']> h1) = Some (Return x, <[c' := o']> h1).
Proof.
  induction pre as [|p pre IH]; intros cur x Hfirst Hget.
  - by injection Hget as ->.
  - simpl in *. destruct (is_nullish cur) eqn:Hn; [by injection Hget as <-|].
    apply bind_Some in Hget as [(next & h2 & Hp & Hget)|(e & _ & [=])].
    destruct (get_property_step _ _ _ _ _ Hn Hp) as [-> _].
    assert (get_property cur p (<[c' := o']> h1)
            = Some (Return next, <[c' := o']> h1)) as Hp'.
    { destruct cur as [| | | | |c0]; simpl in *; try (by injection Hp as <-).
      assert (c0 ≠ c') as Hne.
      { intros ->. by apply (Hfirst 0%nat); [simpl; lia|]. }
      unfold bind, load in *. rewrite list_lookup_insert_ne by done.
      destruct (h1 !! c0); [|done]. by injection Hp as <-. }
    rewrite (bind_Return _ _ _ _ _ Hp'). apply IH; [|done].
    intros j Hj Hgetj. apply (Hfirst (S j)); [simpl; lia|].
    simpl. rewrite Hn. by rewrite (bind_Return _ _ _ _ _ Hp).
Qed.

(** A path that first reaches a container in the original first reaches
    its copy in the copy. *)
Lemma first_reached_rel m h h1 source result path c c' :
  heap_ok h → renaming m h h1 → val_rel m source result → m !! c = Some c' →
  first_reached h source path c → first_reached h1 result path c'.
Proof.
  intros Hok Hren Hrel Hc Hfirst j Hj Hget.
  destruct (get_rel m h h1 (take j path) source result Hok Hren Hrel)
    as (x & x' & Hx & Hx' & Hxx).
  rewrite Hget in Hx'. injection Hx' as <-.
  destruct x as [| | | | |l2]; simpl in Hxx; try done.
  destruct Hxx as (l3 & [= <-] & Hl2).
  assert (l2 = c) as -> by (by eapply (ci_inj _ _ _ _ Hren)).
  by apply (Hfirst j Hj).
Qed.

Lemma val_rel_copied m h h1 v v' :
  renaming m h h1 → val_rel m v v' → copied_elem (length h) (Some v) (Some v').
Proof.
  intros Hren Hv. destruct v; simpl in *; try by subst.
  destruct Hv as (l' & -> & Hl'). exists l'. split; [done|].
  apply (renaming_lookup m h h1 Hren) in Hl'. lia.
Qed.

Lemma elems_rel_copied m h h1 es es' :
  renaming m h h1 → elems_rel m es es' → Forall2 (copied_elem (length h)) es es'.
Proof.
  intros Hren Hes. eapply Forall2_impl; [exact Hes|].
  intros e e' [v v' Hv|]; [|done]. by eapply val_rel_copied.
Qed.

Lemma fields_rel_copied m h h1 fs fs' :
  renaming m h h1 → fields_rel m fs fs' → Forall2 (copied_field (length h)) fs fs'.
Proof.
  intros Hren Hfs. eapply Forall2_impl; [exact Hfs|].
  intros f f' [Hs Hv]. split; [done|]. by eapply val_rel_copied.
Qed.

(** X7: removing a field of a map, on a path of plain keys.  The operation
    returns a new document in
    which the path reads [undefined], while the original still reads what it
    held.  When the map is not one of its own ancestors, the parent path of
    the result leads to the copy of the map without the field: field for
    field as the original, primitives being themselves and containers new
    ones. *)
Theorem delete_field source parentPath k v c fs h :
  heap_ok h → val_ok (length h) source →
  plain_path (parentPath ++ [k]) = true →
  get source parentPath h = Some (Return (VRef c), h) →
  h !! c = Some (OObj fs) →
  ∃ l h',
    executeOperation source
      {| path := parentPath ++ [k]; action_of := ADelete; value_of := v |} h
    = Some (Return (VRef l), h') ∧
    (length h ≤ l)%nat ∧
    get (VRef l) (parentPath ++ [k]) h' = Some (Return VUndef, h') ∧
    get source (parentPath ++ [k]) h'
    = Some (Return (default VUndef (field_lookup (key_to_string k) fs)), h') ∧
    (first_reached h source parentPath c →
     ∃ c' fs',
       get (VRef l) parentPath h' = Some (Return (VRef c'), h') ∧
       h' !! c' = Some (OObj fs') ∧
       Forall2 (copied_field (length h))
         (field_delete (key_to_string k) fs) fs').
Proof.
  intros Hok Hsrc _ Hget Hc.
  destruct (delete_unfold source parentPath k v (VRef c) h Hok Hsrc Hget)
    as (result & m & h1 & target' & Hcl & Hren & Hrel & Hrr & Hget' & Hexec).
  pose proof (renaming_prefix m h h1 Hren) as Hpre.
  destruct Hrr as (c' & -> & Hc').
  pose proof Hc' as Hmc.
  apply (renaming_lookup m h h1 Hren) in Hc'
    as (_ & _ & _ & o & o1 & Ho & Ho1 & Hoo).
  rewrite Hc in Ho. injection Ho as <-.
  destruct o1 as [|fs1]; [done|]. simpl in Hoo, Hexec.
  set (h' := <[c' := OObj (field_delete (key_to_string k) fs1)]> h1).
  assert (executeOperation source
      {| path := parentPath ++ [k]; action_of := ADelete; value_of := v |} h
    = Some (Return result, h')) as Hex.
  { rewrite Hexec. unfold bind at 1. unfold bind at 1. unfold load.
    rewrite Ho1. simpl. unfold store. by rewrite Ho1. }
  destruct (delete_returns _ _ _ _ _ _ _ Hok Hsrc Hex) as (Hpre' & l & -> & Hl).
  exists l, h'. split_and!; [done|done|by apply get_deleted| |].
  - apply (get_prefix _ _ h); [|done].
    rewrite (get_app parentPath source [k] h (VRef c) Hget).
    by rewrite (get_cons_ref c (OObj fs) k [] h Hc).
  - intros Hfirst. exists c', (field_delete (key_to_string k) fs1).
    split_and!.
    + apply get_update_end; [|done].
      by apply (first_reached_rel m h h1 source (VRef l) parentPath c c').
    + apply list_lookup_insert_eq. by eapply lookup_lt_Some.
    + eapply fields_rel_copied; [done|]. by apply field_delete_rel.
Qed.

(** ** Removing an element of a sequence *)

(** [splice(start, 1)] removes the element at [start], counted from the end
    when [start] is negative, and nothing at or beyond the length. *)
Lemma splice_one_delete {A} z (es : list A) :
  let len := Z.of_nat (length es) in
  take (Z.to_nat (if decide (z < 0) then Z.max (len + z) 0 else Z.min z len)) es ++
  drop (Z.to_nat ((if decide (z < 0) then Z.max (len + z) 0 else Z.min z len) +
                  Z.min (Z.max 1 0)
                    (len - (if decide (z < 0) then Z.max (len + z) 0 else Z.min z len))))
       es
  = if decide (len ≤ z)%Z then es
    else delete (Z.to_nat (if decide (z < 0) then Z.max (len + z) 0 else z)) es.
Proof.
  intros len. pose proof (eq_refl : len = Z.of_nat (length es)) as Hlen.
  clearbody len. destruct (decide (len ≤ z)%Z) as [Hge|Hlt].
  - rewrite decide_False by lia. rewrite Z.min_r by lia.
    replace (len - len) with 0 by lia. rewrite Z.min_r by lia.
    rewrite Z.add_0_r, Hlen, Nat2Z.id.
    by rewrite take_drop.
  - destruct (decide (z < 0)) as [Hneg|Hpos].
    + destruct (decide (len = 0)) as [H0|Hn0].
      * destruct es; [by rewrite take_nil, drop_nil|simpl in Hlen; lia].
      * set (from := Z.max (len + z) 0).
        assert (0 ≤ from < len) as Hfrom by (unfold from; lia).
        rewrite (Z.min_l (Z.max 1 0)) by lia.
        replace (Z.to_nat (from + Z.max 1 0)) with (S (Z.to_nat from)) by lia.
        by rewrite delete_take_drop.
    + rewrite Z.min_l by lia. rewrite (Z.min_l (Z.max 1 0)) by lia.
      replace (Z.to_nat (z + Z.max 1 0)) with (S (Z.to_nat z)) by lia.
      by rewrite delete_take_drop.
Qed.

Lemma splice_one_spec z es :
  splice_one z es
  = if decide (Z.of_nat (length es) ≤ z)%Z then es
    else delete
           (Z.to_nat (if decide (z < 0)
                      then Z.max (Z.of_nat (length es) + z) 0 else z)) es.
Proof. apply (splice_one_delete z es). Qed.

Lemma splice_one_Forall2 {A B} (R : A → B → Prop) z es es' :
  Forall2 R es es' →
  Forall2 R
    (let len := Z.of_nat (length es) in
     let from := if decide (z < 0) then Z.max (len + z) 0 else Z.min z len in
     let count := Z.min (Z.max 1 0) (len - from) in
     take (Z.to_nat from) es ++ drop (Z.to_nat (from + count)) es)
    (let len := Z.of_nat (length es') in
     let from := if decide (z < 0) then Z.max (len + z) 0 else Z.min z len in
     let count := Z.min (Z.max 1 0) (len - from) in
     take (Z.to_nat from) es' ++ drop (Z.to_nat (from + count)) es').
Proof.
  intros Hes. rewrite <-(Forall2_length _ _ _ Hes). simpl.
  apply Forall2_app; [by apply Forall2_take|by apply Forall2_drop].
Qed.

(** X8: removing an element of a sequence with a number as last key.  The
    operation returns a new document and leaves the original sequence as it
    was.  An index at or beyond the length removes nothing: the result is
    structurally equal to the source.  Otherwise one element is removed and
    the later ones move down: the element at the index, or counted from the
    end when the index is negative.  When the sequence is not one of its own
    ancestors, the parent path of the result leads to the copy of the
    sequence without that element. *)
Theorem delete_element source parentPath z v c es ns h :
  heap_ok h → val_ok (length h) source →
  get source parentPath h = Some (Return (VRef c), h) →
  h !! c = Some (OArr es ns) →
  ∃ l h',
    executeOperation source
      {| path := parentPath ++ [KNum z]; action_of := ADelete; value_of := v |} h
    = Some (Return (VRef l), h') ∧
    (length h ≤ l)%nat ∧
    h' !! c = Some (OArr es ns) ∧
    ((Z.of_nat (length es) ≤ z)%Z → same_document h source h' (VRef l)) ∧
    (first_reached h source parentPath c →
     ∃ c' es' ns',
       get (VRef l) parentPath h' = Some (Return (VRef c'), h') ∧
       h' !! c' = Some (OArr es' ns') ∧
       Forall2 (copied_elem (length h)) (splice_one z es) es' ∧
       Forall2 (copied_field (length h)) ns ns') ∧
    splice_one z es
    = if decide (Z.of_nat (length es) ≤ z)%Z then es
      else delete
             (Z.to_nat (if decide (z < 0)
                        then Z.max (Z.of_nat (length es) + z) 0 else z)) es.
Proof.
  intros Hok Hsrc Hget Hc.
  destruct (delete_unfold source parentPath (KNum z) v (VRef c) h Hok Hsrc Hget)
    as (result & m & h1 & target' & Hcl & Hren & Hrel & Hrr & Hget' & Hexec).
  pose proof (renaming_prefix m h h1 Hren) as Hpre.
  destruct Hrr as (c' & -> & Hc').
  pose proof Hc' as Hmc.
  apply (renaming_lookup m h h1 Hren) in Hc'
    as (_ & _ & _ & o & o1 & Ho & Ho1 & Hoo).
  rewrite Hc in Ho. injection Ho as <-.
  destruct o1 as [es1 ns1|]; [|done]. simpl in Hoo, Hexec.
  destruct Hoo as [Hes Hns].
  set (h' := <[c' := OArr (splice_one z es1) ns1]> h1).
  assert (executeOperation source
      {| path := parentPath ++ [KNum z]; action_of := ADelete; value_of := v |} h
    = Some (Return result, h')) as Hex.
  { rewrite Hexec. unfold bind at 1. unfold bind at 1. unfold load.
    rewrite Ho1. simpl. unfold store. by rewrite Ho1. }
  destruct (delete_returns _ _ _ _ _ _ _ Hok Hsrc Hex) as (Hpre' & l & -> & Hl).
  exists l, h'. split_and!; [done|done| | | |apply splice_one_spec].
  - by eapply prefix_lookup_Some.
  - intros Hz. assert (h' = h1) as ->.
    { unfold h'. rewrite splice_one_spec.
      rewrite <-(Forall2_length _ _ _ Hes). rewrite decide_True by done.
      by apply list_insert_id. }
    by apply (same_document_renaming m).
  - intros Hfirst. exists c', (splice_one z es1), ns1. split_and!.
    + apply get_update_end; [|done].
      by apply (first_reached_rel m h h1 source (VRef l) parentPath c c').
    + apply list_lookup_insert_eq. by eapply lookup_lt_Some.
    + eapply elems_rel_copied; [done|]. by apply (splice_one_Forall2 _ z).
    + by eapply fields_rel_copied.
Qed.

(** * Further properties of the copy and of the assignment of [set] *)

(** X9: [clone] on any well-formed document, also one with shared or cyclic
    containers, returns a structurally equal document made of new containers
    only and leaves the original as it was.  The copy keeps the sharing of
    the original: two paths lead to one container in the copy exactly when
    they lead to one container in the original. *)
Theorem clone_keeps_sharing source h :
  heap_ok h → val_ok (length h) source →
  ∃ copy h',
    clone source h = Some (Return copy, h') ∧
    h `prefix_of` h' ∧ heap_ok h' ∧
    same_document h source h' copy ∧
    (∀ p l', get copy p h' = Some (Return (VRef l'), h') → (length h ≤ l')%nat) ∧
    (∀ p q,
       (∃ l, get source p h = Some (Return (VRef l), h) ∧
             get source q h = Some (Return (VRef l), h)) ↔
       (∃ l', get copy p h' = Some (Return (VRef l'), h') ∧
              get copy q h' = Some (Return (VRef l'), h'))).
Proof.
  intros Hok Hsrc.
  destruct (clone_renaming h source Hok Hsrc) as (copy & m & h' & Hc & Hren & Hrel).
  destruct (val_rel_fresh m h h' Hren source copy Hrel) as [Hab Hres].
  exists copy, h'. split_and!.
  - done.
  - by eapply renaming_prefix.
  - by eapply renaming_heap_ok.
  - by apply (same_document_renaming m).
  - intros p l' Hget.
    destruct (get_fresh m h h' copy p Hok Hren Hab Hres) as (t & Ht & _ & Htab).
    rewrite Ht in Hget. by injection Hget as ->.
  - assert (∀ p l', get copy p h' = Some (Return (VRef l'), h') →
      ∃ l, get source p h = Some (Return (VRef l), h) ∧ m !! l = Some l') as Hback.
    { intros p l' Hget.
      destruct (get_rel m h h' p source copy Hok Hren Hrel)
        as (x & x' & Hx & Hx' & Hxx).
      rewrite Hget in Hx'. injection Hx' as <-.
      destruct x as [| | | | |l]; simpl in Hxx; try done.
      destruct Hxx as (l0 & [= <-] & Hl). by exists l. }
    assert (∀ p l, get source p h = Some (Return (VRef l), h) →
      ∃ l', get copy p h' = Some (Return (VRef l'), h') ∧ m !! l = Some l') as Hforth.
    { intros p l Hget.
      destruct (get_rel m h h' p source copy Hok Hren Hrel)
        as (x & x' & Hx & Hx' & Hxx).
      rewrite Hget in Hx. injection Hx as <-.
      destruct Hxx as (l' & -> & Hl). by exists l'. }
    intros p q. split.
    + intros (l & Hp & Hq).
      destruct (Hforth p l Hp) as (l1 & Hp' & Hl1).
      destruct (Hforth q l Hq) as (l2 & Hq' & Hl2).
      exists l1. split; [done|]. congruence.
    + intros (l' & Hp & Hq).
      destruct (Hback p l' Hp) as (l1 & Hp' & Hl1).
      destruct (Hback q l' Hq) as (l2 & Hq' & Hl2).
      exists l1. split; [done|].
      by rewrite (ci_inj _ _ _ _ Hren l1 l2 l' Hl1 Hl2).
Qed.

(** An assignment leaves the other properties as they are, the length of a
    sequence apart. *)
Lemma obj_get_set_other_eq h0 o k x o' k2 :
  obj_set h0 o k x = inr o' → not_length o k → same_prop o k k2 = false →
  not_length o k2 → obj_get o' k2 = obj_get o k2.
Proof.
  unfold not_length. destruct o as [es ns|fs]; simpl.
  - destruct (array_prop_of k) as [i| |s] eqn:Hk; [|done|];
      intros [= <-] _ Hne%bool_decide_eq_false_1; simpl;
      destruct (array_prop_of k2) as [j| |s2]; try done; intros _.
    + assert (i ≠ j) as Hij by congruence.
      unfold elems_set. case_decide.
      * by rewrite list_lookup_insert_ne.
      * destruct (decide (j < length es)%nat).
        { by rewrite lookup_app_l. }
        rewrite (lookup_ge_None_2 es j) by lia.
        rewrite lookup_app_r by lia.
        destruct (decide (j - length es < i - length es)%nat).
        { rewrite lookup_app_l by (by rewrite length_replicate).
          by rewrite lookup_replicate_2. }
        rewrite lookup_app_r by (rewrite length_replicate; lia).
        rewrite length_replicate.
        destruct (j - length es - (i - length es))%nat as [|d] eqn:Hd; [lia|].
        done.
    + assert (s ≠ s2) as Hs by congruence.
      by rewrite field_lookup_insert_ne.
  - intros [= <-] _ Hne%bool_decide_eq_false_1 _. simpl.
    by rewrite field_lookup_insert_ne.
Qed.

Lemma same_prop_rel m o o' k k2 :
  obj_rel m o o' → same_prop o' k k2 = same_prop o k k2.
Proof. by destruct o, o'. Qed.

Lemma length_elems_set i v es :
  length (elems_set i v es) = (length es `max` S i)%nat.
Proof.
  unfold elems_set. case_decide.
  - rewrite length_insert. lia.
  - rewrite !length_app, length_replicate. simpl. lia.
Qed.

(** X10: [set] below a parent that exists is one assignment on the copy of
    the parent, on plain keys.  When the path without its last key leads to a container
    that is not one of its own ancestors, and the last key is not the
    length of a sequence, [set] returns a new document in which the path
    reads as the value and every other property of the parent reads as in
    the original: a primitive as itself, a container as a new container.
    Writing an element of a sequence at or beyond its length extends the
    sequence to end with that element.  The original parent is as it
    was. *)
Theorem set_assigns_one_property source parentPath k v c o h :
  heap_ok h → val_ok (length h) source → val_ok (length h) v →
  plain_path (parentPath ++ [k]) = true →
  get source parentPath h = Some (Return (VRef c), h) →
  h !! c = Some o → not_length o k →
  first_reached h source parentPath c →
  ∃ l h',
    set source (parentPath ++ [k]) v h = Some (Return (VRef l), h') ∧
    (length h ≤ l)%nat ∧
    h' !! c = Some o ∧
    get (VRef l) (parentPath ++ [k]) h' = Some (Return v, h') ∧
    (∀ k2, plain_key k2 = true → same_prop o k k2 = false → not_length o k2 →
       ∃ x', get (VRef l) (parentPath ++ [k2]) h' = Some (Return x', h') ∧
             copied_elem (length h) (Some (obj_get o k2)) (Some x')) ∧
    (∀ es ns i, o = OArr es ns → array_prop_of k = PIndex i →
       get (VRef l) (parentPath ++ [KStr "length"]) h'
       = Some (Return (VNum (Z.of_nat (length es `max` S i))), h')).
Proof.
  intros Hok Hsrc Hv _ Hget Hc Hnl Hfirst.
  destruct (clone_renaming h source Hok Hsrc) as (result & m & h1 & Hcl & Hren & Hrel).
  pose proof (renaming_prefix m h h1 Hren) as Hpre.
  destruct (get_rel m h h1 parentPath source result Hok Hren Hrel)
    as (r & r' & Hr & Hget' & Hrr).
  rewrite Hget in Hr. injection Hr as <-.
  destruct Hrr as (c' & -> & Hmc).
  destruct (renaming_lookup m h h1 Hren c c' Hmc)
    as (_ & _ & _ & o0 & o1 & Ho0 & Ho1 & Hoo).
  rewrite Hc in Ho0. injection Ho0 as <-.
  pose proof (obj_rel_not_length m o o1 k Hoo Hnl) as Hnl1.
  destruct (obj_set_not_length o1 k v Hnl1) as (o' & Hset & Hov).
  set (h' := <[c' := o']> h1).
  assert (h' !! c' = Some o') as Hc'.
  { apply list_lookup_insert_eq. by eapply lookup_lt_Some. }
  destruct (parentPath ++ [k]) as [|k' rest'] eqn:Hpath.
  { by destruct parentPath. }
  assert (set source (k' :: rest') v h = Some (Return result, h')) as Hres.
  { assert (set_walk (VRef c') k [] v h1 = Some (Return tt, h')) as Hwalk.
    { by apply (set_property_ref c' o1). }
    rewrite <-(set_walk_present c' k [] v h1 parentPath result k' rest' Hget' Hpath)
      in Hwalk.
    simpl. rewrite (bind_Return _ _ _ _ _ Hcl).
    by rewrite (bind_Return _ _ _ _ _ Hwalk). }
  pose proof (wp_elim _ _ _ _ _ (set_wp source k' rest' v h Hok Hsrc Hv) Hres)
    as (Hpre' & _ & _ & l & -> & Hl & _).
  assert (get (VRef l) parentPath h' = Some (Return (VRef c'), h')) as Hparent.
  { apply get_update_end; [|done].
    by apply (first_reached_rel m h h1 source (VRef l) parentPath c c'). }
  assert (∀ k2, get (VRef l) (parentPath ++ [k2]) h'
                = Some (Return (obj_get o' k2), h')) as Hread.
  { intros k2. rewrite (get_app parentPath _ [k2] h' _ Hparent).
    by rewrite (get_cons_ref c' o' k2 [] h' Hc'). }
  exists l, h'. split_and!; [done|done| | | |].
  - by eapply prefix_lookup_Some.
  - by rewrite <-Hpath, Hread, Hov.
  - intros k2 _ Hk2 Hnl2. exists (obj_get o' k2). split; [apply Hread|].
    rewrite (obj_get_set_other_eq h1 o1 k v o' k2 (Hset h1) Hnl1).
    + eapply val_rel_copied; [done|]. by apply obj_get_rel.
    + by rewrite (same_prop_rel m o o1).
    + by eapply obj_rel_not_length.
  - intros es ns i -> Hi. rewrite Hread.
    destruct o1 as [es1 ns1|]; [|done]. destruct Hoo as [Hes _].
    specialize (Hset h1). simpl in Hset. rewrite Hi in Hset.
    injection Hset as <-. simpl.
    by rewrite length_elems_set, (Forall2_length _ _ _ Hes).
Qed.

(** * What a batch of primitive values shares with the original *)

Lemma closed_above_extend n0 h h' :
  (n0 ≤ length h)%nat → h `prefix_of` h' → closed_above n0 h →
  (∀ l o, (length h ≤ l)%nat → h' !! l = Some o → obj_all (val_above n0) o) →
  closed_above n0 h'.
Proof.
  intros Hn Hpre Hcl Hnew l o Hl Ho.
  destruct (decide (l < length h)%nat) as [Hlt|Hge].
  - destruct (lookup_lt_is_Some_2 h l Hlt) as [o0 Ho0].
    rewrite (prefix_lookup_Some _ _ _ _ Ho0 Hpre) in Ho. injection Ho as <-.
    by eapply Hcl.
  - apply (Hnew l o); [lia|done].
Qed.

Lemma obj_all_above_mono n0 n1 o :
  (n0 ≤ n1)%nat → obj_all (val_above n1) o → obj_all (val_above n0) o.
Proof.
  intros Hn. apply obj_all_impl. intros x. apply val_refs_impl. intros l. lia.
Qed.

Lemma val_refs_prim R v : (∀ l, v ≠ VRef l) → val_refs R v.
Proof. intros Hv. destruct v; try done. by destruct (Hv l). Qed.

(** The sequence that [append] and [prepend] build from a sequence of new
    containers and a primitive holds new containers only. *)
Lemma new_elems_above n0 act es v :
  (∀ l, v ≠ VRef l) → elems_all (val_above n0) es →
  obj_all (val_above n0)
    (OArr (match act with
           | AAppend => spread es ++ [Some v]
           | _ => Some v :: spread es
           end) []).
Proof.
  intros Hprim Hes. apply (spread_all _ _ I) in Hes. unfold elems_all in *.
  assert (val_above n0 v) as Hv by by apply val_refs_prim.
  split; [|by constructor].
  destruct act; try (by constructor).
  apply Forall_app. split; [done|]. by repeat constructor.
Qed.

(** [append] and [prepend] at the empty path. *)
Lemma root_append_closed n0 act source v h result h' :
  act = AAppend ∨ act = APrepend →
  heap_ok h → val_ok (length h) source → (∀ l, v ≠ VRef l) →
  closed_above n0 h → val_above n0 source →
  executeOperation source {| path := []; action_of := act; value_of := v |} h
  = Some (Return result, h') →
  closed_above n0 h' ∧ val_above n0 result.
Proof.
  intros Hact Hok Hsrc Hprim Hcl Hab Hexec.
  destruct (is_array_total source h Hok Hsrc) as (a & Ha & _).
  rewrite (append_unfold act source [] v source a h Hact eq_refl Ha) in Hexec.
  destruct (negb a && negb (is_string source)); [done|].
  destruct source as [| | | |s|lc]; simpl in Hexec; try done.
  - destruct v; try done. by injection Hexec as <- <-.
  - unfold bind, load, alloc in Hexec.
    destruct (h !! lc) as [[es ns|fs]|] eqn:Hlc; try done.
    injection Hexec as <- <-. split.
    + apply closed_above_alloc; [done|]. apply new_elems_above; [done|].
      by destruct (Hcl lc _ Hab Hlc).
    + simpl. apply lookup_lt_Some in Hlc. simpl in Hab. lia.
Qed.

(** An operation with a primitive value, run on a document made of
    containers allocated at [n0] or later that only refer to one another,
    returns such a document. *)
Lemma operation_closed n0 source operation h result h' :
  heap_ok h → val_ok (length h) source →
  (∀ l, value_of operation ≠ VRef l) →
  (n0 ≤ length h)%nat → closed_above n0 h → val_above n0 source →
  executeOperation source operation h = Some (Return result, h') →
  h `prefix_of` h' ∧ heap_ok h' ∧ val_ok (length h') result ∧
  closed_above n0 h' ∧ val_above n0 result.
Proof.
  intros Hok Hsrc Hprim Hn Hcl Hab Hexec.
  assert (val_ok (length h) (value_of operation)) as Hv by by apply val_refs_prim.
  pose proof (wp_elim _ _ _ _ _
    (executeOperation_wp source operation h Hok Hsrc Hv) Hexec)
    as (Hpre & Hok' & Hres).
  assert (closed_above n0 h' ∧ val_above n0 result) as [? ?]; [|by split_and!].
  destruct operation as [[|k rest] act v]; simpl in Hprim, Hv.
  - (* the empty path *)
    destruct act as [| | | |tag]; try (by unfold executeOperation in Hexec).
    + injection Hexec as <- <-. split; [done|by apply val_refs_prim].
    + by apply (root_append_closed n0 AAppend source v h result h'
                  (or_introl eq_refl)).
    + by apply (root_append_closed n0 APrepend source v h result h'
                  (or_intror eq_refl)).
  - (* a path that is not empty *)
    assert ((∀ l o, (length h ≤ l)%nat → h' !! l = Some o →
               obj_all (val_above n0) o) ∧
            ∃ l, result = VRef l ∧ (length h ≤ l)%nat)
      as (Hnew & l & -> & Hl).
    2: { split; [by apply (closed_above_extend n0 h)|simpl; lia]. }
    assert (∀ act', act' = AAppend ∨ act' = APrepend → act = act' →
      (∀ l o, (length h ≤ l)%nat → h' !! l = Some o →
         obj_all (val_above n0) o) ∧
      ∃ l, result = VRef l ∧ (length h ≤ l)%nat) as Happend.
    { intros act' Hact' ->.
      pose proof (wp_elim _ _ _ _ _
        (append_wp act' source k rest v h Hact' Hok Hsrc Hv) Hexec)
        as (_ & Hnew & l & -> & Hl).
      split; [|by exists l]. intros a o Ha Ho.
      destruct (Hnew a o Ha Ho) as [Hab'|(-> & lc & es & ns & Hget & Hlc & ->)].
      { by apply (obj_all_above_mono n0 (length h)). }
      pose proof (reach_closed_above n0 h (k :: rest) source lc Hcl Hab Hget)
        as Hge.
      destruct (Hcl lc _ Hge Hlc) as [Hes _].
      destruct Hact' as [-> | ->];
        [by apply (new_elems_above n0 AAppend)
        |by apply (new_elems_above n0 APrepend)]. }
    destruct act as [| | | |tag];
      [|by apply (Happend AAppend (or_introl eq_refl))
       |by apply (Happend APrepend (or_intror eq_refl))
       | |by unfold executeOperation in Hexec].
    + pose proof (wp_elim _ _ _ _ _ (set_wp source k rest v h Hok Hsrc Hv) Hexec)
        as (_ & _ & Hcb & l & -> & Hl & _).
      split; [|by exists l]. intros a o Ha Ho.
      apply (obj_all_above_mono n0 (length h)); [done|].
      by apply (closed_but_prim (length h) v h' Hprim Hcb a o).
    + pose proof (wp_elim _ _ _ _ _ (delete_wp source k rest v h Hok Hsrc) Hexec)
        as (_ & _ & Hcl' & l & -> & Hl & _).
      split; [|by exists l]. intros a o Ha Ho.
      apply (obj_all_above_mono n0 (length h)); [done|]. by apply (Hcl' a o).
Qed.

Lemma apply_loop_closed n0 strict source operations : ∀ i result0 h0 result this' h',
  heap_ok h0 → val_ok (length h0) result0 →
  Forall (λ operation, ∀ l, value_of operation ≠ VRef l) operations →
  (n0 ≤ length h0)%nat → closed_above n0 h0 → val_above n0 result0 →
  apply_loop strict source i operations result0 {| errors := [] |} h0
  = Some (Return result, this', h') →
  getErrors this' = [] →
  h0 `prefix_of` h' ∧ closed_above n0 h' ∧ val_above n0 result.
Proof.
  induction operations as [|op rest IH];
    intros i result0 h0 result this' h' Hok Hres Hops Hn Hcl Hab; simpl.
  - by intros [= <- <- <-] _.
  - apply Forall_cons_1 in Hops as [Hop Hrest].
    destruct (executeOperation result0 op h0) as [[[result1|e] h1]|] eqn:Hexec;
      [| |done].
    + destruct (operation_closed n0 result0 op h0 result1 h1)
        as (Hpre & Hok1 & Hres1 & Hcl1 & Hab1); [done..|].
      intros Hloop Herr.
      destruct (IH (S i) result1 h1 result this' h') as (Hpre' & ? & ?);
        [done..|apply prefix_length in Hpre; lia|done|done|done|done|].
      split_and!; [by etrans|done..].
    + destruct strict; [done|]. by intros [= <- <- <-].
Qed.

(** X11: a batch whose values are all primitives and whose paths are made
    of plain keys, once it has run to its end, returns a document that shares nothing with what existed before
    the call: every container reachable in the result was allocated by the
    call, and the objects of the original store are as they were. *)
Theorem apply_shares_nothing this source operations config h result this' h' :
  heap_ok h → val_ok (length h) source →
  Forall (λ operation, ∀ l, value_of operation ≠ VRef l) operations →
  forallb (λ operation, plain_path (path operation)) operations = true →
  apply this source operations config h = Some (Return result, this', h') →
  getErrors this' = [] →
  h `prefix_of` h' ∧
  ∀ p l, get result p h' = Some (Return (VRef l), h') → (length h ≤ l)%nat.
Proof.
  intros Hok Hsrc Hops _ Happly Herr. unfold apply in Happly.
  destruct (clone_renaming h source Hok Hsrc)
    as (result0 & m & h0 & Hclone & Hren & Hrel).
  rewrite Hclone in Happly.
  pose proof (renaming_prefix m h h0 Hren) as Hpre0.
  destruct (val_rel_fresh m h h0 Hren source result0 Hrel) as [Hab0 Hres0].
  destruct (apply_loop_closed (length h) (default true (config ≫= strict))
              source operations 0 result0 h0 result this' h')
    as (Hpre & Hcl & Hab);
    [by eapply renaming_heap_ok|done|done|by apply prefix_length
    |by eapply renaming_closed|done|done|done|].
  split; [by etrans|]. intros p l Hget.
  by apply (reach_closed_above (length h) h' p result l).
Qed.

(** X12: a batch that ends with a [set] at the empty path returns the value
    of that operation itself, not a copy of it, whatever the source and the
    operations before it, provided these return; nothing is allocated for
    it and the error record is empty. *)
Theorem apply_root_write this source operations v config h result h' :
  bind (clone source) (run_all operations) h = Some (Return result, h') →
  apply this source
    (operations ++ [{| path := []; action_of := ASet; value_of := v |}])
    config h
  = Some (Return v, {| errors := [] |}, h').
Proof.
  intros [(result0 & h0 & Hclone & Hrun)|(e & _ & [=])]%bind_Some.
  unfold apply. rewrite Hclone.
  by rewrite (apply_loop_run _ _ _ _ _ _ _ _ _ _ Hrun).
Qed.

End engine.


(** * Examples *)




Lemma append_x_first_failure :
  first_failure demo_convert_length (VRef 1%nat) [append_x] store_map_items 0
    append_x (Err "Target at path items is not an array or string")
    store_map_items_failed.
Proof. split; [done|]. by eexists _, _. Defined.

Lemma apply_strict_message_witness :
  apply demo_host_message demo_convert_length {| errors := [] |} (VRef 1%nat)
    [append_x] (Some {| strict := Some true |}) store_map_items
  = Some (Throw (Err "Target at path items is not an array or string"),
          {| errors := [] |}, store_map_items_failed) ∧
  apply demo_host_message demo_convert_length {| errors := [] |} (VRef 1%nat)
    [append_x] (Some {| strict := Some false |}) store_map_items
  = Some (Return (VRef 1%nat),
          {| errors := [{| index := 0; operation := append_x;
                           reason := "Target at path items is not an array or string" |}] |},
          store_map_items_failed).
Proof.
  destruct (apply_strict_message demo_host_message demo_convert_length
              {| errors := [] |} (VRef 1%nat) [append_x] store_map_items 0
              append_x (Err "Target at path items is not an array or string")
              store_map_items_failed append_x_first_failure)
    as (H1 & H2 & _).
  split; [exact H1|exact H2].
Defined.

Lemma apply_strict_throw_no_errors_witness :
  apply demo_host_message demo_convert_length stale (VRef 1%nat) [append_x] None
    store_map_items
  = Some (Throw (Err "Target at path items is not an array or string"),
          {| errors := [] |}, store_map_items_failed) ∧
  getErrors {| errors := [] |} = [].
Proof.
  split; [done|].
  destruct (apply_strict_throw_no_errors demo_host_message demo_convert_length
              stale (VRef 1%nat) [append_x] None store_map_items eq_refl)
    as [H _].
  by apply (H (Err "Target at path items is not an array or string")
              {| errors := [] |} store_map_items_failed).
Defined.

Lemma store_test_ok : heap_ok store_test.
Proof. apply (bool_decide_unpack _). by vm_compute. Defined.

Lemma apply_empty_batch_witness :
  ∃ result h',
    apply demo_host_message demo_convert_length stale (VRef 0%nat) [] None store_test
    = Some (Return result, {| errors := [] |}, h') ∧
    same_document store_test (VRef 0%nat) h' result ∧
    result ≠ VRef 0%nat.
Proof.
  destruct (apply_empty_batch demo_host_message demo_convert_length stale
              (VRef 0%nat) None store_test store_test_ok)
    as (result & h' & H1 & H2 & H3 & _).
  - simpl. lia.
  - exists result, h'. split_and!; [exact H1|exact H2|by apply (H3 0%nat)].
Defined.

Lemma store_user_ok : heap_ok store_user.
Proof. apply (bool_decide_unpack _). by vm_compute. Defined.

Lemma delete_root_and_absent_witness :
  ∃ result h',
    executeOperation demo_convert_length (VRef 1%nat) delete_age store_user
    = Some (Return result, h') ∧
    same_document store_user (VRef 1%nat) h' result ∧
    h' !! 0%nat = Some (OObj [("name", VStr "John")]).
Proof.
  destruct (delete_root_and_absent demo_host_message demo_convert_length)
    as (_ & _ & H).
  destruct (H (VRef 1%nat) [KStr "user"] (KStr "age") VUndef 0%nat
              [("name", VStr "John")] store_user store_user_ok)
    as (result & h' & H1 & H2 & _ & H4); [simpl; lia|done..|].
  by exists result, h'.
Defined.

Lemma store_tags_ok : heap_ok store_tags.
Proof. apply (bool_decide_unpack _). by vm_compute. Defined.

Lemma append_prepend_spec_witness :
  ∃ l' h',
    executeOperation demo_convert_length (VRef 2%nat)
      {| path := [KStr "user"; KStr "tags"]; action_of := AAppend;
         value_of := VStr "admin" |} store_tags
    = Some (Return (VRef l'), h') ∧
    h' !! 0%nat = Some (OArr [Some (VStr "user")] []) ∧
    h' !! 3%nat = Some (OArr [Some (VStr "user"); Some (VStr "admin")] []) ∧
    get (VRef l') [KStr "user"; KStr "tags"] h'
    = Some (Return (VRef 3%nat), h').
Proof.
  destruct (append_prepend_spec demo_convert_length AAppend (VRef 2%nat)
              [KStr "user"; KStr "tags"] (VStr "admin") (VRef 0%nat) store_tags)
    as (_ & _ & _ & H);
    [by left|exact store_tags_ok|simpl; lia|done|done|done|].
  destruct (H 0%nat [Some (VStr "user")] [] eq_refl eq_refl)
    as (result & h' & H1 & _ & _ & H3 & H4 & H5).
  destruct H5 as (l' & -> & _ & H6); [done| |by exists l', h'].
  intros l [|[|j]] [= <-] Hj1 Hj2; simpl in Hj1, Hj2; [lia|by vm_compute|lia].
Defined.

Lemma operation_sharing_witness :
  store_user `prefix_of` store_user_renamed ∧
  ∀ q l,
    get (VRef 2%nat) q store_user_renamed
    = Some (Return (VRef l), store_user_renamed) →
    (2 ≤ l)%nat.
Proof.
  destruct (operation_sharing demo_convert_length (VRef 1%nat) set_name
              store_user (VRef 2%nat) store_user_renamed store_user_ok)
    as (H1 & _ & _ & H4); [simpl; lia|done|done|done|].
  split; [exact H1|]. apply H4. right. by split.
Defined.

Lemma set_outcomes_witness :
  (∃ l h',
     set demo_convert_length (VRef 1%nat) [KStr "user"; KStr "age"] (VNum 30)
       store_user
     = Some (Return (VRef l), h') ∧ (2 ≤ l)%nat) ∧
  (∃ he h',
     set demo_convert_length (VRef 1%nat) [KStr "user"; KStr "name"; KStr "first"]
       (VNum 30) store_user
     = Some (Throw (HostErr he), h')).
Proof.
  split.
  - destruct (set_outcomes demo_convert_length (VRef 1%nat)
                [KStr "user"; KStr "age"] (VNum 30) store_user store_user_ok)
      as [[H _] _]; [simpl; lia|done|done|].
    destruct (H eq_refl) as (l & h' & H1 & H2 & _).
    by exists l, h'.
  - destruct (set_outcomes demo_convert_length (VRef 1%nat)
                [KStr "user"; KStr "name"; KStr "first"] (VNum 30) store_user
                store_user_ok)
      as [[_ H] _]; [simpl; lia|done|done|].
    destruct (H eq_refl) as (he & h' & H1 & _).
    by exists he, h'.
Defined.

Lemma set_materialises_witness :
  ∃ l' h' c' o',
    set demo_convert_length (VRef 1%nat) [KStr "user"; KStr "tags"; KNum 0]
      (VStr "admin") store_user
    = Some (Return (VRef l'), h') ∧
    get (VRef l') [KStr "user"] h' = Some (Return (VRef c'), h') ∧
    h' !! c' = Some o' ∧
    materialised h' (obj_get o' (KStr "tags")) [KNum 0] (VStr "admin") ∧
    get (VRef l') [KStr "user"; KStr "tags"; KNum 0] h'
    = Some (Return (VStr "admin"), h').
Proof.
  destruct (set_materialises demo_convert_length) as (_ & H & _).
  destruct (H (VRef 1%nat) [KStr "user"] 0%nat
              (OObj [("name", VStr "John")]) (KStr "tags") [KNum 0] (VStr "admin")
              store_user store_user_ok)
    as (l' & h' & c' & o' & H1 & H2 & H3 & H4 & H5 & _);
    [simpl; lia|done..|].
  by exists l', h', c', o'.
Defined.

Lemma failure_messages_witness :
  (∃ he, Err "Target at path items is not an array or string" = HostErr he) ∨
  ∃ f, Err "Target at path items is not an array or string"
       = Err (failure_message f) ∧ failure_of append_x f.
Proof.
  destruct (failure_messages demo_convert_length) as (H & _).
  apply (H (VRef 1%nat) append_x store_map_items _ store_map_items). done.
Defined.

(** * Where the specification and the code part *)

(** Against C2 as stated: after a successful [append] at [["items"]], the
    element [items[0]] of the result is the very container that is
    [items[0]] of the original document -- location 0 of the original
    store -- although it lies below the written path.  And [apply] with a
    [set] at [["copy"]] whose value is the sequence [items] of the source
    returns a document whose [copy] is that very sequence -- location 1 of
    the original store. *)
Lemma result_shares_containers :
  (executeOperation demo_convert_length (VRef 2%nat) append_x store_nested
   = Some (Return (VRef 4%nat), store_nested_appended) ∧
   get (VRef 4%nat) [KStr "items"; KNum 0] store_nested_appended
   = Some (Return (VRef 0%nat), store_nested_appended) ∧
   get (VRef 2%nat) [KStr "items"; KNum 0] store_nested
   = Some (Return (VRef 0%nat), store_nested)) ∧
  (apply demo_host_message demo_convert_length {| errors := [] |} (VRef 2%nat)
     [set_copy] None store_nested
   = Some (Return (VRef 6%nat), {| errors := [] |}, store_nested_copied) ∧
   get (VRef 6%nat) [KStr "copy"] store_nested_copied
   = Some (Return (VRef 1%nat), store_nested_copied) ∧
   get (VRef 2%nat) [KStr "items"] store_nested
   = Some (Return (VRef 1%nat), store_nested)) ∧
  (length store_nested = 3)%nat.
Proof. by split_and!. Qed.

(** Against C3 as stated: [set] through a node that is a text raises the
    host's error for [in] applied to a primitive. *)
Lemma set_through_scalar_throws :
  executeOperation demo_convert_length (VRef 0%nat)
    {| path := [KStr "a"; KStr "b"; KStr "c"]; action_of := ASet;
       value_of := VNum 1 |} store_scalar
  = Some (Throw (HostErr (InOperandNotObject (KStr "b") (VStr "John"))),
          [OObj [("a", VStr "John")]; OObj [("a", VStr "John")]]) ∧
  set demo_convert_length VNull [KStr "a"] (VNum 1) store_scalar
  = Some (Throw (HostErr (AssignToNullish (KStr "a") VNull)), store_scalar).
Proof. by split. Qed.

(** Against C6 as stated: the text ["a"] found at [["s", 0]], inside the
    text ["abc"], is appendable and the value is a text, yet nothing is
    written back: [set] of the concatenation throws the host's error for an
    assignment to a property of a primitive. *)
Lemma append_inside_text_throws :
  get (VRef 0%nat) [KStr "s"; KNum 0] store_text
  = Some (Return (VStr "a"), store_text) ∧
  executeOperation demo_convert_length (VRef 0%nat)
    {| path := [KStr "s"; KNum 0]; action_of := AAppend;
       value_of := VStr "x" |} store_text
  = Some (Throw (HostErr (AssignToPrimitive (KNum 0) (VStr "abc"))),
          [OObj [("s", VStr "abc")]; OObj [("s", VStr "abc")]]).
Proof. by split. Qed.

(** Against C7 as stated: in [{a: 5}] the node at [["a", 0]] is missing and
    the next key is a text, yet [set] at [["a", 0, "x"]] materialises
    nothing: the node at [["a"]] is a number, and the host throws its error
    for [in] applied to a primitive. *)
Lemma missing_node_below_scalar :
  get (VRef 0%nat) [KStr "a"; KNum 0] store_count
  = Some (Return VUndef, store_count) ∧
  set demo_convert_length (VRef 0%nat) [KStr "a"; KNum 0; KStr "x"] (VNum 1)
    store_count
  = Some (Throw (HostErr (InOperandNotObject (KNum 0) (VNum 5))),
          [OObj [("a", VNum 5)]; OObj [("a", VNum 5)]]).
Proof. by split. Qed.

(** Against C4 as stated: the reason recorded for a type mismatch does not
    contain the path of the failing operation. *)
Lemma mismatch_reason_lacks_path :
  apply demo_host_message demo_convert_length {| errors := [] |} (VRef 0%nat)
    [append_number] (Some {| strict := Some false |}) store_title
  = Some (Return (VRef 0%nat),
          {| errors := [{| index := 0; operation := append_number;
                           reason := "Can only append/prepend strings to strings" |}] |},
          [OObj [("title", VStr "Hello")]; OObj [("title", VStr "Hello")]]) ∧
  String.index 0 (join "." (path append_number))
    "Can only append/prepend strings to strings" = None.
Proof. by split. Qed.

(** * Examples of the further properties *)

Lemma get_composes_witness :
  get (VRef 1%nat) ([KStr "user"] ++ [KStr "name"]) store_user
  = get (VRef 0%nat) [KStr "name"] store_user.
Proof.
  destruct (get_composes (VRef 1%nat) [KStr "user"] [KStr "name"] store_user
              (VRef 0%nat) eq_refl eq_refl) as [H _].
  exact H.
Defined.

Lemma set_then_get_witness :
  ∃ l h',
    set demo_convert_length (VRef 1%nat) [KStr "user"; KStr "name"] (VStr "Jane")
      store_user
    = Some (Return (VRef l), h') ∧
    get (VRef l) [KStr "user"; KStr "name"] h' = Some (Return (VStr "Jane"), h') ∧
    get (VRef 1%nat) [KStr "user"; KStr "name"] h'
    = Some (Return (VStr "John"), h').
Proof.
  destruct (set_then_get demo_convert_length (VRef 1%nat) (KStr "user")
              [KStr "name"] (VStr "Jane") (VStr "John") store_user store_user_ok)
    as (l & h' & H1 & H2 & H3 & _); [simpl; lia|done|done|done|done| |].
  - by intros l j [=].
  - by exists l, h'.
Defined.

Lemma store_map_items_ok : heap_ok store_map_items.
Proof. apply (bool_decide_unpack _). by vm_compute. Defined.

Lemma operation_leaves_source_witness :
  ∃ r h',
    executeOperation demo_convert_length (VRef 1%nat) append_x store_map_items
    = Some (r, h') ∧
    store_map_items `prefix_of` h' ∧
    same_document store_map_items (VRef 1%nat) h' (VRef 1%nat).
Proof.
  destruct (operation_leaves_source demo_convert_length (VRef 1%nat) append_x
              store_map_items store_map_items_ok)
    as (r & h' & H1 & H2 & _ & H4 & _); [simpl; lia|done|done|].
  by exists r, h'.
Defined.


Lemma delete_outcomes_witness :
  ∃ h',
    executeOperation demo_convert_length (VRef 1%nat)
      {| path := [KStr "user"; KStr "name"] ++ [KStr "first"];
         action_of := ADelete; value_of := VUndef |} store_user
    = Some (Throw (Err "Cannot delete from non-object at user.name"), h').
Proof.
  destruct (delete_outcomes demo_convert_length (VRef 1%nat)
              [KStr "user"; KStr "name"] (KStr "first") VUndef (VStr "John")
              store_user store_user_ok)
    as (r & h' & H1 & _ & H3); [simpl; lia|done|done|].
  exists h'. by rewrite H1, H3.
Defined.

Lemma delete_field_witness :
  ∃ l h',
    executeOperation demo_convert_length (VRef 1%nat)
      {| path := [KStr "user"] ++ [KStr "name"]; action_of := ADelete;
         value_of := VUndef |} store_user
    = Some (Return (VRef l), h') ∧
    get (VRef l) ([KStr "user"] ++ [KStr "name"]) h' = Some (Return VUndef, h') ∧
    get (VRef 1%nat) ([KStr "user"] ++ [KStr "name"]) h'
    = Some (Return (VStr "John"), h').
Proof.
  destruct (delete_field demo_convert_length (VRef 1%nat) [KStr "user"]
              (KStr "name") VUndef 0%nat [("name", VStr "John")] store_user
              store_user_ok)
    as (l & h' & H1 & _ & H3 & H4 & _); [simpl; lia|done|done|done|].
  by exists l, h'.
Defined.

Lemma delete_element_witness :
  ∃ l h' c' es',
    executeOperation demo_convert_length (VRef 2%nat)
      {| path := [KStr "user"; KStr "tags"] ++ [KNum 0]; action_of := ADelete;
         value_of := VUndef |} store_tags
    = Some (Return (VRef l), h') ∧
    h' !! 0%nat = Some (OArr [Some (VStr "user")] []) ∧
    get (VRef l) [KStr "user"; KStr "tags"] h' = Some (Return (VRef c'), h') ∧
    h' !! c' = Some (OArr es' []) ∧
    Forall2 (copied_elem 3) [] es'.
Proof.
  destruct (delete_element demo_convert_length (VRef 2%nat)
              [KStr "user"; KStr "tags"] 0 VUndef 0%nat [Some (VStr "user")] []
              store_tags store_tags_ok)
    as (l & h' & H1 & _ & H3 & _ & H5 & _); [simpl; lia|done|done|].
  destruct H5 as (c' & es' & ns' & H6 & H7 & H8 & H9).
  - intros [|[|j]] Hj; simpl in Hj; [done|done|lia].
  - apply Forall2_nil_inv_l in H9 as ->. by exists l, h', c', es'.
Defined.

Lemma store_nested_ok : heap_ok store_nested.
Proof. apply (bool_decide_unpack _). by vm_compute. Defined.

Lemma clone_keeps_sharing_witness :
  ∃ copy h',
    clone (VRef 2%nat) store_nested = Some (Return copy, h') ∧
    same_document store_nested (VRef 2%nat) h' copy ∧
    ∀ p l', get copy p h' = Some (Return (VRef l'), h') → (3 ≤ l')%nat.
Proof.
  destruct (clone_keeps_sharing demo_convert_length (VRef 2%nat) store_nested
              store_nested_ok)
    as (copy & h' & H1 & _ & _ & H4 & H5 & _); [simpl; lia|].
  by exists copy, h'.
Defined.

Lemma set_assigns_one_property_witness :
  ∃ l h' x',
    set demo_convert_length (VRef 1%nat) ([KStr "user"] ++ [KStr "age"])
      (VNum 30) store_user
    = Some (Return (VRef l), h') ∧
    get (VRef l) ([KStr "user"] ++ [KStr "age"]) h' = Some (Return (VNum 30), h') ∧
    get (VRef l) ([KStr "user"] ++ [KStr "name"]) h' = Some (Return x', h') ∧
    copied_elem 2 (Some (VStr "John")) (Some x').
Proof.
  destruct (set_assigns_one_property demo_convert_length (VRef 1%nat)
              [KStr "user"] (KStr "age") (VNum 30) 0%nat
              (OObj [("name", VStr "John")]) store_user store_user_ok)
    as (l & h' & H1 & _ & _ & H4 & H5 & _);
    [simpl; lia|done|done|done|done|done| |].
  - intros [|j] Hj; simpl in Hj; [done|lia].
  - destruct (H5 (KStr "name")) as (x' & H6 & H7); [done|done|done|].
    by exists l, h', x'.
Defined.

Lemma apply_shares_nothing_witness :
  store_user `prefix_of` store_user_set_name ∧
  ∀ p l,
    get (VRef 4%nat) p store_user_set_name
    = Some (Return (VRef l), store_user_set_name) →
    (2 ≤ l)%nat.
Proof.
  apply (apply_shares_nothing demo_host_message demo_convert_length stale
           (VRef 1%nat) [set_name] None store_user (VRef 4%nat)
           {| errors := [] |} store_user_set_name store_user_ok).
  - simpl. lia.
  - repeat constructor. by intros l.
  - done.
  - done.
  - done.
Defined.

Lemma apply_root_write_witness :
  apply demo_host_message demo_convert_length stale (VRef 0%nat)
    ([] ++ [{| path := []; action_of := ASet; value_of := VStr "x" |}])
    None store_test
  = Some (Return (VStr "x"), {| errors := [] |},
          [OObj [("test", VBool true)]; OObj [("test", VBool true)]]).
Proof.
  by apply (apply_root_write demo_host_message demo_convert_length stale
              (VRef 0%nat) [] (VStr "x") None store_test (VRef 1%nat)).
Defined.

